(** * Board-game club: the write path over the Redis store

    A shallow embedding of [pro/deliverables/write_funcs.py],
    [pro/deliverables/graph_funcs.py], [pro/deliverables/keys.py] and
    [pro/deliverables/models.py], with the readers of
    [pro/deliverables/analytics_funcs.py] and the loops of the two loaders,
    [pro/deliverables/load_transform.py] and [load_transform.py].

    Conventions of the embedding.
    - Python [int] is [Z]; Python [str] is [string]; a Redis Set is a
      [gset], a Redis List a [list].  A key template with one parameter,
      such as ["player:{pid}:number_of_wins"], is a [gmap] indexed by the
      parameter: such a template is injective, and two of them with
      different fixed ends share no key.  The templates with two parameters
      are kept as the strings [str.format] builds, in a [gmap] indexed by
      the whole key: such a key does not tell where one parameter ends and
      the next begins.  So is ["player:{pid}:most_freq_opening:count"], whose
      keys overlap with those of ["player:{pid}:openings:{eco}:count"].
    - A leaderboard item ["{pid}:{score}"] is the pair [(pid, score)].  The
      two renderings agree on equality, since the score is printed in decimal
      and is the part after the last colon.
    - Calls are serial.  A pipeline is the sequence of its commands, in
      force from its [execute()] on.
    - Exceptions are values: a call returns its outcome together with the
      store as it stands when the call ends, writes of a raising call
      included.
    - [uuid.uuid4()] is the list of draws handed to a call, [json.loads]
      is embedded on arrays of plain string literals and [int] on decimal
      numerals; where a call leaves these, its outcome is [Beyond] and
      nothing is stated about it. *)

From Stdlib Require Import ZArith Lia Ascii String.
From stdpp Require Import base option list gmap sets strings sorting relations.

Open Scope Z_scope.

(** ** Exceptions ([models.py]) and outcomes *)

Inductive exn : Type :=
  | BoardGameClubNotUniqueError (msg : string)
  | BoardGameClubLoadTransformError (msg : string)
  | JSONDecodeError
  | ValueError
  | ResponseError.


(** Where the embedding stops: the [uuid4] draws handed to a call ran out
    while [__new_fid] was still looping, [json.loads] produced a document
    that is not an array of plain string literals, or [int] was given a text
    on which the embedding has no verdict. *)
Inductive boundary : Type :=
  | DrawsExhausted
  | JsonOutsideFragment
  | IntOutsideFragment.

(** A friend-group id: the 128-bit value of a UUID. *)
Abbreviation fid := N.

Inductive result (A : Type) : Type :=
  | Ok (a : A)
  | Raise (e : exn)
  | Beyond (b : boundary).
Arguments Ok {A} a.
Arguments Raise {A} e.
Arguments Beyond {A} b.

(** ** Redis primitives used by the write path *)

Section RedisList.
Context {A : Type} `{EqDecision A}.

(** [LREM key 0 v]: every occurrence of [v] goes. *)
Definition lrem (v : A) (l : list A) : list A := filter (λ x, x ≠ v) l.

(** [LINSERT key BEFORE pivot v]: in front of the first occurrence of
    [pivot]; the list is left alone when [pivot] does not occur. *)
Fixpoint linsert_before (pivot v : A) (l : list A) : list A :=
  match l with
  | [] => []
  | x :: l' =>
      if decide (x = pivot) then v :: x :: l'
      else x :: linsert_before pivot v l'
  end.

Definition rpush (l : list A) (v : A) : list A := l ++ [v].
Definition lpush (l : list A) (v : A) : list A := v :: l.

(** [LTRIM key 0 stop]: indices [0..stop] stay. *)
Definition ltrim (stop : nat) (l : list A) : list A := take (S stop) l.
End RedisList.

(** [INCR key] ([redis_client.incr(key, 1)]): a missing key counts as 0. *)
Definition incr `{Countable K} (k : K) (m : gmap K Z) : Z * gmap K Z :=
  let v := default 0 (m !! k) + 1 in (v, <[k := v]> m).

(** [SADD key v] on a family of sets. *)
Definition sadd `{Countable K} `{Countable V}
    (k : K) (v : V) (m : gmap K (gset V)) : gmap K (gset V) :=
  <[k := {[v]} ∪ default ∅ (m !! k)]> m.

Definition smembers `{Countable K} `{Countable V}
    (k : K) (m : gmap K (gset V)) : gset V := default ∅ (m !! k).

(** ** The bounded leaderboard: [__update_top_list] *)

Abbreviation entry := (string * Z)%type.

(** [s.find(c) >= 0] for a one-character [c]. *)
Fixpoint str_contains (c : ascii) (s : string) : bool :=
  match s with
  | EmptyString => false
  | String c' s' => Ascii.eqb c' c || str_contains c s'
  end.

Definition has_colon (s : string) : bool := str_contains ":"%char s.

(** [_, score = item.split(":")] followed by [int(score)].  The item is
    ["{pid}:{score}"], so the split has exactly two parts unless the player
    id itself holds a colon, and then the unpacking raises [ValueError]. *)
Definition split_score (item : entry) : option Z :=
  if has_colon item.1 then None else Some item.2.

(** The scan for [insert_before]: the first item with
    [new_score >= int(score)]. *)
Fixpoint find_insert_before (new_score : Z) (top : list entry)
    : result (option entry) :=
  match top with
  | [] => Ok None
  | item :: rest =>
      match split_score item with
      | None => Raise ValueError
      | Some score =>
          if (new_score >=? score) then Ok (Some item)
          else find_insert_before new_score rest
      end
  end.

(** The first [pipe.execute()] commits the [LREM]; when the scan raises the
    second batch is never sent. *)
Definition update_top_list (top : list entry) (pid : string) (new_score : Z)
    : result unit * list entry :=
  let old_tuple := (pid, new_score - 1) in
  let new_tuple := (pid, new_score) in
  let top := lrem old_tuple top in
  match find_insert_before new_score top with
  | Ok None => (Ok tt, ltrim 9 (rpush top new_tuple))
  | Ok (Some insert_before) =>
      (Ok tt, ltrim 9 (linsert_before insert_before new_tuple top))
  | Raise e => (Raise e, top)
  | Beyond b => (Beyond b, top)
  end.

(** One leaderboard update as [__update_player_keys] makes it: increment the
    counter, then call [__update_top_list] with the new value. *)
Abbreviation board := (gmap string Z * list entry)%type.

Definition bump (b : board) (pid : string) : result unit * board :=
  let '(n, counters) := incr pid b.1 in
  let '(r, top) := update_top_list b.2 pid n in
  (r, (counters, top)).

(** A run of updates; the first call that raises ends it. *)
Fixpoint bump_all (b : board) (pids : list string) : result unit * board :=
  match pids with
  | [] => (Ok tt, b)
  | pid :: rest =>
      match bump b pid with
      | (Ok _, b') => bump_all b' rest
      | (r, b') => (r, b')
      end
  end.

Definition desc : relation entry := λ e1 e2, e2.2 ≤ e1.2.

(** What the claims about the leaderboard say of a board. *)
Definition listed (pid : string) (top : list entry) : Prop := pid ∈ top.*1.

Record top_list_ok (b : board) : Prop := {
  top_sorted : StronglySorted desc b.2;
  top_capped : (length b.2 ≤ 10)%nat;
  top_once : NoDup b.2.*1;
  top_current : ∀ pid score, (pid, score) ∈ b.2 → b.1 !! pid = Some score;
  top_complete : ∀ pid score, b.1 !! pid = Some score → ¬ listed pid b.2 →
    length b.2 = 10%nat ∧ ∀ e, e ∈ b.2 → score ≤ e.2;
}.

(** The tie rule as the specification words it: an entry that was in the
    list with the new score stays ahead of the new entry. *)
Definition earlier_ties_stay_ahead
    (top : list entry) (pid : string) (new_score : Z) : Prop :=
  ∀ top' i j e,
    update_top_list top pid new_score = (Ok tt, top') →
    e ∈ top → e.2 = new_score →
    top' !! i = Some e → top' !! j = Some (pid, new_score) → (i < j)%nat.

(** ** Extremal trackers: [__update_least_common_seqs],
    [__find_least_common_seqs], [__update_most_common_seqs] *)

(** The count key and the Set key of one tracker.  A Redis Set with no
    member does not exist, which is [∅] here. *)
Abbreviation tracker := (option Z * gset string)%type.

(** The rescan, over the [(seq, cnt)] pairs that
    [scan_iter("global:seq:*:count")] yields, in the order it yields them. *)
Definition find_least_common_step (acc : option Z * list string)
    (key : string * Z) : option Z * list string :=
  let '(min_count, min_seqs) := acc in
  let '(seq, cnt) := key in
  if bool_decide (cnt ≠ 0) &&
     match min_count with None => true | Some m => cnt <? m end
  then (Some cnt, [seq])
  else if bool_decide (Some cnt = min_count) then (min_count, min_seqs ++ [seq])
  else (min_count, min_seqs).

Definition find_least_common_seqs (keys : list (string * Z))
    : option Z * list string :=
  foldl find_least_common_step (None, []) keys.

(** [counts] is the family ["global:seq:{seq}:count"], already incremented
    for [three_move_sequence].  In the rescan branch the count key is set to
    [new_min_count]; the branch is taken only with [new_min_seqs] non-empty,
    and then [new_min_count] is an integer ([find_least_some] below). *)
Definition update_least_common_seqs (counts : gmap string Z) (t : tracker)
    (three_move_sequence : string) (new_count : Z) : tracker :=
  match t.1 with
  | None => (Some new_count, {[three_move_sequence]})
  | Some least_count =>
      if new_count <? least_count then (Some new_count, {[three_move_sequence]})
      else if new_count =? least_count then (t.1, {[three_move_sequence]} ∪ t.2)
      else if (new_count >? least_count) &&
              bool_decide (three_move_sequence ∈ t.2) then
        let rest := t.2 ∖ {[three_move_sequence]} in
        let remaining := size rest in
        if bool_decide (remaining = 0%nat) then
          let '(new_min_count, new_min_seqs) :=
            find_least_common_seqs (map_to_list counts) in
          match new_min_seqs with
          | [] => (t.1, rest)
          | _ :: _ => (new_min_count, list_to_set new_min_seqs)
          end
        else (t.1, rest)
      else t
  end.

Definition update_most_common_seqs (t : tracker)
    (three_move_sequence : string) (new_count : Z) : tracker :=
  match t.1 with
  | None => (Some new_count, {[three_move_sequence]})
  | Some most_count =>
      if new_count >? most_count then (Some new_count, {[three_move_sequence]})
      else if new_count =? most_count then (t.1, {[three_move_sequence]} ∪ t.2)
      else t
  end.

(** One pass of the loop of [__update_common_seqs], on the least tracker:
    [INCR] the counter, then observe the new count. *)
Definition observe_least (st : gmap string Z * tracker) (seq : string)
    : gmap string Z * tracker :=
  let '(new_count, counts) := incr seq st.1 in
  (counts, update_least_common_seqs counts st.2 seq new_count).

(** The extremal-set invariant, for the least polarity. *)
Record least_ok (st : gmap string Z * tracker) : Prop := {
  least_positive : ∀ seq cnt, st.1 !! seq = Some cnt → 1 ≤ cnt;
  least_fresh : st.1 = ∅ → st.2 = (None, ∅);
  least_count_min : ∀ seq cnt, st.1 !! seq = Some cnt →
    ∃ m, st.2.1 = Some m ∧ m ≤ cnt;
  least_set_exact : ∀ seq m, st.2.1 = Some m →
    (seq ∈ st.2.2 ↔ st.1 !! seq = Some m);
  least_attained : ∀ m, st.2.1 = Some m → ∃ seq, st.1 !! seq = Some m;
}.

(** ** Clustering: [__new_fid], [__update_friend_groups] *)

(** The two key families of the friend groups:
    ["player:{pid}:friend_group"] and ["global:friend_group:{fid}"].  A
    [fid] is the 128-bit value of the UUID; its [.hex] rendering is never
    the empty string, so a [fid] read back from Redis is truthy exactly
    when it is not [None]. *)
Record friends : Type := MkFriends {
  group_of : gmap string fid;
  groups : gmap fid (gset string);
}.

(** [redis_client.exists(key)] for a Set key. *)
Definition exists_set `{Countable K} `{Countable V}
    (k : K) (m : gmap K (gset V)) : bool :=
  bool_decide (smembers k m ≠ ∅).

(** [draws] are the values [uuid.uuid4()] returns, in order. *)
Fixpoint new_fid (draws : list fid) (g : gmap fid (gset string))
    : option fid :=
  match draws with
  | [] => None
  | fid :: rest => if negb (exists_set fid g) then Some fid else new_fid rest g
  end.

Definition repoint (big : fid) (members : gset string)
    (ptr : gmap string fid) : gmap string fid :=
  foldr (λ m acc, <[m := big]> acc) ptr (elements members).

(** Lines 128-135 of [__update_friend_groups]: the members of [small] are
    added to [big], each of them is pointed at [big], and the Set of [small]
    is deleted; nothing is sent when [small] has no member. *)
Definition merge_groups (f : friends) (big small : fid) : friends :=
  let members := smembers small (groups f) in
  if bool_decide (members ≠ ∅) then
    {| groups :=
         delete small
           (<[big := members ∪ smembers big (groups f)]> (groups f));
       group_of := repoint big members (group_of f) |}
  else f.

Definition update_friend_groups (draws : list fid) (f : friends)
    (pid1 pid2 : string) : result unit * friends :=
  let fid1 := group_of f !! pid1 in
  let fid2 := group_of f !! pid2 in
  match fid1, fid2 with
  | None, None =>
      match new_fid draws (groups f) with
      | None => (Beyond DrawsExhausted, f)
      | Some gid =>
          (Ok tt,
           {| groups := sadd gid pid2 (sadd gid pid1 (groups f));
              group_of := <[pid2 := gid]> (<[pid1 := gid]> (group_of f)) |})
      end
  | Some gid, None =>
      let newcomer := pid2 in
      (Ok tt, {| groups := sadd gid newcomer (groups f);
                 group_of := <[newcomer := gid]> (group_of f) |})
  | None, Some gid =>
      let newcomer := pid1 in
      (Ok tt, {| groups := sadd gid newcomer (groups f);
                 group_of := <[newcomer := gid]> (group_of f) |})
  | Some fid1, Some fid2 =>
      if decide (fid1 = fid2) then (Ok tt, f)
      else
        let size1 := size (smembers fid1 (groups f)) in
        let size2 := size (smembers fid2 (groups f)) in
        let '(big, small) :=
          if bool_decide (size2 ≤ size1)%nat then (fid1, fid2) else (fid2, fid1) in
        (Ok tt, merge_groups f big small)
  end.

(** A run of links, each with the draws its call consumes. *)
Abbreviation link := (list fid * (string * string))%type.

Fixpoint link_all (f : friends) (links : list link) : result unit * friends :=
  match links with
  | [] => (Ok tt, f)
  | (draws, (pid1, pid2)) :: rest =>
      match update_friend_groups draws f pid1 pid2 with
      | (Ok _, f') => link_all f' rest
      | (r, f') => (r, f')
      end
  end.

Definition no_friends : friends := {| group_of := ∅; groups := ∅ |}.

Definition same_group (f : friends) (a b : string) : Prop :=
  ∃ g, group_of f !! a = Some g ∧ group_of f !! b = Some g.

(** One recorded game between [a] and [b], in either colour. *)
Definition played (links : list link) (a b : string) : Prop :=
  ∃ draws, (draws, (a, b)) ∈ links ∨ (draws, (b, a)) ∈ links.

(** A chain of recorded games from [a] to [b]. *)
Definition chain (links : list link) : relation string := tc (played links).

(** Pointers and member sets agree. *)
Record friends_ok (f : friends) : Prop := {
  pointer_member : ∀ pid g, group_of f !! pid = Some g →
    pid ∈ smembers g (groups f);
  member_pointer : ∀ pid g, pid ∈ smembers g (groups f) →
    group_of f !! pid = Some g;
}.

(** ** Movesets: [__parse_moveset], [__find_all_three_move_sequences],
    [__find_number_of_checks] *)

(** [json.loads] on the fragment the data set uses.  The verdicts given are
    those of the library: [JsonList] for an array of string literals free of
    escapes, [JsonDecodeFails] where the decoder raises [JSONDecodeError];
    every other document is [JsonOther], on which the embedding is silent. *)
Inductive json_outcome : Type :=
  | JsonList (l : list string)
  | JsonDecodeFails
  | JsonOther.

Definition code (c : ascii) : Z := Z.of_N (N_of_ascii c).

(** Space, tab, line feed, carriage return. *)
Definition is_ws (c : ascii) : bool :=
  (code c =? 32) || (code c =? 9) || (code c =? 10) || (code c =? 13).

Fixpoint skip_ws (l : list ascii) : list ascii :=
  match l with
  | c :: l' => if is_ws c then skip_ws l' else l
  | [] => []
  end.

(** The characters a JSON value can start with: the double quote (34),
    [{], [[], [n], [t], [f], [N], [I], [-] and the digits. *)
Definition starts_value (c : ascii) : bool :=
  (code c =? 34) || (code c =? 123) || (code c =? 91) || (code c =? 110) ||
  (code c =? 116) || (code c =? 102) || (code c =? 78) || (code c =? 73) ||
  (code c =? 45) || ((48 <=? code c) && (code c <=? 57)).

Inductive jstate : Type :=
  | AfterOpen
  | InLiteral (acc : list ascii)
  | AfterItem
  | AfterComma
  | AfterClose.

(** The array decoder past the opening bracket.  93 is the closing
    bracket, 44 the comma, 92 the backslash; a character below 32 inside a
    literal is an invalid control character, input left after the closing
    bracket is extra data, and where an item is due (after the opening
    bracket or a comma) a character that starts no JSON value is refused,
    the closing bracket after a comma included. *)
Fixpoint json_array (st : jstate) (items : list string) (l : list ascii)
    : json_outcome :=
  match l with
  | [] =>
      match st with
      | AfterClose => JsonList (rev items)
      | _ => JsonDecodeFails
      end
  | c :: l' =>
      match st with
      | AfterOpen =>
          if is_ws c then json_array AfterOpen items l'
          else if code c =? 93 then json_array AfterClose items l'
          else if code c =? 34 then json_array (InLiteral []) items l'
          else if starts_value c then JsonOther else JsonDecodeFails
      | InLiteral acc =>
          if code c =? 34
          then json_array AfterItem (string_of_list_ascii (rev acc) :: items) l'
          else if code c =? 92 then JsonOther
          else if code c <? 32 then JsonDecodeFails
          else json_array (InLiteral (c :: acc)) items l'
      | AfterItem =>
          if is_ws c then json_array AfterItem items l'
          else if code c =? 93 then json_array AfterClose items l'
          else if code c =? 44 then json_array AfterComma items l'
          else JsonDecodeFails
      | AfterComma =>
          if is_ws c then json_array AfterComma items l'
          else if code c =? 34 then json_array (InLiteral []) items l'
          else if starts_value c then JsonOther else JsonDecodeFails
      | AfterClose =>
          if is_ws c then json_array AfterClose items l' else JsonDecodeFails
      end
  end.

Definition json_loads (s : string) : json_outcome :=
  match skip_ws (list_ascii_of_string s) with
  | [] => JsonDecodeFails
  | c :: l' =>
      if negb (starts_value c) then JsonDecodeFails
      else if code c =? 91 then json_array AfterOpen [] l'
      else JsonOther
  end.

(** The [moveset.replace] call of [__parse_moveset]: every apostrophe
    (39) becomes a double quote (34). *)
Fixpoint replace_apostrophes (s : string) : string :=
  match s with
  | EmptyString => EmptyString
  | String c s' =>
      String (if code c =? 39 then ascii_of_N 34 else c) (replace_apostrophes s')
  end.

(** [Union[str, List[str]]] *)
Inductive moveset_t : Type :=
  | MovesetList (moves : list string)
  | MovesetStr (text : string).

Definition parse_moveset (moveset : moveset_t) : result (list string) :=
  match moveset with
  | MovesetList moves => Ok moves
  | MovesetStr text =>
      match json_loads (replace_apostrophes text) with
      | JsonList moves => Ok moves
      | JsonDecodeFails => Raise JSONDecodeError
      | JsonOther => Beyond JsonOutsideFragment
      end
  end.

(** [l[lo:hi]] for indices that are not negative. *)
Definition slice {A} (l : list A) (lo hi : nat) : list A :=
  take (hi - lo) (drop lo l).

(** [sep.join(l)] *)
Fixpoint join (sep : string) (l : list string) : string :=
  match l with
  | [] => EmptyString
  | [x] => x
  | x :: rest => x +:+ sep +:+ join sep rest
  end.

Definition find_all_three_move_sequences (moves : list string) : list string :=
  (λ i, join "," (slice moves (i - 2) (i + 1))) <$> seq 2 (length moves - 2).

Definition find_number_of_checks (moves : list string) : Z :=
  foldl (λ number_of_checks move,
           if str_contains "+"%char move then number_of_checks + 1
           else number_of_checks) 0 moves.

(** ** [number_of_turns] and [int] *)

(** [Union[str, int]]: the loaders hand in the text of the csv cell, a
    caller of the API may hand in an [int]. *)
Inductive turns_t : Type :=
  | TurnsInt (n : Z)
  | TurnsStr (text : string).

Coercion TurnsInt : Z >-> turns_t.

(** [int(text)] on the texts the embedding decides: [IntValue] for one to
    4300 ASCII digits (the length up to which every version of Python
    converts), [IntFails] where [int] raises [ValueError], which it does on
    the empty text and on every text with an ASCII character that no integer
    literal holds.  Signs, underscores, white space and characters beyond
    ASCII (other scripts have digits and spaces of their own) can be part of
    a literal; a text with one of them, and nothing that [int] is sure to
    refuse, is [IntOther]. *)
Inductive int_outcome : Type :=
  | IntValue (n : Z)
  | IntFails
  | IntOther.

Definition is_digit (c : ascii) : bool := (48 <=? code c) && (code c <=? 57).

(** The digits, [+] (43), [-] (45), [_] (95), the ASCII white space of
    [str.isspace] (9 to 13 and 28 to 32), and what is beyond ASCII. *)
Definition may_be_in_int (c : ascii) : bool :=
  is_digit c || (code c =? 43) || (code c =? 45) || (code c =? 95) ||
  ((9 <=? code c) && (code c <=? 13)) || ((28 <=? code c) && (code c <=? 32)) ||
  (128 <=? code c).

Definition digits_value (digits : list ascii) : Z :=
  foldl (λ acc c, 10 * acc + (code c - 48)) 0 digits.

Definition py_int (text : string) : int_outcome :=
  let chars := list_ascii_of_string text in
  match chars with
  | [] => IntFails
  | _ :: _ =>
      if forallb is_digit chars then
        if (length chars <=? 4300)%nat then IntValue (digits_value chars)
        else IntOther
      else if forallb may_be_in_int chars then IntOther
      else IntFails
  end.

(** [int(x)] for a [number_of_turns] as the record has it, and as [GET]
    hands it back: the store keeps the value it was given, where Redis holds
    the decimal numeral of an [int], on which [int] gives the [int] back. *)
Definition int_of (x : turns_t) : int_outcome :=
  match x with
  | TurnsInt n => IntValue n
  | TurnsStr text => py_int text
  end.

(** The truth value of a reply of [GET]: a text is falsy when it is empty,
    and a numeral is never empty. *)
Definition truthy (x : turns_t) : bool :=
  match x with
  | TurnsInt _ => true
  | TurnsStr text => negb (bool_decide (text = EmptyString))
  end.

(** ** The store: one field per key template of [keys.py] *)

(** The templates with two parameters, as [.format] fills them.  The keys
    of [PLAYER_OPENING_COUNT] and of [PLAYER_MOST_FREQ_OPENING_COUNT] are the
    field [PLAYER_COUNT_KEYS] of the store, the keys of
    [PLAYER_SCHEDULED_GAME_OPPONENT] the field [PLAYER_OPPONENT_KEYS], each
    with its time to live. *)
Definition PLAYER_OPENING_COUNT (pid eco : string) : string :=
  "player:" +:+ pid +:+ ":openings:" +:+ eco +:+ ":count".

Definition PLAYER_MOST_FREQ_OPENING_COUNT (pid : string) : string :=
  "player:" +:+ pid +:+ ":most_freq_opening:count".

Definition PLAYER_SCHEDULED_GAME_OPPONENT (pid gid : string) : string :=
  "player:" +:+ pid +:+ ":scheduled_games:" +:+ gid +:+ ":opponent".

Record PlayerKeys : Type := MkPlayerKeys {
  PLAYER_EMAIL : gmap string string;
  PLAYER_WINS : gmap string Z;
  PLAYER_LOSSES : gmap string Z;
  PLAYER_DRAWS : gmap string Z;
  PLAYER_GAMES_LIST : gmap string (list string);
  PLAYER_GAMES_SET : gmap string (gset string);
  PLAYER_OPPONENTS : gmap string (gset string);
  PLAYER_COUNT_KEYS : gmap string Z;
  PLAYER_MOST_FREQ_OPENING : gmap string string;
  PLAYER_FRIEND_GROUP : gmap string fid;
  PLAYER_SCHEDULED_GAMES : gmap string (list string);
  PLAYER_OPPONENT_KEYS : gmap string (string * option Z);
}.

Record GameKeys : Type := MkGameKeys {
  GAME_WINNER : gmap string string;
  GAME_VICTORY_STATUS : gmap string string;
  GAME_TURNS : gmap string turns_t;
  GAME_CHECKS : gmap string Z;
  GAME_WHITE_PLAYER : gmap string string;
  GAME_BLACK_PLAYER : gmap string string;
  GAME_OPENING_ECO : gmap string string;
  GAME_MOVES : gmap string (list string);
}.

Record GlobalKeys : Type := MkGlobalKeys {
  GLOBAL_PLAYERS_EMAILS : gset string;
  GLOBAL_PLAYERS_IDS : gset string;
  GLOBAL_GAMES_IDS : gset string;
  GLOBAL_FRIEND_GROUP : gmap fid (gset string);
  GLOBAL_SEQ_GAMES : gmap string (gset string);
  GLOBAL_SEQ_COUNT : gmap string Z;
  GLOBAL_OPENING_COUNT : gmap string Z;
}.

Record AnalyticsKeys : Type := MkAnalyticsKeys {
  ANALYTICS_TOP_WINS : list entry;
  ANALYTICS_TOP_LOSSES : list entry;
  ANALYTICS_MOST_FREQ_OPENING : option string;
  ANALYTICS_MOST_FREQ_OPENING_COUNT : option Z;
  ANALYTICS_SHORTEST_GAME : option string;
  ANALYTICS_SHORTEST_GAME_TURNS : option turns_t;
  ANALYTICS_LEAST_COMMON_SEQS : gset string;
  ANALYTICS_LEAST_COMMON_SEQ_COUNT : option Z;
  ANALYTICS_MOST_COMMON_SEQS : gset string;
  ANALYTICS_MOST_COMMON_SEQ_COUNT : option Z;
}.

Record Store : Type := MkStore {
  player : PlayerKeys;
  game : GameKeys;
  global : GlobalKeys;
  analytics : AnalyticsKeys;
}.

(** Field updates: [on_X f s] rewrites key family [X] with [f] and keeps
    every other key. *)
Definition on_PLAYER_EMAIL (f : gmap string string → gmap string string) (s : Store) : Store :=
  MkStore (let k := player s in MkPlayerKeys (f (PLAYER_EMAIL k)) (PLAYER_WINS
    k) (PLAYER_LOSSES k) (PLAYER_DRAWS k) (PLAYER_GAMES_LIST k)
    (PLAYER_GAMES_SET k) (PLAYER_OPPONENTS k) (PLAYER_COUNT_KEYS k)
    (PLAYER_MOST_FREQ_OPENING k) (PLAYER_FRIEND_GROUP k)
    (PLAYER_SCHEDULED_GAMES k) (PLAYER_OPPONENT_KEYS k)) (game s) (global s)
    (analytics s).
Definition on_PLAYER_WINS (f : gmap string Z → gmap string Z) (s : Store) : Store :=
  MkStore (let k := player s in MkPlayerKeys (PLAYER_EMAIL k) (f (PLAYER_WINS
    k)) (PLAYER_LOSSES k) (PLAYER_DRAWS k) (PLAYER_GAMES_LIST k)
    (PLAYER_GAMES_SET k) (PLAYER_OPPONENTS k) (PLAYER_COUNT_KEYS k)
    (PLAYER_MOST_FREQ_OPENING k) (PLAYER_FRIEND_GROUP k)
    (PLAYER_SCHEDULED_GAMES k) (PLAYER_OPPONENT_KEYS k)) (game s) (global s)
    (analytics s).
Definition on_PLAYER_LOSSES (f : gmap string Z → gmap string Z) (s : Store) : Store :=
  MkStore (let k := player s in MkPlayerKeys (PLAYER_EMAIL k) (PLAYER_WINS k)
    (f (PLAYER_LOSSES k)) (PLAYER_DRAWS k) (PLAYER_GAMES_LIST k)
    (PLAYER_GAMES_SET k) (PLAYER_OPPONENTS k) (PLAYER_COUNT_KEYS k)
    (PLAYER_MOST_FREQ_OPENING k) (PLAYER_FRIEND_GROUP k)
    (PLAYER_SCHEDULED_GAMES k) (PLAYER_OPPONENT_KEYS k)) (game s) (global s)
    (analytics s).
Definition on_PLAYER_DRAWS (f : gmap string Z → gmap string Z) (s : Store) : Store :=
  MkStore (let k := player s in MkPlayerKeys (PLAYER_EMAIL k) (PLAYER_WINS k)
    (PLAYER_LOSSES k) (f (PLAYER_DRAWS k)) (PLAYER_GAMES_LIST k)
    (PLAYER_GAMES_SET k) (PLAYER_OPPONENTS k) (PLAYER_COUNT_KEYS k)
    (PLAYER_MOST_FREQ_OPENING k) (PLAYER_FRIEND_GROUP k)
    (PLAYER_SCHEDULED_GAMES k) (PLAYER_OPPONENT_KEYS k)) (game s) (global s)
    (analytics s).
Definition on_PLAYER_GAMES_LIST (f : gmap string (list string) → gmap string (list string)) (s : Store) : Store :=
  MkStore (let k := player s in MkPlayerKeys (PLAYER_EMAIL k) (PLAYER_WINS k)
    (PLAYER_LOSSES k) (PLAYER_DRAWS k) (f (PLAYER_GAMES_LIST k))
    (PLAYER_GAMES_SET k) (PLAYER_OPPONENTS k) (PLAYER_COUNT_KEYS k)
    (PLAYER_MOST_FREQ_OPENING k) (PLAYER_FRIEND_GROUP k)
    (PLAYER_SCHEDULED_GAMES k) (PLAYER_OPPONENT_KEYS k)) (game s) (global s)
    (analytics s).
Definition on_PLAYER_GAMES_SET (f : gmap string (gset string) → gmap string (gset string)) (s : Store) : Store :=
  MkStore (let k := player s in MkPlayerKeys (PLAYER_EMAIL k) (PLAYER_WINS k)
    (PLAYER_LOSSES k) (PLAYER_DRAWS k) (PLAYER_GAMES_LIST k) (f
    (PLAYER_GAMES_SET k)) (PLAYER_OPPONENTS k) (PLAYER_COUNT_KEYS k)
    (PLAYER_MOST_FREQ_OPENING k) (PLAYER_FRIEND_GROUP k)
    (PLAYER_SCHEDULED_GAMES k) (PLAYER_OPPONENT_KEYS k)) (game s) (global s)
    (analytics s).
Definition on_PLAYER_OPPONENTS (f : gmap string (gset string) → gmap string (gset string)) (s : Store) : Store :=
  MkStore (let k := player s in MkPlayerKeys (PLAYER_EMAIL k) (PLAYER_WINS k)
    (PLAYER_LOSSES k) (PLAYER_DRAWS k) (PLAYER_GAMES_LIST k) (PLAYER_GAMES_SET
    k) (f (PLAYER_OPPONENTS k)) (PLAYER_COUNT_KEYS k)
    (PLAYER_MOST_FREQ_OPENING k) (PLAYER_FRIEND_GROUP k)
    (PLAYER_SCHEDULED_GAMES k) (PLAYER_OPPONENT_KEYS k)) (game s) (global s)
    (analytics s).
Definition on_PLAYER_COUNT_KEYS (f : gmap string Z → gmap string Z) (s : Store) : Store :=
  MkStore (let k := player s in MkPlayerKeys (PLAYER_EMAIL k) (PLAYER_WINS k)
    (PLAYER_LOSSES k) (PLAYER_DRAWS k) (PLAYER_GAMES_LIST k) (PLAYER_GAMES_SET
    k) (PLAYER_OPPONENTS k) (f (PLAYER_COUNT_KEYS k))
    (PLAYER_MOST_FREQ_OPENING k) (PLAYER_FRIEND_GROUP k)
    (PLAYER_SCHEDULED_GAMES k) (PLAYER_OPPONENT_KEYS k)) (game s) (global s)
    (analytics s).
Definition on_PLAYER_MOST_FREQ_OPENING (f : gmap string string → gmap string string) (s : Store) : Store :=
  MkStore (let k := player s in MkPlayerKeys (PLAYER_EMAIL k) (PLAYER_WINS k)
    (PLAYER_LOSSES k) (PLAYER_DRAWS k) (PLAYER_GAMES_LIST k) (PLAYER_GAMES_SET
    k) (PLAYER_OPPONENTS k) (PLAYER_COUNT_KEYS k) (f (PLAYER_MOST_FREQ_OPENING
    k)) (PLAYER_FRIEND_GROUP k) (PLAYER_SCHEDULED_GAMES k)
    (PLAYER_OPPONENT_KEYS k)) (game s) (global s) (analytics s).
Definition on_PLAYER_FRIEND_GROUP (f : gmap string fid → gmap string fid) (s : Store) : Store :=
  MkStore (let k := player s in MkPlayerKeys (PLAYER_EMAIL k) (PLAYER_WINS k)
    (PLAYER_LOSSES k) (PLAYER_DRAWS k) (PLAYER_GAMES_LIST k) (PLAYER_GAMES_SET
    k) (PLAYER_OPPONENTS k) (PLAYER_COUNT_KEYS k) (PLAYER_MOST_FREQ_OPENING k)
    (f (PLAYER_FRIEND_GROUP k)) (PLAYER_SCHEDULED_GAMES k)
    (PLAYER_OPPONENT_KEYS k)) (game s) (global s) (analytics s).
Definition on_PLAYER_SCHEDULED_GAMES (f : gmap string (list string) → gmap string (list string)) (s : Store) : Store :=
  MkStore (let k := player s in MkPlayerKeys (PLAYER_EMAIL k) (PLAYER_WINS k)
    (PLAYER_LOSSES k) (PLAYER_DRAWS k) (PLAYER_GAMES_LIST k) (PLAYER_GAMES_SET
    k) (PLAYER_OPPONENTS k) (PLAYER_COUNT_KEYS k) (PLAYER_MOST_FREQ_OPENING k)
    (PLAYER_FRIEND_GROUP k) (f (PLAYER_SCHEDULED_GAMES k))
    (PLAYER_OPPONENT_KEYS k)) (game s) (global s) (analytics s).
Definition on_PLAYER_OPPONENT_KEYS (f : gmap string (string * option Z) → gmap string (string * option Z)) (s : Store) : Store :=
  MkStore (let k := player s in MkPlayerKeys (PLAYER_EMAIL k) (PLAYER_WINS k)
    (PLAYER_LOSSES k) (PLAYER_DRAWS k) (PLAYER_GAMES_LIST k) (PLAYER_GAMES_SET
    k) (PLAYER_OPPONENTS k) (PLAYER_COUNT_KEYS k) (PLAYER_MOST_FREQ_OPENING k)
    (PLAYER_FRIEND_GROUP k) (PLAYER_SCHEDULED_GAMES k) (f
    (PLAYER_OPPONENT_KEYS k))) (game s) (global s) (analytics s).

Definition on_GAME_WINNER (f : gmap string string → gmap string string) (s : Store) : Store :=
  MkStore (player s) (let k := game s in MkGameKeys (f (GAME_WINNER k))
    (GAME_VICTORY_STATUS k) (GAME_TURNS k) (GAME_CHECKS k) (GAME_WHITE_PLAYER
    k) (GAME_BLACK_PLAYER k) (GAME_OPENING_ECO k) (GAME_MOVES k)) (global s)
    (analytics s).
Definition on_GAME_VICTORY_STATUS (f : gmap string string → gmap string string) (s : Store) : Store :=
  MkStore (player s) (let k := game s in MkGameKeys (GAME_WINNER k) (f
    (GAME_VICTORY_STATUS k)) (GAME_TURNS k) (GAME_CHECKS k) (GAME_WHITE_PLAYER
    k) (GAME_BLACK_PLAYER k) (GAME_OPENING_ECO k) (GAME_MOVES k)) (global s)
    (analytics s).
Definition on_GAME_TURNS (f : gmap string turns_t → gmap string turns_t) (s : Store) : Store :=
  MkStore (player s) (let k := game s in MkGameKeys (GAME_WINNER k)
    (GAME_VICTORY_STATUS k) (f (GAME_TURNS k)) (GAME_CHECKS k)
    (GAME_WHITE_PLAYER k) (GAME_BLACK_PLAYER k) (GAME_OPENING_ECO k)
    (GAME_MOVES k)) (global s) (analytics s).
Definition on_GAME_CHECKS (f : gmap string Z → gmap string Z) (s : Store) : Store :=
  MkStore (player s) (let k := game s in MkGameKeys (GAME_WINNER k)
    (GAME_VICTORY_STATUS k) (GAME_TURNS k) (f (GAME_CHECKS k))
    (GAME_WHITE_PLAYER k) (GAME_BLACK_PLAYER k) (GAME_OPENING_ECO k)
    (GAME_MOVES k)) (global s) (analytics s).
Definition on_GAME_WHITE_PLAYER (f : gmap string string → gmap string string) (s : Store) : Store :=
  MkStore (player s) (let k := game s in MkGameKeys (GAME_WINNER k)
    (GAME_VICTORY_STATUS k) (GAME_TURNS k) (GAME_CHECKS k) (f
    (GAME_WHITE_PLAYER k)) (GAME_BLACK_PLAYER k) (GAME_OPENING_ECO k)
    (GAME_MOVES k)) (global s) (analytics s).
Definition on_GAME_BLACK_PLAYER (f : gmap string string → gmap string string) (s : Store) : Store :=
  MkStore (player s) (let k := game s in MkGameKeys (GAME_WINNER k)
    (GAME_VICTORY_STATUS k) (GAME_TURNS k) (GAME_CHECKS k) (GAME_WHITE_PLAYER
    k) (f (GAME_BLACK_PLAYER k)) (GAME_OPENING_ECO k) (GAME_MOVES k)) (global
    s) (analytics s).
Definition on_GAME_OPENING_ECO (f : gmap string string → gmap string string) (s : Store) : Store :=
  MkStore (player s) (let k := game s in MkGameKeys (GAME_WINNER k)
    (GAME_VICTORY_STATUS k) (GAME_TURNS k) (GAME_CHECKS k) (GAME_WHITE_PLAYER
    k) (GAME_BLACK_PLAYER k) (f (GAME_OPENING_ECO k)) (GAME_MOVES k)) (global
    s) (analytics s).
Definition on_GAME_MOVES (f : gmap string (list string) → gmap string (list string)) (s : Store) : Store :=
  MkStore (player s) (let k := game s in MkGameKeys (GAME_WINNER k)
    (GAME_VICTORY_STATUS k) (GAME_TURNS k) (GAME_CHECKS k) (GAME_WHITE_PLAYER
    k) (GAME_BLACK_PLAYER k) (GAME_OPENING_ECO k) (f (GAME_MOVES k))) (global
    s) (analytics s).

Definition on_GLOBAL_PLAYERS_EMAILS (f : gset string → gset string) (s : Store) : Store :=
  MkStore (player s) (game s) (let k := global s in MkGlobalKeys (f
    (GLOBAL_PLAYERS_EMAILS k)) (GLOBAL_PLAYERS_IDS k) (GLOBAL_GAMES_IDS k)
    (GLOBAL_FRIEND_GROUP k) (GLOBAL_SEQ_GAMES k) (GLOBAL_SEQ_COUNT k)
    (GLOBAL_OPENING_COUNT k)) (analytics s).
Definition on_GLOBAL_PLAYERS_IDS (f : gset string → gset string) (s : Store) : Store :=
  MkStore (player s) (game s) (let k := global s in MkGlobalKeys
    (GLOBAL_PLAYERS_EMAILS k) (f (GLOBAL_PLAYERS_IDS k)) (GLOBAL_GAMES_IDS k)
    (GLOBAL_FRIEND_GROUP k) (GLOBAL_SEQ_GAMES k) (GLOBAL_SEQ_COUNT k)
    (GLOBAL_OPENING_COUNT k)) (analytics s).
Definition on_GLOBAL_GAMES_IDS (f : gset string → gset string) (s : Store) : Store :=
  MkStore (player s) (game s) (let k := global s in MkGlobalKeys
    (GLOBAL_PLAYERS_EMAILS k) (GLOBAL_PLAYERS_IDS k) (f (GLOBAL_GAMES_IDS k))
    (GLOBAL_FRIEND_GROUP k) (GLOBAL_SEQ_GAMES k) (GLOBAL_SEQ_COUNT k)
    (GLOBAL_OPENING_COUNT k)) (analytics s).
Definition on_GLOBAL_FRIEND_GROUP (f : gmap fid (gset string) → gmap fid (gset string)) (s : Store) : Store :=
  MkStore (player s) (game s) (let k := global s in MkGlobalKeys
    (GLOBAL_PLAYERS_EMAILS k) (GLOBAL_PLAYERS_IDS k) (GLOBAL_GAMES_IDS k) (f
    (GLOBAL_FRIEND_GROUP k)) (GLOBAL_SEQ_GAMES k) (GLOBAL_SEQ_COUNT k)
    (GLOBAL_OPENING_COUNT k)) (analytics s).
Definition on_GLOBAL_SEQ_GAMES (f : gmap string (gset string) → gmap string (gset string)) (s : Store) : Store :=
  MkStore (player s) (game s) (let k := global s in MkGlobalKeys
    (GLOBAL_PLAYERS_EMAILS k) (GLOBAL_PLAYERS_IDS k) (GLOBAL_GAMES_IDS k)
    (GLOBAL_FRIEND_GROUP k) (f (GLOBAL_SEQ_GAMES k)) (GLOBAL_SEQ_COUNT k)
    (GLOBAL_OPENING_COUNT k)) (analytics s).
Definition on_GLOBAL_SEQ_COUNT (f : gmap string Z → gmap string Z) (s : Store) : Store :=
  MkStore (player s) (game s) (let k := global s in MkGlobalKeys
    (GLOBAL_PLAYERS_EMAILS k) (GLOBAL_PLAYERS_IDS k) (GLOBAL_GAMES_IDS k)
    (GLOBAL_FRIEND_GROUP k) (GLOBAL_SEQ_GAMES k) (f (GLOBAL_SEQ_COUNT k))
    (GLOBAL_OPENING_COUNT k)) (analytics s).
Definition on_GLOBAL_OPENING_COUNT (f : gmap string Z → gmap string Z) (s : Store) : Store :=
  MkStore (player s) (game s) (let k := global s in MkGlobalKeys
    (GLOBAL_PLAYERS_EMAILS k) (GLOBAL_PLAYERS_IDS k) (GLOBAL_GAMES_IDS k)
    (GLOBAL_FRIEND_GROUP k) (GLOBAL_SEQ_GAMES k) (GLOBAL_SEQ_COUNT k) (f
    (GLOBAL_OPENING_COUNT k))) (analytics s).

Definition on_ANALYTICS_TOP_WINS (f : list entry → list entry) (s : Store) : Store :=
  MkStore (player s) (game s) (global s) (let k := analytics s in
    MkAnalyticsKeys (f (ANALYTICS_TOP_WINS k)) (ANALYTICS_TOP_LOSSES k)
    (ANALYTICS_MOST_FREQ_OPENING k) (ANALYTICS_MOST_FREQ_OPENING_COUNT k)
    (ANALYTICS_SHORTEST_GAME k) (ANALYTICS_SHORTEST_GAME_TURNS k)
    (ANALYTICS_LEAST_COMMON_SEQS k) (ANALYTICS_LEAST_COMMON_SEQ_COUNT k)
    (ANALYTICS_MOST_COMMON_SEQS k) (ANALYTICS_MOST_COMMON_SEQ_COUNT k)).
Definition on_ANALYTICS_TOP_LOSSES (f : list entry → list entry) (s : Store) : Store :=
  MkStore (player s) (game s) (global s) (let k := analytics s in
    MkAnalyticsKeys (ANALYTICS_TOP_WINS k) (f (ANALYTICS_TOP_LOSSES k))
    (ANALYTICS_MOST_FREQ_OPENING k) (ANALYTICS_MOST_FREQ_OPENING_COUNT k)
    (ANALYTICS_SHORTEST_GAME k) (ANALYTICS_SHORTEST_GAME_TURNS k)
    (ANALYTICS_LEAST_COMMON_SEQS k) (ANALYTICS_LEAST_COMMON_SEQ_COUNT k)
    (ANALYTICS_MOST_COMMON_SEQS k) (ANALYTICS_MOST_COMMON_SEQ_COUNT k)).
Definition on_ANALYTICS_MOST_FREQ_OPENING (f : option string → option string) (s : Store) : Store :=
  MkStore (player s) (game s) (global s) (let k := analytics s in
    MkAnalyticsKeys (ANALYTICS_TOP_WINS k) (ANALYTICS_TOP_LOSSES k) (f
    (ANALYTICS_MOST_FREQ_OPENING k)) (ANALYTICS_MOST_FREQ_OPENING_COUNT k)
    (ANALYTICS_SHORTEST_GAME k) (ANALYTICS_SHORTEST_GAME_TURNS k)
    (ANALYTICS_LEAST_COMMON_SEQS k) (ANALYTICS_LEAST_COMMON_SEQ_COUNT k)
    (ANALYTICS_MOST_COMMON_SEQS k) (ANALYTICS_MOST_COMMON_SEQ_COUNT k)).
Definition on_ANALYTICS_MOST_FREQ_OPENING_COUNT (f : option Z → option Z) (s : Store) : Store :=
  MkStore (player s) (game s) (global s) (let k := analytics s in
    MkAnalyticsKeys (ANALYTICS_TOP_WINS k) (ANALYTICS_TOP_LOSSES k)
    (ANALYTICS_MOST_FREQ_OPENING k) (f (ANALYTICS_MOST_FREQ_OPENING_COUNT k))
    (ANALYTICS_SHORTEST_GAME k) (ANALYTICS_SHORTEST_GAME_TURNS k)
    (ANALYTICS_LEAST_COMMON_SEQS k) (ANALYTICS_LEAST_COMMON_SEQ_COUNT k)
    (ANALYTICS_MOST_COMMON_SEQS k) (ANALYTICS_MOST_COMMON_SEQ_COUNT k)).
Definition on_ANALYTICS_SHORTEST_GAME (f : option string → option string) (s : Store) : Store :=
  MkStore (player s) (game s) (global s) (let k := analytics s in
    MkAnalyticsKeys (ANALYTICS_TOP_WINS k) (ANALYTICS_TOP_LOSSES k)
    (ANALYTICS_MOST_FREQ_OPENING k) (ANALYTICS_MOST_FREQ_OPENING_COUNT k) (f
    (ANALYTICS_SHORTEST_GAME k)) (ANALYTICS_SHORTEST_GAME_TURNS k)
    (ANALYTICS_LEAST_COMMON_SEQS k) (ANALYTICS_LEAST_COMMON_SEQ_COUNT k)
    (ANALYTICS_MOST_COMMON_SEQS k) (ANALYTICS_MOST_COMMON_SEQ_COUNT k)).
Definition on_ANALYTICS_SHORTEST_GAME_TURNS (f : option turns_t → option turns_t) (s : Store) : Store :=
  MkStore (player s) (game s) (global s) (let k := analytics s in
    MkAnalyticsKeys (ANALYTICS_TOP_WINS k) (ANALYTICS_TOP_LOSSES k)
    (ANALYTICS_MOST_FREQ_OPENING k) (ANALYTICS_MOST_FREQ_OPENING_COUNT k)
    (ANALYTICS_SHORTEST_GAME k) (f (ANALYTICS_SHORTEST_GAME_TURNS k))
    (ANALYTICS_LEAST_COMMON_SEQS k) (ANALYTICS_LEAST_COMMON_SEQ_COUNT k)
    (ANALYTICS_MOST_COMMON_SEQS k) (ANALYTICS_MOST_COMMON_SEQ_COUNT k)).
Definition on_ANALYTICS_LEAST_COMMON_SEQS (f : gset string → gset string) (s : Store) : Store :=
  MkStore (player s) (game s) (global s) (let k := analytics s in
    MkAnalyticsKeys (ANALYTICS_TOP_WINS k) (ANALYTICS_TOP_LOSSES k)
    (ANALYTICS_MOST_FREQ_OPENING k) (ANALYTICS_MOST_FREQ_OPENING_COUNT k)
    (ANALYTICS_SHORTEST_GAME k) (ANALYTICS_SHORTEST_GAME_TURNS k) (f
    (ANALYTICS_LEAST_COMMON_SEQS k)) (ANALYTICS_LEAST_COMMON_SEQ_COUNT k)
    (ANALYTICS_MOST_COMMON_SEQS k) (ANALYTICS_MOST_COMMON_SEQ_COUNT k)).
Definition on_ANALYTICS_LEAST_COMMON_SEQ_COUNT (f : option Z → option Z) (s : Store) : Store :=
  MkStore (player s) (game s) (global s) (let k := analytics s in
    MkAnalyticsKeys (ANALYTICS_TOP_WINS k) (ANALYTICS_TOP_LOSSES k)
    (ANALYTICS_MOST_FREQ_OPENING k) (ANALYTICS_MOST_FREQ_OPENING_COUNT k)
    (ANALYTICS_SHORTEST_GAME k) (ANALYTICS_SHORTEST_GAME_TURNS k)
    (ANALYTICS_LEAST_COMMON_SEQS k) (f (ANALYTICS_LEAST_COMMON_SEQ_COUNT k))
    (ANALYTICS_MOST_COMMON_SEQS k) (ANALYTICS_MOST_COMMON_SEQ_COUNT k)).
Definition on_ANALYTICS_MOST_COMMON_SEQS (f : gset string → gset string) (s : Store) : Store :=
  MkStore (player s) (game s) (global s) (let k := analytics s in
    MkAnalyticsKeys (ANALYTICS_TOP_WINS k) (ANALYTICS_TOP_LOSSES k)
    (ANALYTICS_MOST_FREQ_OPENING k) (ANALYTICS_MOST_FREQ_OPENING_COUNT k)
    (ANALYTICS_SHORTEST_GAME k) (ANALYTICS_SHORTEST_GAME_TURNS k)
    (ANALYTICS_LEAST_COMMON_SEQS k) (ANALYTICS_LEAST_COMMON_SEQ_COUNT k) (f
    (ANALYTICS_MOST_COMMON_SEQS k)) (ANALYTICS_MOST_COMMON_SEQ_COUNT k)).
Definition on_ANALYTICS_MOST_COMMON_SEQ_COUNT (f : option Z → option Z) (s : Store) : Store :=
  MkStore (player s) (game s) (global s) (let k := analytics s in
    MkAnalyticsKeys (ANALYTICS_TOP_WINS k) (ANALYTICS_TOP_LOSSES k)
    (ANALYTICS_MOST_FREQ_OPENING k) (ANALYTICS_MOST_FREQ_OPENING_COUNT k)
    (ANALYTICS_SHORTEST_GAME k) (ANALYTICS_SHORTEST_GAME_TURNS k)
    (ANALYTICS_LEAST_COMMON_SEQS k) (ANALYTICS_LEAST_COMMON_SEQ_COUNT k)
    (ANALYTICS_MOST_COMMON_SEQS k) (f (ANALYTICS_MOST_COMMON_SEQ_COUNT k))).
Definition empty_store : Store :=
  MkStore (MkPlayerKeys ∅ ∅ ∅ ∅ ∅ ∅ ∅ ∅ ∅ ∅ ∅ ∅)
          (MkGameKeys ∅ ∅ ∅ ∅ ∅ ∅ ∅ ∅)
          (MkGlobalKeys ∅ ∅ ∅ ∅ ∅ ∅ ∅)
          (MkAnalyticsKeys [] [] None None None None ∅ None ∅ None).

(** ** Calls against the store *)

Definition M (A : Type) : Type := Store → result A * Store.

Definition ret {A} (a : A) : M A := λ s, (Ok a, s).
Definition raise {A} (e : exn) : M A := λ s, (Raise e, s).
Definition bind {A B} (m : M A) (k : A → M B) : M B := λ s,
  match m s with
  | (Ok a, s') => k a s'
  | (Raise e, s') => (Raise e, s')
  | (Beyond b, s') => (Beyond b, s')
  end.
Definition modify (f : Store → Store) : M unit := λ s, (Ok tt, f s).
Definition read {A} (f : Store → A) : M A := λ s, (Ok (f s), s).

Notation "x <- m ;; k" := (bind m (λ x, k))
  (at level 100, m at next level, right associativity).
Notation "m ;;; k" := (bind m (λ _, k))
  (at level 100, right associativity).

Fixpoint for_each {A} (l : list A) (body : A → M unit) : M unit :=
  match l with
  | [] => ret tt
  | x :: l' => body x ;;; for_each l' body
  end.

(** [redis_client.incr(key, 1)] on a key family. *)
Definition INCR `{Countable K} (get : Store → gmap K Z)
    (on : (gmap K Z → gmap K Z) → Store → Store) (k : K) : M Z := λ s,
  let '(v, m) := incr k (get s) in (Ok v, on (λ _, m) s).

(** [redis_client.sadd(key, v)] on one of the global Sets; the reply is the
    number of members added. *)
Definition SADD (get : Store → gset string)
    (on : (gset string → gset string) → Store → Store) (v : string) : M Z :=
  λ s,
  let added := if bool_decide (v ∈ get s) then 0 else 1 in
  (Ok added, on (λ members, {[v]} ∪ members) s).

(** *** The records of [models.py] *)

Record PlayerTypedDict : Type := {
  user_id : string;
  email : string;
}.

(** The [game_id] of a schedule row is [schedule_game_id] here: the name
    [game_id] is taken by the game record. *)
Record ScheduleTypedDict : Type := {
  schedule_game_id : string;
  player_1 : string;
  player_2 : string;
}.

Record GameRecordTypedDict : Type := {
  game_id : string;
  moveset : moveset_t;
  winner : string;
  victory_status : string;
  number_of_turns : turns_t;
  white_player_id : string;
  black_player_id : string;
  opening_eco : string;
}.

(** *** [add_player] *)

Definition assert_player_is_new (pid : string) : M unit :=
  added <- SADD (GLOBAL_PLAYERS_IDS ∘ global) on_GLOBAL_PLAYERS_IDS pid ;;
  if added =? 0
  then raise (BoardGameClubNotUniqueError
                ("user_id " +:+ pid +:+ " is already taken"))
  else ret tt.

Definition add_player (p : PlayerTypedDict) : M unit :=
  assert_player_is_new (user_id p) ;;;
  let pid := user_id p in
  modify (on_PLAYER_EMAIL <[pid := email p]>) ;;;
  modify (on_PLAYER_WINS <[pid := 0]>) ;;;
  modify (on_PLAYER_LOSSES <[pid := 0]>) ;;;
  modify (on_PLAYER_DRAWS <[pid := 0]>) ;;;
  modify (on_PLAYER_COUNT_KEYS <[PLAYER_MOST_FREQ_OPENING_COUNT pid := 0]>) ;;;
  added <- SADD (GLOBAL_PLAYERS_EMAILS ∘ global) on_GLOBAL_PLAYERS_EMAILS
             (email p) ;;
  ret tt.

(** *** [add_schedule] *)

Definition assert_game_is_new (gid : string) : M unit :=
  added <- SADD (GLOBAL_GAMES_IDS ∘ global) on_GLOBAL_GAMES_IDS gid ;;
  if added =? 0
  then raise (BoardGameClubNotUniqueError
                ("game_id " +:+ gid +:+ " is already taken"))
  else ret tt.

(** [EXPIRE key seconds] on a scheduled-opponent key. *)
Definition expire (key : string) (seconds : Z)
    (m : gmap string (string * option Z)) : gmap string (string * option Z) :=
  match m !! key with
  | Some (v, _) => <[key := (v, Some seconds)]> m
  | None => m
  end.

Definition lpush_trim (key value : string) (stop : nat)
    (m : gmap string (list string)) : gmap string (list string) :=
  <[key := ltrim stop (lpush (default [] (m !! key)) value)]> m.

Definition add_schedule (schedule : ScheduleTypedDict) : M unit :=
  assert_game_is_new (schedule_game_id schedule) ;;;
  let player_1_key :=
    PLAYER_SCHEDULED_GAME_OPPONENT (player_1 schedule)
      (schedule_game_id schedule) in
  let player_2_key :=
    PLAYER_SCHEDULED_GAME_OPPONENT (player_2 schedule)
      (schedule_game_id schedule) in
  modify (on_PLAYER_OPPONENT_KEYS
            (λ m, <[player_2_key := (player_1 schedule, None)]>
                    (<[player_1_key := (player_2 schedule, None)]> m))) ;;;
  modify (on_PLAYER_OPPONENT_KEYS (expire player_1_key 259200)) ;;;
  modify (on_PLAYER_OPPONENT_KEYS (expire player_2_key 259200)) ;;;
  modify (on_PLAYER_SCHEDULED_GAMES
            (lpush_trim (player_1 schedule) (schedule_game_id schedule) 199)) ;;;
  modify (on_PLAYER_SCHEDULED_GAMES
            (lpush_trim (player_2 schedule) (schedule_game_id schedule) 199)).

(** *** [add_game_record] and its helpers *)

Inductive top_key : Type := TOP_WINS | TOP_LOSSES.

Definition top_get (list_key : top_key) (s : Store) : list entry :=
  match list_key with
  | TOP_WINS => ANALYTICS_TOP_WINS (analytics s)
  | TOP_LOSSES => ANALYTICS_TOP_LOSSES (analytics s)
  end.

Definition top_put (list_key : top_key) (top : list entry) (s : Store) : Store :=
  match list_key with
  | TOP_WINS => on_ANALYTICS_TOP_WINS (λ _, top) s
  | TOP_LOSSES => on_ANALYTICS_TOP_LOSSES (λ _, top) s
  end.

(** [__update_top_list(redis_client, list_key, pid, new_score)] *)
Definition update_top_list_at (list_key : top_key) (pid : string)
    (new_score : Z) : M unit := λ s,
  let '(r, top) := update_top_list (top_get list_key s) pid new_score in
  (r, top_put list_key top s).

(** [most_used_eco_count is None or this_game_eco_count > int(most_used_eco_count)] *)
Definition beats (this_game_eco_count : Z) (most_used_eco_count : option Z)
    : bool :=
  match most_used_eco_count with
  | None => true
  | Some c => this_game_eco_count >? c
  end.

(** Lines 194-201 of [__update_player_keys]: the opening of this game,
    observed for one player. *)
Definition observe_player_opening (player_id eco : string) : M unit :=
  this_game_eco_count <-
    INCR (PLAYER_COUNT_KEYS ∘ player) on_PLAYER_COUNT_KEYS
         (PLAYER_OPENING_COUNT player_id eco) ;;
  most_used_eco_count <-
    read (λ s, PLAYER_COUNT_KEYS (player s)
                 !! PLAYER_MOST_FREQ_OPENING_COUNT player_id) ;;
  if beats this_game_eco_count most_used_eco_count
  then modify (λ s, on_PLAYER_COUNT_KEYS
                      <[PLAYER_MOST_FREQ_OPENING_COUNT player_id :=
                          this_game_eco_count]>
                      (on_PLAYER_MOST_FREQ_OPENING <[player_id := eco]> s))
  else ret tt.

Definition update_player_keys (game_record : GameRecordTypedDict)
    (player_color player_id opponent_color opponent_id : string) : M unit :=
  (if bool_decide (winner game_record = player_color) then
     wins <- INCR (PLAYER_WINS ∘ player) on_PLAYER_WINS player_id ;;
     update_top_list_at TOP_WINS player_id wins
   else if bool_decide (winner game_record = opponent_color) then
     losses <- INCR (PLAYER_LOSSES ∘ player) on_PLAYER_LOSSES player_id ;;
     update_top_list_at TOP_LOSSES player_id losses
   else
     number_of_draws <- INCR (PLAYER_DRAWS ∘ player) on_PLAYER_DRAWS player_id ;;
     ret tt) ;;;
  modify (on_PLAYER_GAMES_LIST
            (λ m, <[player_id :=
                      rpush (default [] (m !! player_id)) (game_id game_record)]> m)) ;;;
  modify (on_PLAYER_GAMES_SET (sadd player_id (game_id game_record))) ;;;
  modify (on_PLAYER_OPPONENTS (sadd player_id opponent_id)) ;;;
  observe_player_opening player_id (opening_eco game_record).

(** [rpush(key, *moves)] with no move sends [RPUSH key], which the server
    refuses: redis-py raises [ResponseError]. *)
Definition update_game_keys (game_record : GameRecordTypedDict)
    (moves : list string) : M unit :=
  let gid := game_id game_record in
  modify (λ s,
    on_GAME_OPENING_ECO <[gid := opening_eco game_record]>
      (on_GAME_BLACK_PLAYER <[gid := black_player_id game_record]>
        (on_GAME_WHITE_PLAYER <[gid := white_player_id game_record]>
          (on_GAME_CHECKS <[gid := find_number_of_checks moves]>
            (on_GAME_TURNS <[gid := number_of_turns game_record]>
              (on_GAME_VICTORY_STATUS <[gid := victory_status game_record]>
                (on_GAME_WINNER <[gid := winner game_record]> s))))))) ;;;
  match moves with
  | [] => raise ResponseError
  | _ :: _ =>
      modify (on_GAME_MOVES (λ m, <[gid := default [] (m !! gid) ++ moves]> m))
  end.

Definition least_tracker (s : Store) : tracker :=
  (ANALYTICS_LEAST_COMMON_SEQ_COUNT (analytics s),
   ANALYTICS_LEAST_COMMON_SEQS (analytics s)).

Definition most_tracker (s : Store) : tracker :=
  (ANALYTICS_MOST_COMMON_SEQ_COUNT (analytics s),
   ANALYTICS_MOST_COMMON_SEQS (analytics s)).

Definition update_most_common_seqs_at (three_move_sequence : string)
    (new_count : Z) : M unit :=
  modify (λ s,
    let t := update_most_common_seqs (most_tracker s) three_move_sequence
               new_count in
    on_ANALYTICS_MOST_COMMON_SEQ_COUNT (λ _, t.1)
      (on_ANALYTICS_MOST_COMMON_SEQS (λ _, t.2) s)).

Definition update_least_common_seqs_at (three_move_sequence : string)
    (new_count : Z) : M unit :=
  modify (λ s,
    let t := update_least_common_seqs (GLOBAL_SEQ_COUNT (global s))
               (least_tracker s) three_move_sequence new_count in
    on_ANALYTICS_LEAST_COMMON_SEQ_COUNT (λ _, t.1)
      (on_ANALYTICS_LEAST_COMMON_SEQS (λ _, t.2) s)).

Definition update_common_seqs (three_move_sequences : list string) : M unit :=
  for_each three_move_sequences (λ three_move_sequence,
    new_count <- INCR (GLOBAL_SEQ_COUNT ∘ global) on_GLOBAL_SEQ_COUNT
                   three_move_sequence ;;
    update_most_common_seqs_at three_move_sequence new_count ;;;
    update_least_common_seqs_at three_move_sequence new_count).

Definition update_most_freq_opening (game_record : GameRecordTypedDict)
    (this_game_eco_count : Z) : M unit :=
  most_used_eco_count <-
    read (λ s, ANALYTICS_MOST_FREQ_OPENING_COUNT (analytics s)) ;;
  if beats this_game_eco_count most_used_eco_count
  then modify (λ s, on_ANALYTICS_MOST_FREQ_OPENING_COUNT
                      (λ _, Some this_game_eco_count)
                      (on_ANALYTICS_MOST_FREQ_OPENING
                         (λ _, Some (opening_eco game_record)) s))
  else ret tt.

Definition lift_result {A} (r : result A) : M A := λ s, (r, s).

(** [int(x)] as a call: the value, [ValueError], or no verdict. *)
Definition int (x : turns_t) : result Z :=
  match int_of x with
  | IntValue n => Ok n
  | IntFails => Raise ValueError
  | IntOther => Beyond IntOutsideFragment
  end.

(** [current_shortest_game_turns is None or
     int(game_record["number_of_turns"]) < int(current_shortest_game_turns)]:
    with no record stored nothing is converted; otherwise the turns of the
    game record are converted first.  The keys are set to what the game
    record holds, not to the converted value. *)
Definition update_shortest_game (game_record : GameRecordTypedDict) : M unit :=
  current_shortest_game_turns <-
    read (λ s, ANALYTICS_SHORTEST_GAME_TURNS (analytics s)) ;;
  shorter <-
    match current_shortest_game_turns with
    | None => ret true
    | Some current =>
        turns <- lift_result (int (number_of_turns game_record)) ;;
        least <- lift_result (int current) ;;
        ret (turns <? least)
    end ;;
  if (shorter : bool)
  then modify (λ s, on_ANALYTICS_SHORTEST_GAME_TURNS
                      (λ _, Some (number_of_turns game_record))
                      (on_ANALYTICS_SHORTEST_GAME
                         (λ _, Some (game_id game_record)) s))
  else ret tt.

Definition friends_of (s : Store) : friends :=
  {| group_of := PLAYER_FRIEND_GROUP (player s);
     groups := GLOBAL_FRIEND_GROUP (global s) |}.

Definition update_friend_groups_at (draws : list fid) (pid1 pid2 : string)
    : M unit := λ s,
  let '(r, f) := update_friend_groups draws (friends_of s) pid1 pid2 in
  (r, on_PLAYER_FRIEND_GROUP (λ _, group_of f)
        (on_GLOBAL_FRIEND_GROUP (λ _, groups f) s)).

(** Lines 211-242 of [add_game_record]: what the call does once the game id
    is reserved and the moveset parsed.  [draws] are the UUIDs that
    [uuid.uuid4()] hands to this call. *)
Definition record_game (draws : list fid) (game_record : GameRecordTypedDict)
    (moves : list string) : M unit :=
  let three_move_sequences := find_all_three_move_sequences moves in
  for_each three_move_sequences (λ seq,
    modify (on_GLOBAL_SEQ_GAMES (sadd seq (game_id game_record)))) ;;;
  update_player_keys game_record "white" (white_player_id game_record)
    "black" (black_player_id game_record) ;;;
  update_player_keys game_record "black" (black_player_id game_record)
    "white" (white_player_id game_record) ;;;
  update_game_keys game_record moves ;;;
  update_common_seqs three_move_sequences ;;;
  this_game_eco_count <-
    INCR (GLOBAL_OPENING_COUNT ∘ global) on_GLOBAL_OPENING_COUNT
         (opening_eco game_record) ;;
  update_shortest_game game_record ;;;
  update_most_freq_opening game_record this_game_eco_count ;;;
  update_friend_groups_at draws (white_player_id game_record)
    (black_player_id game_record).

Definition add_game_record (draws : list fid)
    (game_record : GameRecordTypedDict) : M unit :=
  assert_game_is_new (game_id game_record) ;;;
  moves <- lift_result (parse_moveset (moveset game_record)) ;;
  record_game draws game_record moves.

(** *** [get_friends_of_friends] ([graph_funcs.py]) *)

Definition get_friends_of_friends (s : Store) (pid : string) : list string :=
  match PLAYER_FRIEND_GROUP (player s) !! pid with
  | None => []
  | Some fid =>
      let fof_set :=
        smembers fid (GLOBAL_FRIEND_GROUP (global s))
          ∖ smembers pid (PLAYER_OPPONENTS (player s)) in
      elements (fof_set ∖ {[pid]})
  end.

(** *** Write events in sequence *)

Inductive request : Type :=
  | AddPlayer (p : PlayerTypedDict)
  | AddSchedule (schedule : ScheduleTypedDict)
  | AddGameRecord (draws : list fid) (game_record : GameRecordTypedDict).

Definition serve (q : request) : M unit :=
  match q with
  | AddPlayer p => add_player p
  | AddSchedule schedule => add_schedule schedule
  | AddGameRecord draws game_record => add_game_record draws game_record
  end.

(** The store after a series of write events, whatever each one returned:
    a caller that catches an exception goes on with the next row. *)
Definition serve_all (qs : list request) (s : Store) : Store :=
  foldl (λ s q, (serve q s).2) s qs.

(** What the rescan holds after the keys [seen]: nothing before the first
    key, then the least count met and the sequences that have it. *)
Definition rescanned (acc : option Z * list string)
    (seen : list (string * Z)) : Prop :=
  match acc.1 with
  | None => seen = [] ∧ acc.2 = []
  | Some m =>
      (∀ seq cnt, (seq, cnt) ∈ seen → m ≤ cnt) ∧
      (∀ seq, seq ∈ acc.2 ↔ (seq, m) ∈ seen) ∧
      acc.2 ≠ []
  end.

(** The players a link between [pid1] and [pid2] touches, for a relation
    [R] of being connected: the two players and everyone connected to one of
    them. *)
Definition near (R : relation string) (pid1 pid2 x : string) : Prop :=
  x = pid1 ∨ x = pid2 ∨ R x pid1 ∨ R x pid2.

(** A store of friend groups that some run of links produces. *)
Definition linked (f : friends) : Prop :=
  ∃ links, link_all no_friends links = (Ok tt, f).

(** [keeps get m]: the call [m] leaves the part [get] of the store as it
    found it, whatever it returns. *)
Definition keeps {A B} (get : Store → A) (m : M B) : Prop :=
  ∀ s, get (m s).2 = get s.

Definition games_ids (s : Store) : gset string := GLOBAL_GAMES_IDS (global s).
Definition players_ids (s : Store) : gset string := GLOBAL_PLAYERS_IDS (global s).
Definition seq_games (s : Store) : gmap string (gset string) :=
  GLOBAL_SEQ_GAMES (global s).
Definition seq_count (s : Store) : gmap string Z := GLOBAL_SEQ_COUNT (global s).

(** How often [w] occurs in a list of sequences. *)
Definition occurrences (w : string) (ws : list string) : Z :=
  Z.of_nat (length (filter (λ x, x = w) ws)).


(** The stored leader of a scope: the most frequent opening and its count,
    for one player and for the club. *)
Definition player_leader (pid : string) (s : Store) : option string * option Z :=
  (PLAYER_MOST_FREQ_OPENING (player s) !! pid,
   PLAYER_COUNT_KEYS (player s) !! PLAYER_MOST_FREQ_OPENING_COUNT pid).

Definition global_leader (s : Store) : option string * option Z :=
  (ANALYTICS_MOST_FREQ_OPENING (analytics s),
   ANALYTICS_MOST_FREQ_OPENING_COUNT (analytics s)).

(** *** Scenarios of the specification *)

(** Scenario A: [p1] beats [p2] in game [g1]. *)
Definition game_g1 : GameRecordTypedDict :=
  {| game_id := "g1"; moveset := MovesetList ["e4"; "e5"; "Nf3"];
     winner := "white"; victory_status := "mate"; number_of_turns := 10;
     white_player_id := "p1"; black_player_id := "p2"; opening_eco := "C1" |}.

Definition store_A : Store := (add_game_record [5%N] game_g1 empty_store).2.

(** Scenario B: the id [g1] comes a second time, with other data. *)
Definition game_g1_again : GameRecordTypedDict :=
  {| game_id := "g1"; moveset := MovesetList ["d4"; "d5"; "c4"; "e6"];
     winner := "black"; victory_status := "resign"; number_of_turns := 31;
     white_player_id := "p2"; black_player_id := "p1"; opening_eco := "D06" |}.

(** Scenario C: [a] plays [b], then [b] plays [c]. *)
Definition game_ab : GameRecordTypedDict :=
  {| game_id := "ab"; moveset := MovesetList ["e4"; "e5"; "Nf3"; "Nc6"];
     winner := "white"; victory_status := "mate"; number_of_turns := 20;
     white_player_id := "a"; black_player_id := "b"; opening_eco := "C44" |}.

Definition game_bc : GameRecordTypedDict :=
  {| game_id := "bc"; moveset := MovesetList ["e4"; "e5"; "Nf3"; "d6"];
     winner := "draw"; victory_status := "draw"; number_of_turns := 40;
     white_player_id := "b"; black_player_id := "c"; opening_eco := "C41" |}.

Definition store_C : Store :=
  serve_all [AddGameRecord [7%N] game_ab; AddGameRecord [8%N] game_bc]
    empty_store.

(** A row whose moveset is not JSON. *)
Definition game_unparsable : GameRecordTypedDict :=
  {| game_id := "g2"; moveset := MovesetStr "e4 e5 Nf3";
     winner := "white"; victory_status := "mate"; number_of_turns := 3;
     white_player_id := "p1"; black_player_id := "p2"; opening_eco := "C1" |}.

Definition pairing_h1 : ScheduleTypedDict :=
  {| schedule_game_id := "h1"; player_1 := "p1"; player_2 := "p2" |}.

Definition game_h1 : GameRecordTypedDict :=
  {| game_id := "h1"; moveset := MovesetList ["e4"; "e5"; "Nf3"];
     winner := "white"; victory_status := "mate"; number_of_turns := 10;
     white_player_id := "p1"; black_player_id := "p2"; opening_eco := "C1" |}.

(** A player is in the true top ten when fewer than ten other players match
    or beat its score. *)
Definition in_true_top (counters : gmap string Z) (pid : string) (score : Z)
    : Prop :=
  counters !! pid = Some score ∧
  ∀ others : list string,
    NoDup others → pid ∉ others →
    (∀ q, q ∈ others → ∃ sq, counters !! q = Some sq ∧ score ≤ sq) →
    (length others < 10)%nat.

(** [preserves P m]: the call [m] never leaves a store without [P] when it
    found it with [P], whether it returns or raises. *)
Definition preserves {B} (P : Store → Prop) (m : M B) : Prop :=
  ∀ s, P s → P (m s).2.

(** The least-common tracker of the store, with the counters it tracks. *)
Definition least_state (s : Store) : gmap string Z * (option Z * gset string) :=
  (seq_count s, least_tracker s).

(** The wins board and the losses board of the store. *)
Definition wins_board (s : Store) : gmap string Z * list (string * Z) :=
  (PLAYER_WINS (player s), ANALYTICS_TOP_WINS (analytics s)).

Definition losses_board (s : Store) : gmap string Z * list (string * Z) :=
  (PLAYER_LOSSES (player s), ANALYTICS_TOP_LOSSES (analytics s)).

(** Two wins, the first by a player whose id holds a colon. *)
Definition game_k1 : GameRecordTypedDict :=
  {| game_id := "k1"; moveset := MovesetList ["e4"; "e5"; "Nf3"];
     winner := "white"; victory_status := "mate"; number_of_turns := 12;
     white_player_id := "a:b"; black_player_id := "x"; opening_eco := "C20" |}.

Definition game_k2 : GameRecordTypedDict :=
  {| game_id := "k2"; moveset := MovesetList ["d4"; "d5"; "c4"];
     winner := "white"; victory_status := "resign"; number_of_turns := 30;
     white_player_id := "c"; black_player_id := "y"; opening_eco := "D06" |}.

Definition store_k1 : Store := (add_game_record [1%N] game_k1 empty_store).2.

(** The two leaderboards of the store, and the condition under which the
    scan of [__update_top_list] can split every item. *)
Definition tops (s : Store) : list (string * Z) * list (string * Z) :=
  (ANALYTICS_TOP_WINS (analytics s), ANALYTICS_TOP_LOSSES (analytics s)).

Definition colon_free (top : list (string * Z)) : Prop :=
  Forall (λ e, has_colon e.1 = false) top.


(** ** The readers: [analytics_funcs.py], [graph_funcs.py] *)

(** The replies are Python dicts with fixed keys; they are tuples here, in
    the order of the keys.  [int(x) if x else d] acts on the reply of [GET]:
    a counter holds a numeral, which is not the empty string, so that reply
    is falsy exactly when the key is missing. *)

(** [{"game_id": ..., "number_of_turns": int(num_turns) if num_turns else
    None}]: the stored turns are what a game record held, which can be the
    empty text, or a text that [int] refuses. *)
Definition get_shortest_game (s : Store) : result (option string * option Z) :=
  let gid := ANALYTICS_SHORTEST_GAME (analytics s) in
  match ANALYTICS_SHORTEST_GAME_TURNS (analytics s) with
  | None => Ok (gid, None)
  | Some num_turns =>
      if truthy num_turns then
        match int num_turns with
        | Ok n => Ok (gid, Some n)
        | Raise e => Raise e
        | Beyond b => Beyond b
        end
      else Ok (gid, None)
  end.

(** [key.split(":")[1]] on a key ["game:{gid}:number_of_checks"]: what the
    game id holds before its first colon. *)
Fixpoint before_colon (gid : string) : string :=
  match gid with
  | EmptyString => EmptyString
  | String c rest =>
      if Ascii.eqb c ":"%char then EmptyString else String c (before_colon rest)
  end.

(** The dict comprehension over [r.keys("game:*:number_of_checks")]: a later
    key with the same segment overwrites an earlier one. *)
Definition get_check_counts (s : Store) : gmap string Z :=
  foldl (λ counts key, <[before_colon key.1 := key.2]> counts) ∅
        (map_to_list (GAME_CHECKS (game s))).

(** [{"opening_eco": ..., "count": ...}] *)
Definition get_most_frequent_opening (s : Store) : option string * Z :=
  (ANALYTICS_MOST_FREQ_OPENING (analytics s),
   default 0 (ANALYTICS_MOST_FREQ_OPENING_COUNT (analytics s))).

(** [{"sequences": ..., "count": ...}] *)
Definition get_most_common_3move_sequence (s : Store) : list string * Z :=
  (elements (ANALYTICS_MOST_COMMON_SEQS (analytics s)),
   default 0 (ANALYTICS_MOST_COMMON_SEQ_COUNT (analytics s))).

Definition get_least_common_3move_sequence (s : Store) : list string * Z :=
  (elements (ANALYTICS_LEAST_COMMON_SEQS (analytics s)),
   default 0 (ANALYTICS_LEAST_COMMON_SEQ_COUNT (analytics s))).

Definition get_filtered_friends_of_friends (s : Store) (pid : string)
    : list string :=
  let fof_list := get_friends_of_friends s pid in
  match fof_list with
  | [] => []
  | _ :: _ =>
      let player_wins := default 0 (PLAYER_WINS (player s) !! pid) in
      let fof_wins :=
        (λ fof_pid, default 0 (PLAYER_WINS (player s) !! fof_pid)) <$> fof_list in
      (filter (λ x, player_wins < x.2) (zip fof_list fof_wins)).*1
  end.

(** ** The loaders: [load_transform.py] *)

(** [try: m except <class>: <go on>], for a handler that does not raise. *)
Definition try_except (caught : exn → bool) (m : M unit) : M unit := λ s,
  match m s with
  | (Raise e, s') => if caught e then (Ok tt, s') else (Raise e, s')
  | outcome => outcome
  end.

Definition is_BoardGameClubNotUniqueError (e : exn) : bool :=
  match e with BoardGameClubNotUniqueError _ => true | _ => false end.

Definition is_BoardGameClubLoadTransformError (e : exn) : bool :=
  match e with BoardGameClubLoadTransformError _ => true | _ => false end.

(** [pro/deliverables/load_transform.py].  A row is the dict the reader
    builds from the header and one line; a row of game records comes with the
    [uuid4] draws its call consumes. *)
Definition process_csv_file {A} (rows : list A) (func : A → M unit) : M unit :=
  for_each rows func.

Definition process_game_records_csv (row : list fid * GameRecordTypedDict)
    : M unit :=
  try_except is_BoardGameClubNotUniqueError (add_game_record row.1 row.2).

(** [load_transform.py] at the root of the sources: every row is tried, the
    handler catches the loader's own error class. *)
Module RootLoader.
Definition process_csv_file {A} (rows : list A) (func : A → M unit) : M unit :=
  for_each rows (λ row,
    try_except is_BoardGameClubLoadTransformError (func row)).

Definition process_game_records_csv
    (rows : list (list fid * GameRecordTypedDict)) : M unit :=
  for_each rows (λ record,
    try_except is_BoardGameClubLoadTransformError
      (add_game_record record.1 record.2)).
End RootLoader.

(** ** What the store keeps between calls *)

(** One pass of the loop of [__update_common_seqs], on the most tracker. *)
Definition observe_most (st : gmap string Z * tracker) (seq : string)
    : gmap string Z * tracker :=
  let '(new_count, counts) := incr seq st.1 in
  (counts, update_most_common_seqs st.2 seq new_count).

(** The extremal-set invariant, for the most polarity. *)
Record most_ok (st : gmap string Z * tracker) : Prop := {
  most_positive : ∀ seq cnt, st.1 !! seq = Some cnt → 1 ≤ cnt;
  most_fresh : st.1 = ∅ → st.2 = (None, ∅);
  most_count_max : ∀ seq cnt, st.1 !! seq = Some cnt →
    ∃ m, st.2.1 = Some m ∧ cnt ≤ m;
  most_set_exact : ∀ seq m, st.2.1 = Some m →
    (seq ∈ st.2.2 ↔ st.1 !! seq = Some m);
  most_attained : ∀ m, st.2.1 = Some m → ∃ seq, st.1 !! seq = Some m;
}.

Definition most_state (s : Store) : gmap string Z * (option Z * gset string) :=
  (seq_count s, most_tracker s).



(** A leaderboard in shape: scores never rise along the list, which holds at
    most ten items. *)
Definition top_shape (top : list entry) : Prop :=
  StronglySorted desc top ∧ (length top ≤ 10)%nat.

Definition scheduled_games (pid : string) (s : Store) : list string :=
  default [] (PLAYER_SCHEDULED_GAMES (player s) !! pid).

Definition scheduled_opponent (pid gid : string) (s : Store)
    : option (string * option Z) :=
  PLAYER_OPPONENT_KEYS (player s) !! PLAYER_SCHEDULED_GAME_OPPONENT pid gid.

Definition shortest_state (s : Store) : option string * option turns_t :=
  (ANALYTICS_SHORTEST_GAME (analytics s),
   ANALYTICS_SHORTEST_GAME_TURNS (analytics s)).

(** A [number_of_turns] that reads as an integer, and the integer a stored
    one reads as. *)
Definition numeric (x : turns_t) : Prop := ∃ n, int_of x = IntValue n.

Definition turns_value (stored : option turns_t) : option Z :=
  match stored with
  | Some x => match int_of x with IntValue n => Some n | _ => None end
  | None => None
  end.

(** The write events that hand in no [number_of_turns] but such as read as
    integers. *)
Definition numeric_turns (q : request) : Prop :=
  match q with
  | AddGameRecord _ game_record => numeric (number_of_turns game_record)
  | AddPlayer _ | AddSchedule _ => True
  end.


(** The games whose moves are stored have their ids reserved. *)
Definition moves_reserved (s : Store) : Prop :=
  ∀ gid moves, GAME_MOVES (game s) !! gid = Some moves → gid ∈ games_ids s.

(** The keys of one player under the templates with one parameter, in the
    order of [keys.py]. *)
Definition player_keys (pid : string) (s : Store)
    : option string * option Z * option Z * option Z * option (list string)
      * option (gset string) * option (gset string) * option string
      * option fid * option (list string) :=
  (PLAYER_EMAIL (player s) !! pid, PLAYER_WINS (player s) !! pid,
   PLAYER_LOSSES (player s) !! pid, PLAYER_DRAWS (player s) !! pid,
   PLAYER_GAMES_LIST (player s) !! pid, PLAYER_GAMES_SET (player s) !! pid,
   PLAYER_OPPONENTS (player s) !! pid,
   PLAYER_MOST_FREQ_OPENING (player s) !! pid,
   PLAYER_FRIEND_GROUP (player s) !! pid,
   PLAYER_SCHEDULED_GAMES (player s) !! pid).


(** The three result counters of a player, a missing key counting as 0. *)
Definition games_counted (pid : string) (s : Store) : Z :=
  default 0 (PLAYER_WINS (player s) !! pid)
  + default 0 (PLAYER_LOSSES (player s) !! pid)
  + default 0 (PLAYER_DRAWS (player s) !! pid).

Definition games_list (pid : string) (s : Store) : list string :=
  default [] (PLAYER_GAMES_LIST (player s) !! pid).

Definition games_set (pid : string) (s : Store) : gset string :=
  smembers pid (PLAYER_GAMES_SET (player s)).

Definition opponents (pid : string) (s : Store) : gset string :=
  smembers pid (PLAYER_OPPONENTS (player s)).

(** The games-list and the games-set of every player hold the same ids. *)
Definition games_agree (s : Store) : Prop :=
  ∀ pid, games_set pid s = list_to_set (games_list pid s).

(** The ids of the rows of a file of game records. *)
Definition row_ids (rows : list (list fid * GameRecordTypedDict))
    : list string :=
  (λ row, game_id row.2) <$> rows.

(** The exceptions a call can end with. *)
Definition raises_only {A} (allowed : exn → bool) (m : M A) : Prop :=
  ∀ s e, (m s).1 = Raise e → allowed e = true.

(** What the write path raises: the error of a taken id, and the errors of
    [json.loads], of the unpacking in [__update_top_list], of [int] in
    [__update_shortest_game] and of the server. *)
Definition write_path_error (e : exn) : bool :=
  match e with
  | BoardGameClubNotUniqueError _ | JSONDecodeError | ValueError
  | ResponseError => true
  | BoardGameClubLoadTransformError _ => false
  end.

(** The part of the store the shortest-game record is about: the turns and
    the moves of the stored games, the record, and the ids taken. *)
Record ShortestView : Type := MkShortestView {
  turns_of : gmap string turns_t;
  moves_of : gmap string (list string);
  shortest : option string * option turns_t;
  reserved : gset string;
}.

Definition shortest_view (s : Store) : ShortestView :=
  {| turns_of := GAME_TURNS (game s);
     moves_of := GAME_MOVES (game s);
     shortest := shortest_state s;
     reserved := games_ids s |}.

(** The record names a stored game with the recorded number of turns,
    which reads as an integer, and no game whose moves are stored took fewer
    turns. *)
Record shortest_ok (v : ShortestView) : Prop := {
  shortest_paired : (shortest v).1 = None ↔ (shortest v).2 = None;
  shortest_stored : ∀ g, (shortest v).1 = Some g →
    turns_of v !! g = (shortest v).2;
  shortest_reads : ∀ x, (shortest v).2 = Some x → numeric x;
  shortest_least : ∀ gid moves, moves_of v !! gid = Some moves →
    ∃ t m, turns_value (turns_of v !! gid) = Some t ∧
           turns_value (shortest v).2 = Some m ∧ m ≤ t;
  turns_reserved : ∀ gid x, turns_of v !! gid = Some x → gid ∈ reserved v;
}.

(** Nothing is stored yet about the game [gid]. *)
Definition unrecorded (gid : string) (v : ShortestView) : Prop :=
  turns_of v !! gid = None ∧ moves_of v !! gid = None ∧
  (shortest v).1 ≠ Some gid.

(** [__update_shortest_game] on the stored record: it is left as it was
    when a conversion fails. *)
Definition shortest_after (r : GameRecordTypedDict)
    (stored : option string * option turns_t)
    : option string * option turns_t :=
  let new := (Some (game_id r), Some (number_of_turns r)) in
  match stored.2 with
  | None => new
  | Some current =>
      match int_of (number_of_turns r), int_of current with
      | IntValue turns, IntValue least => if turns <? least then new else stored
      | _, _ => stored
      end
  end.

(** Lines 233-240 of [add_game_record] on that part of the store: the game
    keys, then the shortest-game record; with no move the call ends at the
    game keys. *)
Definition record_turns (r : GameRecordTypedDict) (moves : list string)
    (v : ShortestView) : ShortestView :=
  let gid := game_id r in
  let turns := <[gid := number_of_turns r]> (turns_of v) in
  match moves with
  | [] => {| turns_of := turns; moves_of := moves_of v;
             shortest := shortest v; reserved := reserved v |}
  | _ :: _ =>
      {| turns_of := turns;
         moves_of := <[gid := default [] (moves_of v !! gid) ++ moves]>
                       (moves_of v);
         shortest := shortest_after r (shortest v);
         reserved := reserved v |}
  end.

(** Everything stored under the keys ["game:{gid}:..."] of one game, in the
    order of [keys.py]. *)
Definition game_attributes (gid : string) (s : Store)
    : option string * option string * option turns_t * option Z
      * option string * option string * option string
      * option (list string) :=
  (GAME_WINNER (game s) !! gid, GAME_VICTORY_STATUS (game s) !! gid,
   GAME_TURNS (game s) !! gid, GAME_CHECKS (game s) !! gid,
   GAME_WHITE_PLAYER (game s) !! gid, GAME_BLACK_PLAYER (game s) !! gid,
   GAME_OPENING_ECO (game s) !! gid, GAME_MOVES (game s) !! gid).

(** The text Python prints for a list of strings, as the moveset column of
    the data set holds it: the items between apostrophes (39), separated by a
    comma and a space, inside brackets.  A [plain] move prints as itself: its
    characters are printable ASCII other than the two quotes and the
    backslash. *)
Definition quoted (move : string) : list ascii :=
  ascii_of_N 39 :: list_ascii_of_string move ++ [ascii_of_N 39].

Fixpoint python_items (moves : list string) : list ascii :=
  match moves with
  | [] => []
  | [move] => quoted move
  | move :: rest => quoted move ++ ","%char :: " "%char :: python_items rest
  end.

Definition python_list (moves : list string) : string :=
  string_of_list_ascii ("["%char :: python_items moves ++ ["]"%char]).

Definition plain_char (c : ascii) : bool :=
  (32 <=? code c) && (code c <=? 126) && negb (code c =? 34) &&
  negb (code c =? 39) && negb (code c =? 92).

Definition plain (move : string) : Prop :=
  Forall (λ c, plain_char c = true) (list_ascii_of_string move).

(** The write events under which the leaderboards follow the counters: games
    between players whose ids hold no colon, and pairings.  ([add_player]
    sets the counters of a player back to 0, the leaderboards apart.) *)
Definition tracked_event (q : request) : Prop :=
  match q with
  | AddPlayer _ => False
  | AddSchedule _ => True
  | AddGameRecord _ game_record =>
      has_colon (white_player_id game_record) = false ∧
      has_colon (black_player_id game_record) = false
  end.

(** Both boards in order, with items the scan can split. *)
Definition boards_ok (s : Store) : Prop :=
  top_list_ok (wins_board s) ∧ top_list_ok (losses_board s) ∧
  colon_free (tops s).1 ∧ colon_free (tops s).2.

(** A first game record whose number of turns is the empty text. *)
Definition game_blank_turns : GameRecordTypedDict :=
  {| game_id := "n1"; moveset := MovesetList ["e4"; "e5"; "Nf3"];
     winner := "white"; victory_status := "mate";
     number_of_turns := TurnsStr "";
     white_player_id := "p1"; black_player_id := "p2"; opening_eco := "C1" |}.

Definition store_N : Store :=
  (add_game_record [3%N] game_blank_turns empty_store).2.

(** [triple P Q m]: from a store with [P], the call [m] ends in a store with
    [Q], whether it returns or raises. *)
Definition triple {B} (P Q : Store → Prop) (m : M B) : Prop :=
  ∀ s, P s → Q (m s).2.

(** * Properties *)

(** ** List primitives *)

Section ListFacts.
Context {A : Type} `{EqDecision A}.
Implicit Types l : list A.

Lemma StronglySorted_sublist (R : relation A) l1 l2 :
  l1 `sublist_of` l2 → StronglySorted R l2 → StronglySorted R l1.
Proof.
  induction 1 as [|x l1 l2 Hsub IH|x l1 l2 Hsub IH]; intros Hs; [done|..].
  - apply StronglySorted_cons in Hs as [Hx Hs].
    apply StronglySorted_cons. split; [|by apply IH].
    apply Forall_forall. intros y Hy.
    rewrite Forall_forall in Hx. apply Hx. by eapply elem_of_sublist.
  - apply StronglySorted_cons in Hs as [_ Hs]. by apply IH.
Qed.

Lemma lrem_sublist (v : A) l : lrem v l `sublist_of` l.
Proof. apply sublist_filter. Qed.

Lemma elem_of_lrem (v x : A) l : x ∈ lrem v l ↔ x ≠ v ∧ x ∈ l.
Proof. unfold lrem. by rewrite list_elem_of_filter. Qed.

Lemma lrem_absent (v : A) l : v ∉ l → lrem v l = l.
Proof.
  induction l as [|x l IH]; [done|]. intros Hv.
  apply not_elem_of_cons in Hv as [Hne Hv]. unfold lrem in *.
  rewrite filter_cons_True by done. by rewrite IH.
Qed.

Lemma lrem_length_NoDup (v : A) l :
  NoDup l → (length l ≤ S (length (lrem v l)))%nat.
Proof.
  induction 1 as [|x l Hx Hnd IH]; [simpl; lia|].
  unfold lrem in *. destruct (decide (x = v)) as [->|Hne].
  - rewrite filter_cons_False by (intros ?; done).
    fold (lrem v l). rewrite lrem_absent by done. simpl. lia.
  - rewrite filter_cons_True by done. simpl. lia.
Qed.

Lemma linsert_before_app (pivot v : A) l1 l2 :
  pivot ∉ l1 →
  linsert_before pivot v (l1 ++ pivot :: l2) = l1 ++ v :: pivot :: l2.
Proof.
  induction l1 as [|x l1 IH]; intros Hp; simpl.
  - by rewrite decide_True.
  - apply not_elem_of_cons in Hp as [Hne Hp].
    rewrite decide_False by done. by rewrite IH.
Qed.
End ListFacts.

(** ** The leaderboard *)

Lemma find_insert_before_Ok n (l : list entry) o :
  find_insert_before n l = Ok o →
  ∃ l1 l2, l = l1 ++ l2 ∧ Forall (λ e, n < e.2) l1 ∧
    match o with
    | None => l2 = []
    | Some item => ∃ l2', l2 = item :: l2' ∧ item.2 ≤ n
    end.
Proof.
  revert o. induction l as [|item rest IH]; intros o; simpl.
  - intros [= <-]. by exists [], [].
  - unfold split_score. destruct (has_colon item.1); [done|].
    destruct (n >=? item.2) eqn:Hge.
    + intros [= <-]. exists [], (item :: rest). split_and!; [done|done|].
      exists rest. split; [done|lia].
    + intros Hrest. destruct (IH _ Hrest) as (l1 & l2 & -> & Hl1 & Ho).
      exists (item :: l1), l2. split_and!; [done| |done].
      constructor; [lia|done].
Qed.

Lemma find_insert_before_colon_free n (l : list entry) :
  Forall (λ e, has_colon e.1 = false) l → ∃ o, find_insert_before n l = Ok o.
Proof.
  induction 1 as [|item rest Hitem _ IH]; simpl; [by eexists|].
  unfold split_score. rewrite Hitem.
  destruct (n >=? item.2); [by eexists|done].
Qed.

(** The shape of the list after a call that returns: the stale item is
    gone, the new item sits after the items with a strictly higher score and
    in front of the first item whose score is not higher, and ten items are
    kept. *)
Lemma update_top_list_Ok top pid n top' :
  update_top_list top pid n = (Ok tt, top') →
  ∃ l1 l2, lrem (pid, n - 1) top = l1 ++ l2 ∧
    Forall (λ e, n < e.2) l1 ∧
    (∀ e, head l2 = Some e → e.2 ≤ n) ∧
    top' = take 10 (l1 ++ (pid, n) :: l2).
Proof.
  unfold update_top_list.
  destruct (find_insert_before n (lrem (pid, n - 1) top)) as [o| |] eqn:Hfind;
    [|done..].
  destruct (find_insert_before_Ok _ _ _ Hfind) as (l1 & l2 & Hsplit & Hl1 & Ho).
  destruct o as [item|].
  - destruct Ho as (l2' & -> & Hitem). intros [= <-].
    exists l1, (item :: l2'). split_and!; [done|done| |].
    + by intros e [= <-].
    + rewrite Hsplit. unfold ltrim. rewrite linsert_before_app; [done|].
      intros Hin. rewrite Forall_forall in Hl1. specialize (Hl1 _ Hin). lia.
  - subst l2. intros [= <-]. exists l1, []. split_and!; [done|done|done|].
    rewrite Hsplit, app_nil_r. done.
Qed.

Lemma update_top_list_colon_free top pid n :
  Forall (λ e, has_colon e.1 = false) top → has_colon pid = false →
  ∃ top', update_top_list top pid n = (Ok tt, top') ∧
    Forall (λ e, has_colon e.1 = false) top'.
Proof.
  intros Htop Hpid.
  assert (Forall (λ e : entry, has_colon e.1 = false) (lrem (pid, n - 1) top))
    as Hrem.
  { rewrite Forall_forall in Htop. apply Forall_forall.
    intros e [_ He]%elem_of_lrem. by apply Htop. }
  destruct (find_insert_before_colon_free n _ Hrem) as [o Ho].
  destruct (update_top_list top pid n) as [r top'] eqn:Hup.
  assert (r = Ok tt) as ->.
  { unfold update_top_list in Hup. rewrite Ho in Hup.
    destruct o; by injection Hup as <- _. }
  exists top'. split; [done|].
  destruct (update_top_list_Ok _ _ _ _ Hup) as (l1 & l2 & Hsplit & _ & _ & ->).
  rewrite Hsplit in Hrem. apply Forall_app in Hrem as [H1 H2].
  apply Forall_take, Forall_app. split; [done|]. by constructor.
Qed.

Lemma top_list_ok_empty : top_list_ok (∅, []).
Proof.
  constructor; simpl.
  - constructor.
  - lia.
  - constructor.
  - by intros pid score ?%elem_of_nil.
  - by intros pid score ?%lookup_empty_Some.
Qed.

(** One update keeps the board in order. *)
Lemma bump_preserves b pid b' :
  top_list_ok b → bump b pid = (Ok tt, b') → top_list_ok b'.
Proof.
  destruct b as [c top]. intros [Hsorted Hcap Honce Hcur Hcomp]. simpl in *.
  unfold bump, incr. simpl.
  set (n := default 0 (c !! pid) + 1).
  destruct (update_top_list top pid n) as [r top'] eqn:Hup.
  intros [= -> <-].
  destruct (update_top_list_Ok _ _ _ _ Hup)
    as (l1 & l2 & Hsplit & Hl1 & Hl2 & ->).
  set (top1 := lrem (pid, n - 1) top) in *.
  assert (top1 `sublist_of` top) as Hsub by apply lrem_sublist.
  assert (∀ sc, (pid, sc) ∉ top1) as Hgone.
  { intros sc [Hne Hin]%elem_of_lrem. apply Hcur in Hin.
    subst n. rewrite Hin in Hne. simpl in Hne. apply Hne. f_equal. lia. }
  assert (StronglySorted desc (l1 ++ l2)) as Hs1.
  { rewrite <- Hsplit. by eapply StronglySorted_sublist. }
  set (full := l1 ++ (pid, n) :: l2).
  assert (StronglySorted desc full) as Hfull_sorted.
  { apply StronglySorted_app in Hs1 as (H12 & Hs_l1 & Hs_l2).
    apply StronglySorted_app. split_and!; [|done|].
    - intros x1 x2 Hx1 [->|Hx2]%elem_of_cons; [|by apply H12].
      rewrite Forall_forall in Hl1. specialize (Hl1 _ Hx1).
      unfold desc. simpl. lia.
    - apply StronglySorted_cons. split; [|done].
      destruct l2 as [|e0 l2']; [constructor|].
      specialize (Hl2 e0 eq_refl).
      apply StronglySorted_cons in Hs_l2 as [He0 _].
      constructor; [unfold desc; simpl; lia|].
      eapply Forall_impl; [exact He0|]. unfold desc. simpl. intros; lia. }
  assert (∀ e, e ∈ full ↔ e = (pid, n) ∨ e ∈ top1) as Hin_full.
  { intros e. unfold full. rewrite Hsplit, !elem_of_app, elem_of_cons. tauto. }
  assert (∀ q sc, (q, sc) ∈ full → <[pid := n]> c !! q = Some sc) as Hcur_full.
  { intros q sc [[= -> ->]|Hin]%Hin_full; [apply lookup_insert_eq|].
    destruct (decide (q = pid)) as [->|Hne]; [by apply Hgone in Hin|].
    rewrite lookup_insert_ne by done. apply Hcur. by eapply elem_of_sublist. }
  constructor; simpl.
  - eapply StronglySorted_sublist; [apply sublist_take|done].
  - rewrite length_take. lia.
  - apply (sublist_NoDup _ (full.*1)); [|rewrite fmap_take; apply sublist_take].
    unfold full. rewrite fmap_app, fmap_cons. simpl.
    assert (NoDup (l1.*1 ++ l2.*1)) as Hnd.
    { rewrite <- fmap_app, <- Hsplit.
      apply (sublist_NoDup _ (top.*1)); [done|by apply fmap_sublist]. }
    assert (pid ∉ (l1 ++ l2).*1) as Hpid.
    { intros ([q sc] & Heq & Hin)%list_elem_of_fmap. simpl in Heq. subst q.
      rewrite <- Hsplit in Hin. by apply Hgone in Hin. }
    rewrite fmap_app, elem_of_app in Hpid.
    apply NoDup_app in Hnd as (Hn1 & Hdisj & Hn2).
    apply NoDup_app. split_and!; [done| |].
    + intros x Hx [->|Hx2]%elem_of_cons; [tauto|]. by apply (Hdisj x).
    + apply NoDup_cons. split; [tauto|done].
  - intros q sc Hin. apply Hcur_full.
    eapply elem_of_sublist; [exact Hin|apply sublist_take].
  - intros q sc Hq Hnot. unfold listed in Hnot.
    assert (length full = S (length top1)) as Hlen_full.
    { unfold full. rewrite Hsplit, !length_app. simpl. lia. }
    assert (length top ≤ S (length top1))%nat as Hlen1.
    { apply lrem_length_NoDup. by eapply NoDup_fmap_1. }
    destruct (decide (q ∈ full.*1)) as [Hqin|Hqout].
    + apply list_elem_of_fmap in Hqin as ([q' sc'] & Heq & Hin).
      simpl in Heq. subst q'.
      pose proof (Hcur_full _ _ Hin) as Hsc. rewrite Hq in Hsc.
      injection Hsc as <-.
      rewrite <- (take_drop 10 full) in Hin, Hfull_sorted.
      apply elem_of_app in Hin as [Hin|Hin].
      { exfalso. apply Hnot. apply list_elem_of_fmap. by exists (q, sc). }
      split.
      * rewrite length_take.
        assert (length (drop 10 full) ≠ 0%nat) as Hdrop.
        { destruct (drop 10 full); [by apply elem_of_nil in Hin|done]. }
        rewrite length_drop in Hdrop. apply Nat.min_l.
        lia.
      * intros e He.
        apply (StronglySorted_app_1_elem_of _ _ _ _ _ Hfull_sorted He Hin).
    + assert (q ≠ pid) as Hne.
      { intros ->. apply Hqout. apply list_elem_of_fmap. exists (pid, n).
        split; [done|]. apply Hin_full. by left. }
      rewrite lookup_insert_ne in Hq by done.
      assert (¬ listed q top) as Hold.
      { intros ([q' sc'] & Heq & Hin)%list_elem_of_fmap. simpl in Heq. subst q'.
        apply Hqout. apply list_elem_of_fmap. exists (q, sc').
        split; [done|]. apply Hin_full. right.
        apply elem_of_lrem. split; [congruence|done]. }
      destruct (Hcomp _ _ Hq Hold) as [Hlen Hall].
      assert (∀ e, e ∈ top1 → sc ≤ e.2) as Hall1.
      { intros e He. apply Hall. by eapply elem_of_sublist. }
      split; [rewrite length_take; lia|].
      intros e [i [Hi Hlt]]%elem_of_take.
      unfold full in Hi. apply lookup_app_Some in Hi as [Hi|[Hge Hi]].
      * apply Hall1. rewrite Hsplit. apply elem_of_app. left.
        by eapply list_elem_of_lookup_2.
      * destruct (i - length l1)%nat as [|k] eqn:Hk; simpl in Hi.
        -- injection Hi as <-. simpl. destruct l2 as [|e0 l2'].
           ++ rewrite app_nil_r in Hsplit.
              destruct (decide ((pid, n - 1) ∈ top)) as [Hin|Hout].
              ** specialize (Hall _ Hin). simpl in Hall. lia.
              ** exfalso. unfold top1 in Hsplit.
                 rewrite lrem_absent in Hsplit by done. subst top. lia.
           ++ specialize (Hl2 e0 eq_refl).
              assert (e0 ∈ top1) as He0.
              { rewrite Hsplit. apply elem_of_app. right. by left. }
              specialize (Hall1 _ He0). lia.
        -- apply Hall1. rewrite Hsplit. apply elem_of_app. right.
           by eapply list_elem_of_lookup_2.
Qed.

Lemma bump_all_preserves pids : ∀ b b',
  top_list_ok b → bump_all b pids = (Ok tt, b') → top_list_ok b'.
Proof.
  induction pids as [|pid rest IH]; intros b b' Hb; simpl.
  - by intros [= <-].
  - destruct (bump b pid) as [[[]| |] b1] eqn:Hbump; [|done..].
    intros Hrest. eapply IH; [|done]. by eapply bump_preserves.
Qed.

Lemma bump_all_colon_free pids : ∀ b,
  Forall (λ e : entry, has_colon e.1 = false) b.2 →
  Forall (λ pid, has_colon pid = false) pids →
  ∃ b', bump_all b pids = (Ok tt, b').
Proof.
  induction pids as [|pid rest IH]; intros [c top] Htop Hpids; simpl in *.
  - by eexists.
  - apply Forall_cons in Hpids as [Hpid Hrest].
    unfold bump, incr. simpl.
    destruct (update_top_list_colon_free top pid (default 0 (c !! pid) + 1)
                Htop Hpid) as (top' & -> & Htop').
    by apply IH.
Qed.

(** Every run of leaderboard updates that returns leaves a board in order,
    and a run returns whenever no player id holds a colon. *)
Lemma bump_all_ok (pids : list string) :
  (Forall (λ pid, has_colon pid = false) pids →
   ∃ b, bump_all (∅, []) pids = (Ok tt, b)) ∧
  (∀ b, bump_all (∅, []) pids = (Ok tt, b) → top_list_ok b).
Proof.
  split.
  - intros Hpids. by apply bump_all_colon_free.
  - intros b Hrun. eapply bump_all_preserves; [|done]. apply top_list_ok_empty.
Qed.

(** On a board in order, a player that fewer than ten others match or beat
    is in the list, with its current score. *)
Lemma top_list_ok_lists_true_top b pid score :
  top_list_ok b → in_true_top b.1 pid score → (pid, score) ∈ b.2.
Proof.
  destruct b as [c top]. intros [_ _ Honce Hcur Hcomp] [Hpid Hfew]. simpl in *.
  destruct (decide (pid ∈ top.*1)) as [Hin|Hout].
  - apply list_elem_of_fmap in Hin as ([q sc] & Heq & Hin). simpl in Heq.
    subst q. pose proof (Hcur _ _ Hin) as Hsc. by simplify_eq.
  - exfalso. destruct (Hcomp _ _ Hpid Hout) as [Hlen Hall].
    specialize (Hfew (top.*1) Honce Hout).
    rewrite length_fmap in Hfew. enough (10 < 10)%nat by lia.
    rewrite <- Hlen at 1. apply Hfew.
    intros q ([q' sq] & Heq & Hin)%list_elem_of_fmap. simpl in Heq. subst q'.
    exists sq. split; [by apply Hcur|]. by apply (Hall (q, sq)).
Qed.

Example bump_all_ok_example :
  ∃ b, bump_all (∅, []) ["ann"; "bob"; "ann"; "cy"] = (Ok tt, b) ∧
       b.2 = [("ann", 2); ("cy", 1); ("bob", 1)] ∧ top_list_ok b.
Proof.
  eexists. split; [vm_compute; reflexivity|].
  split; [reflexivity|].
  apply (proj2 (bump_all_ok ["ann"; "bob"; "ann"; "cy"])).
  vm_compute. reflexivity.
Qed.

(** C3, as the code has it.  After an update that returns, every other item
    of the list whose score equals the new score, or is below it, has the new
    item ahead of it: the new item goes in front of the first item whose
    score is not higher, so it overtakes the items it ties with. *)
Theorem new_entry_ahead_of_ties top pid new_score top' i e :
  update_top_list top pid new_score = (Ok tt, top') →
  top' !! i = Some e → e.2 ≤ new_score → e ≠ (pid, new_score) →
  ∃ j, (j < i)%nat ∧ top' !! j = Some (pid, new_score).
Proof.
  intros Hup Hi Hscore Hother.
  destruct (update_top_list_Ok _ _ _ _ Hup) as (l1 & l2 & _ & Hl1 & _ & ->).
  apply lookup_take_Some in Hi as [Hi Hlt].
  apply lookup_app_Some in Hi as [Hi|[Hge Hi]].
  - apply list_elem_of_lookup_2 in Hi. rewrite Forall_forall in Hl1.
    specialize (Hl1 _ Hi). lia.
  - destruct (i - length l1)%nat as [|k] eqn:Hk; simpl in Hi; [congruence|].
    exists (length l1). split; [lia|].
    rewrite lookup_take_lt by lia.
    rewrite lookup_app_r by lia. by rewrite Nat.sub_diag.
Qed.

Lemma new_entry_ahead_of_ties_witness :
  ∃ j, (j < 1)%nat ∧ [("b", 1); ("a", 1)] !! j = Some ("b", 1).
Proof.
  apply (new_entry_ahead_of_ties [("a", 1)] "b" 1 _ 1%nat ("a", 1));
    [reflexivity|reflexivity|simpl; lia|discriminate].
Defined.

Lemma earlier_ties_overtaken :
  ¬ earlier_ties_stay_ahead [("a", 1)] "b" 1.
Proof.
  intros H.
  specialize (H [("b", 1); ("a", 1)] 1%nat 0%nat ("a", 1)).
  assert (1 < 0)%nat; [|lia].
  apply H; [reflexivity|by left|reflexivity|reflexivity|reflexivity].
Qed.

(** ** The least-common tracker *)

Lemma find_least_common_step_rescanned acc seen seq cnt :
  rescanned acc seen → 1 ≤ cnt →
  rescanned (find_least_common_step acc (seq, cnt)) (seen ++ [(seq, cnt)]).
Proof.
  destruct acc as [[m|] min_seqs]; unfold rescanned; simpl.
  - intros (Hmin & Hset & Hne) Hcnt.
    rewrite bool_decide_true by lia. simpl.
    destruct (cnt <? m) eqn:Hlt; simpl.
    + split_and!; [| |done].
      * intros s c [Hin|Hin%list_elem_of_singleton]%elem_of_app.
        -- specialize (Hmin _ _ Hin). lia.
        -- simplify_eq. lia.
      * intros s. rewrite list_elem_of_singleton, elem_of_app,
          list_elem_of_singleton. split; [intros ->; by right|].
        intros [Hin|?]; [|by simplify_eq]. specialize (Hmin _ _ Hin). lia.
    + destruct (decide (cnt = m)) as [->|Hne'].
      * rewrite bool_decide_true by done. simpl. split_and!.
        -- intros s c [Hin|Hin%list_elem_of_singleton]%elem_of_app.
           ++ by eapply Hmin.
           ++ simplify_eq. lia.
        -- intros s. rewrite !elem_of_app, !list_elem_of_singleton, Hset.
           split; intros [?|?]; auto; [subst; by right|].
           right. congruence.
        -- by destruct min_seqs.
      * rewrite bool_decide_false by congruence. simpl. split_and!; [| |done].
        -- intros s c [Hin|Hin%list_elem_of_singleton]%elem_of_app.
           ++ by eapply Hmin.
           ++ simplify_eq. lia.
        -- intros s. rewrite elem_of_app, list_elem_of_singleton, Hset.
           split; [auto|]. intros [?|?]; [done|congruence].
  - intros [-> ->] Hcnt. rewrite bool_decide_true by lia. simpl.
    split_and!; [| |done].
    + intros s c [= -> ->]%list_elem_of_singleton. lia.
    + intros s. rewrite !list_elem_of_singleton. split; [by intros ->|].
      by intros [= ->].
Qed.

Lemma find_least_common_fold keys : ∀ acc seen,
  Forall (λ k : string * Z, 1 ≤ k.2) keys → rescanned acc seen →
  rescanned (foldl find_least_common_step acc keys) (seen ++ keys).
Proof.
  induction keys as [|[seq cnt] keys IH]; intros acc seen Hpos Hacc; simpl.
  - by rewrite app_nil_r.
  - apply Forall_cons in Hpos as [Hcnt Hpos].
    rewrite (cons_middle _ seen keys), app_assoc. apply IH; [done|].
    by apply find_least_common_step_rescanned.
Qed.

(** The rescan finds the true minimum and everyone at the minimum. *)
Lemma find_least_common_seqs_spec keys :
  Forall (λ k : string * Z, 1 ≤ k.2) keys →
  rescanned (find_least_common_seqs keys) keys.
Proof.
  intros Hpos. unfold find_least_common_seqs.
  by apply (find_least_common_fold keys (None, []) []).
Qed.

(** In the rescan branch [new_min_seqs] non-empty goes with an integer
    [new_min_count], so the [SET] of the count key is well-formed. *)
Lemma find_least_some keys :
  Forall (λ k : string * Z, 1 ≤ k.2) keys →
  (find_least_common_seqs keys).2 ≠ [] →
  is_Some (find_least_common_seqs keys).1.
Proof.
  intros Hpos Hne. pose proof (find_least_common_seqs_spec keys Hpos) as Hs.
  unfold rescanned in Hs.
  destruct (find_least_common_seqs keys) as [[m|] l]; simpl in *; [done|].
  by destruct Hs.
Qed.

Lemma least_ok_empty : least_ok (∅, (None, ∅)).
Proof.
  constructor; simpl; done.
Qed.

(** One observation keeps the least tracker exact. *)
Lemma observe_least_preserves st seq :
  least_ok st → least_ok (observe_least st seq).
Proof.
  destruct st as [counts [lc ls]].
  intros [Hpos Hfresh Hmin Hset Hatt]. simpl in *.
  unfold observe_least, incr. simpl.
  set (new := default 0 (counts !! seq) + 1).
  set (counts' := <[seq := new]> counts).
  assert (counts' !! seq = Some new) as Hseq by apply lookup_insert_eq.
  assert (∀ s, s ≠ seq → counts' !! s = counts !! s) as Hother.
  { intros s Hne. unfold counts'. by rewrite lookup_insert_ne. }
  assert (counts !! seq = None ∧ new = 1 ∨
          ∃ c, counts !! seq = Some c ∧ new = c + 1 ∧ 1 ≤ c) as Hold.
  { unfold new. destruct (counts !! seq) as [c|] eqn:E; simpl; [|by left].
    right. exists c. split_and!; [done|done|by eapply Hpos]. }
  assert (∀ s c, counts' !! s = Some c → 1 ≤ c) as Hpos'.
  { intros s c. destruct (decide (s = seq)) as [->|Hne].
    - rewrite Hseq. intros [= <-]. destruct Hold as [[_ ->]|(c' & _ & -> & ?)]; lia.
    - rewrite Hother by done. apply Hpos. }
  unfold update_least_common_seqs. simpl.
  destruct lc as [m|]; simpl.
  2: { assert (∀ s, counts !! s = None) as Hnone.
       { intros s. destruct (counts !! s) as [c|] eqn:E; [|done].
         by destruct (Hmin _ _ E) as (? & [=] & _). }
       assert (new = 1) as Hnew1.
       { destruct Hold as [[_ ->]|(c & E & _)]; [done|]. by rewrite Hnone in E. }
       constructor; simpl; [exact Hpos'| | | |].
       - intros E. by apply insert_non_empty in E.
       - intros s c Hs. exists new. split; [done|]. apply Hpos' in Hs. lia.
       - intros s m' [= <-]. rewrite elem_of_singleton. split; [by intros ->|].
         intros Hs. destruct (decide (s = seq)); [done|].
         rewrite Hother, Hnone in Hs; done.
       - intros m' [= <-]. by exists seq. }
  destruct (Z.ltb_spec new m) as [Hlt|Hge].
  { (* a new global minimum: the sequence is new and the minimum was above 1 *)
    assert (counts !! seq = None ∧ new = 1) as [Hnone Hnew1].
    { destruct Hold as [?|(c & E & -> & _)]; [done|].
      destruct (Hmin _ _ E) as (? & [= <-] & ?). lia. }
    constructor; simpl; [exact Hpos'| | | |].
    - intros E. by apply insert_non_empty in E.
    - intros s c Hs. exists new. split; [done|]. apply Hpos' in Hs. lia.
    - intros s m' [= <-]. rewrite elem_of_singleton. split; [by intros ->|].
      intros Hs. destruct (decide (s = seq)); [done|].
      rewrite Hother in Hs by done.
      destruct (Hmin _ _ Hs) as (? & [= <-] & ?). lia.
    - intros m' [= <-]. by exists seq. }
  destruct (Z.eqb_spec new m) as [Heq|Hne].
  { (* a tie with the minimum: the sequence is new and the minimum is 1 *)
    assert (counts !! seq = None) as Hnone.
    { destruct Hold as [[? _]|(c & E & -> & _)]; [done|].
      destruct (Hmin _ _ E) as (? & [= <-] & ?). lia. }
    constructor; simpl; [exact Hpos'| | | |].
    - intros E. by apply insert_non_empty in E.
    - intros s c Hs. exists m. split; [done|].
      destruct (decide (s = seq)) as [->|Hne'].
      + rewrite Hseq in Hs. injection Hs as <-. lia.
      + rewrite Hother in Hs by done.
        by destruct (Hmin _ _ Hs) as (? & [= <-] & ?).
    - intros s m' [= <-]. rewrite elem_of_union, elem_of_singleton.
      destruct (decide (s = seq)) as [->|Hne'].
      + rewrite Hseq. split; [intros _; by f_equal|by left].
      + rewrite Hother by done. rewrite (Hset s m eq_refl). tauto.
    - intros m' [= <-]. exists seq. rewrite Hseq. by f_equal. }
  assert ((new >? m) = true) as -> by lia. simpl.
  destruct (decide (seq ∈ ls)) as [Hin|Hout].
  - (* the sequence leaves the minimum *)
    rewrite bool_decide_true by done.
    assert (counts !! seq = Some m) as Hm by by apply Hset.
    assert (new = m + 1) as Hnew.
    { destruct Hold as [[E _]|(c & E & -> & _)]; congruence. }
    destruct (decide (size (ls ∖ {[seq]}) = 0%nat)) as [Hempty|Hrest].
    + rewrite bool_decide_true by done.
      assert (Forall (λ k : string * Z, 1 ≤ k.2) (map_to_list counts')) as Hall.
      { apply Forall_forall. intros [s c] Hs%elem_of_map_to_list.
        by eapply Hpos'. }
      pose proof (find_least_common_seqs_spec _ Hall) as Hscan.
      destruct (find_least_common_seqs (map_to_list counts')) as [mc ms].
      unfold rescanned in Hscan. simpl in Hscan.
      destruct mc as [m'|].
      2: { destruct Hscan as [Hnil _].
           apply map_to_list_empty_iff in Hnil. by apply insert_non_empty in Hnil. }
      destruct Hscan as (Hleast & Hmembers & Hne_ms).
      destruct ms as [|x ms']; [done|].
      constructor; cbn [fst snd]; [exact Hpos'| | | |].
      * intros E. by apply insert_non_empty in E.
      * intros s c Hs. exists m'. split; [done|].
        eapply Hleast. by apply elem_of_map_to_list.
      * intros s m'' [= <-].
        rewrite elem_of_list_to_set, Hmembers. apply elem_of_map_to_list.
      * intros m'' [= <-].
        exists x. apply elem_of_map_to_list, Hmembers. by left.
    + rewrite bool_decide_false by done.
      constructor; simpl; [exact Hpos'| | | |].
      * intros E. by apply insert_non_empty in E.
      * intros s c Hs. exists m. split; [done|].
        destruct (decide (s = seq)) as [->|Hne'].
        -- rewrite Hseq in Hs. injection Hs as <-. lia.
        -- rewrite Hother in Hs by done.
           by destruct (Hmin _ _ Hs) as (? & [= <-] & ?).
      * intros s m' [= <-]. rewrite elem_of_difference, elem_of_singleton.
        destruct (decide (s = seq)) as [->|Hne'].
        -- rewrite Hseq. split; [tauto|]. intros [= E]. lia.
        -- rewrite Hother by done. rewrite (Hset s m eq_refl). tauto.
      * intros m' [= <-].
        apply size_non_empty_iff in Hrest.
        destruct (set_choose _ Hrest) as [s Hs].
        apply elem_of_difference in Hs as [Hs Hne'%not_elem_of_singleton].
        exists s. rewrite Hother by done. by apply Hset.
  - (* a sequence above the minimum moves further up *)
    rewrite bool_decide_false by done.
    assert (∃ c, counts !! seq = Some c ∧ new = c + 1 ∧ m < c) as (c & Hc & Hnew & Hmc).
    { destruct Hold as [[_ ->]|(c & E & -> & _)].
      - destruct (Hatt m eq_refl) as [s Hs]. apply Hpos in Hs. lia.
      - exists c. split_and!; [done|done|].
        destruct (Hmin _ _ E) as (? & [= <-] & ?).
        destruct (decide (c = m)) as [->|]; [|lia].
        exfalso. apply Hout. by apply (Hset seq m eq_refl). }
    constructor; simpl; [exact Hpos'| | | |].
    + intros E. by apply insert_non_empty in E.
    + intros s c' Hs. exists m. split; [done|].
      destruct (decide (s = seq)) as [->|Hne'].
      * rewrite Hseq in Hs. injection Hs as <-. lia.
      * rewrite Hother in Hs by done.
        by destruct (Hmin _ _ Hs) as (? & [= <-] & ?).
    + intros s m' [= <-].
      destruct (decide (s = seq)) as [->|Hne'].
      * rewrite Hseq. split; [done|]. intros [= E]. lia.
      * rewrite Hother by done. by apply Hset.
    + intros m' [= <-]. destruct (Hatt m eq_refl) as [s Hs].
      exists s. destruct (decide (s = seq)) as [->|Hne'].
      * rewrite Hc in Hs. injection Hs as ->. lia.
      * by rewrite Hother.
Qed.

(** When the observed sequence was the whole least set, the tracker is
    replaced by what the rescan of all counters returns. *)
Lemma observe_least_rescans st seq :
  least_ok st → st.2.2 = {[seq]} →
  (observe_least st seq).2 =
    let r := find_least_common_seqs (map_to_list (observe_least st seq).1) in
    (r.1, list_to_set r.2).
Proof.
  destruct st as [counts [lc ls]]. intros Hok Hls. simpl in *. subst ls.
  pose proof (observe_least_preserves _ seq Hok) as Hok'.
  destruct Hok as [Hpos Hfresh Hmin Hset Hatt]. simpl in *.
  destruct lc as [m|].
  2: { exfalso. assert (counts = ∅) as ->.
       { apply map_empty. intros s. destruct (counts !! s) as [c|] eqn:E; [|done].
         by destruct (Hmin _ _ E) as (? & [=] & _). }
       specialize (Hfresh eq_refl). apply (f_equal snd) in Hfresh.
       simpl in Hfresh. set_solver. }
  assert (counts !! seq = Some m) as Hm by (apply Hset; [done|set_solver]).
  unfold observe_least, incr in *. simpl in *. rewrite Hm in *. simpl in *.
  unfold update_least_common_seqs in *. simpl in *.
  assert ((m + 1 <? m) = false) as E1 by lia.
  assert ((m + 1 =? m) = false) as E2 by lia.
  assert ((m + 1 >? m) = true) as E3 by lia.
  rewrite E1, E2, E3 in *. simpl in *.
  rewrite bool_decide_true in * by set_solver.
  assert (size (({[seq]} : gset string) ∖ {[seq]}) = 0%nat) as E4.
  { apply size_empty_iff. set_solver. }
  rewrite bool_decide_true in * by done.
  destruct (find_least_common_seqs (map_to_list (<[seq := m + 1]> counts)))
    as [mc ms] eqn:Hscan.
  simpl. destruct ms as [|x ms']; [|done].
  exfalso. destruct Hok' as [_ _ _ Hset' Hatt']. simpl in *.
  destruct (Hatt' m eq_refl) as [s Hs].
  apply (Hset' s m eq_refl) in Hs. set_solver.
Qed.

(** ** Friend groups *)

(** *** Chains of games *)

Lemma played_sym links a b : played links a b → played links b a.
Proof. intros [draws [H|H]]; exists draws; auto. Qed.

Lemma played_snoc done draws pid1 pid2 a b :
  played (done ++ [(draws, (pid1, pid2))]) a b ↔
  played done a b ∨ (a = pid1 ∧ b = pid2) ∨ (a = pid2 ∧ b = pid1).
Proof.
  unfold played. split.
  - intros [d [H|H]]; apply elem_of_app in H as [H|H%list_elem_of_singleton].
    + left. exists d. by left.
    + right. left. by simplify_eq.
    + left. exists d. by right.
    + right. right. by simplify_eq.
  - intros [[d [H|H]]|[[-> ->]|[-> ->]]].
    + exists d. left. apply elem_of_app. by left.
    + exists d. right. apply elem_of_app. by left.
    + exists draws. left. apply elem_of_app. right. by left.
    + exists draws. right. apply elem_of_app. right. by left.
Qed.

Lemma chain_sym links a b : chain links a b → chain links b a.
Proof.
  unfold chain. induction 1 as [x y H|x y z H _ IH].
  - by apply tc_once, played_sym.
  - eapply tc_r; [exact IH|by apply played_sym].
Qed.

Lemma chain_mono done l a b : chain done a b → chain (done ++ [l]) a b.
Proof.
  unfold chain. induction 1 as [x y H|x y z H _ IH].
  - apply tc_once. destruct l as [d [p q]]. apply played_snoc. by left.
  - eapply tc_l; [|exact IH]. destruct l as [d [p q]]. apply played_snoc.
    by left.
Qed.

(** What one more game adds to the chains. *)
Lemma chain_snoc done draws pid1 pid2 a b :
  chain (done ++ [(draws, (pid1, pid2))]) a b ↔
  chain done a b ∨
  (near (chain done) pid1 pid2 a ∧ near (chain done) pid1 pid2 b).
Proof.
  set (l := (draws, (pid1, pid2))).
  assert (∀ x y, chain done x y → near (chain done) pid1 pid2 y →
                 near (chain done) pid1 pid2 x) as Hnear.
  { intros x y Hxy [->|[->|[H|H]]]; unfold near; [auto|auto|..].
    - right. right. left. by etrans.
    - right. right. right. by etrans. }
  split.
  - unfold chain at 1.
    assert (∀ x y, played (done ++ [l]) x y →
              chain done x y ∨
              (near (chain done) pid1 pid2 x ∧ near (chain done) pid1 pid2 y))
      as Hedge.
    { intros x y [H|[[-> ->]|[-> ->]]]%played_snoc.
      - left. by apply tc_once.
      - right. unfold near. auto.
      - right. unfold near. auto. }
    induction 1 as [x y H|x y z H _ IH]; [by apply Hedge|].
    destruct (Hedge _ _ H) as [Hxy|[Hx Hy]], IH as [Hyz|[Hy' Hz]].
    + left. by etrans.
    + right. split; [|done]. by eapply (Hnear x y).
    + right. split; [done|]. eapply (Hnear z y); [|done]. by apply chain_sym.
    + by right.
  - assert (chain (done ++ [l]) pid1 pid2) as H12.
    { apply tc_once, played_snoc. auto. }
    assert (chain (done ++ [l]) pid2 pid1) as H21 by by apply chain_sym.
    assert (∀ x, near (chain done) pid1 pid2 x →
                 x = pid1 ∨ chain (done ++ [l]) x pid1) as Hto.
    { intros x [->|[->|[H|H]]]; [by left|by right|..].
      - right. by apply chain_mono.
      - right. etrans; [by apply chain_mono|done]. }
    intros [H|[Ha Hb]]; [by apply chain_mono|].
    destruct (Hto _ Ha) as [->|Ha'], (Hto _ Hb) as [->|Hb'].
    + by etrans.
    + by apply chain_sym.
    + done.
    + etrans; [done|]. by apply chain_sym.
Qed.

(** *** Pointers and member sets *)

Lemma smembers_sadd `{Countable K} `{Countable V}
    (k k' : K) (v : V) (m : gmap K (gset V)) :
  smembers k (sadd k' v m) =
    if decide (k = k') then {[v]} ∪ smembers k m else smembers k m.
Proof.
  unfold smembers, sadd. case_decide as Hk.
  - subst. by rewrite lookup_insert_eq.
  - by rewrite lookup_insert_ne.
Qed.

Lemma repoint_lookup big members (ptr : gmap string fid) x :
  repoint big members ptr !! x =
    if decide (x ∈ members) then Some big else ptr !! x.
Proof.
  unfold repoint.
  assert (∀ l : list string,
    foldr (λ m acc, <[m := big]> acc) ptr l !! x =
      if decide (x ∈ l) then Some big else ptr !! x) as Hfold.
  { induction l as [|a l IH]; cbn [foldr].
    - destruct (decide (x ∈ [])) as [Hin|_]; [by apply elem_of_nil in Hin|done].
    - destruct (decide (x = a)) as [->|Hne].
      + rewrite lookup_insert_eq.
        destruct (decide (a ∈ a :: l)) as [_|Hout]; [done|].
        exfalso. apply Hout. by left.
      + rewrite lookup_insert_ne by done. rewrite IH.
        destruct (decide (x ∈ l)) as [Hin|Hout],
          (decide (x ∈ a :: l)) as [Hin'|Hout']; try done.
        * exfalso. apply Hout'. by right.
        * by apply elem_of_cons in Hin' as [?|?]. }
  rewrite Hfold.
  destruct (decide (x ∈ elements members)) as [Hin|Hout],
    (decide (x ∈ members)) as [Hin'|Hout']; try done.
  - by apply elem_of_elements in Hin.
  - by apply elem_of_elements in Hin'.
Qed.

Lemma new_fid_fresh draws (g : gmap fid (gset string)) gid :
  new_fid draws g = Some gid → smembers gid g = ∅.
Proof.
  induction draws as [|d draws IH]; simpl; [done|].
  unfold exists_set. destruct (decide (smembers d g = ∅)) as [He|Hne].
  - rewrite bool_decide_false by (intros Hn; by apply Hn). simpl.
    by intros [= <-].
  - rewrite bool_decide_true by done. simpl. apply IH.
Qed.

Lemma new_fid_finds draws (g : gmap fid (gset string)) d :
  d ∈ draws → exists_set d g = false → is_Some (new_fid draws g).
Proof.
  induction draws as [|d' draws IH]; simpl; [by intros ?%elem_of_nil|].
  intros Hd Hfree. destruct (exists_set d' g) eqn:E; simpl; [|by eexists].
  apply elem_of_cons in Hd as [->|Hd]; [congruence|]. by apply IH.
Qed.

Lemma friends_ok_empty : friends_ok no_friends.
Proof. constructor; simpl; [done|]. unfold smembers. set_solver. Qed.

(** Merging [small] into [big]: every pointer to [small] now points to
    [big], [big] holds both member sets, [small] is gone. *)
Lemma merge_groups_spec f big small pid :
  friends_ok f → big ≠ small → group_of f !! pid = Some small →
  let f' := merge_groups f big small in
  friends_ok f' ∧
  (∀ x, group_of f' !! x =
          if decide (group_of f !! x = Some small) then Some big
          else group_of f !! x) ∧
  smembers big (groups f') =
    smembers small (groups f) ∪ smembers big (groups f) ∧
  groups f' !! small = None ∧
  (∀ g, g ≠ big → g ≠ small → groups f' !! g = groups f !! g).
Proof.
  destruct f as [ptr G]. intros [Hpm Hmp] Hne Hpid. simpl in *.
  unfold merge_groups. simpl.
  assert (pid ∈ smembers small G) as Hin by by apply Hpm.
  rewrite bool_decide_true by set_solver.
  assert (∀ x, repoint big (smembers small G) ptr !! x =
            if decide (ptr !! x = Some small) then Some big else ptr !! x)
    as Hptr.
  { intros x. rewrite repoint_lookup.
    destruct (decide (x ∈ smembers small G)) as [Hx|Hx].
    - rewrite decide_True; [done|by apply Hmp].
    - rewrite decide_False; [done|]. intros Hx'. by apply Hx, Hpm. }
  assert (∀ g, smembers g
     (delete small (<[big := smembers small G ∪ smembers big G]> G)) =
     if decide (g = small) then ∅
     else if decide (g = big) then smembers small G ∪ smembers big G
     else smembers g G) as HG.
  { intros g. unfold smembers at 1.
    destruct (decide (g = small)) as [->|Hs].
    - by rewrite lookup_delete_eq.
    - rewrite lookup_delete_ne by done.
      destruct (decide (g = big)) as [->|Hb].
      + by rewrite lookup_insert_eq.
      + by rewrite lookup_insert_ne. }
  simpl. split_and!.
  - constructor; simpl.
    + intros x g. rewrite Hptr, HG.
      destruct (decide (ptr !! x = Some small)) as [Hx|Hx].
      * intros [= <-]. rewrite decide_False, decide_True by done.
        apply elem_of_union. left. by apply Hpm.
      * intros Hg. rewrite decide_False by congruence.
        destruct (decide (g = big)) as [->|Hb].
        -- apply elem_of_union. right. by apply Hpm.
        -- by apply Hpm.
    + intros x g. rewrite Hptr, HG.
      destruct (decide (g = small)) as [->|Hs]; [set_solver|].
      destruct (decide (g = big)) as [->|Hb].
      * intros [Hx|Hx]%elem_of_union.
        -- rewrite decide_True; [done|by apply Hmp].
        -- apply Hmp in Hx. rewrite decide_False; [done|congruence].
      * intros Hx%Hmp. rewrite decide_False; [done|congruence].
  - exact Hptr.
  - rewrite HG. rewrite decide_False, decide_True by done. done.
  - by rewrite lookup_delete_eq.
  - intros g Hb Hs. rewrite lookup_delete_ne, lookup_insert_ne by done. done.
Qed.

Lemma join_group_ok f gid newcomer :
  friends_ok f →
  (∀ g, group_of f !! newcomer = Some g → g = gid) →
  friends_ok {| groups := sadd gid newcomer (groups f);
                group_of := <[newcomer := gid]> (group_of f) |}.
Proof.
  destruct f as [ptr G]. intros [Hpm Hmp] Hnew. simpl in *.
  constructor; simpl; intros x g; rewrite smembers_sadd.
  - destruct (decide (x = newcomer)) as [->|Hne].
    + rewrite lookup_insert_eq. intros [= <-]. rewrite decide_True by done.
      set_solver.
    + rewrite lookup_insert_ne by done. intros Hx%Hpm.
      destruct (decide (g = gid)); set_solver.
  - destruct (decide (x = newcomer)) as [->|Hne].
    + rewrite lookup_insert_eq. destruct (decide (g = gid)) as [->|Hg]; [done|].
      intros Hx%Hmp. apply Hnew in Hx. congruence.
    + rewrite lookup_insert_ne by done.
      destruct (decide (g = gid)) as [->|Hg]; [|by apply Hmp].
      intros [Hx%elem_of_singleton|Hx]%elem_of_union; [done|by apply Hmp].
Qed.

(** The effect of one link on the pointers: the players the link touches
    all end up pointing at one group, and no one else points at it or
    moves. *)
Lemma update_friend_groups_link draws f pid1 pid2 f' :
  friends_ok f → update_friend_groups draws f pid1 pid2 = (Ok tt, f') →
  friends_ok f' ∧
  ∃ g, (∀ x, near (same_group f) pid1 pid2 x → group_of f' !! x = Some g) ∧
       (∀ x, ¬ near (same_group f) pid1 pid2 x →
          group_of f' !! x = group_of f !! x ∧ group_of f !! x ≠ Some g).
Proof.
  intros Hok. pose proof Hok as [Hpm Hmp].
  unfold update_friend_groups, near, same_group.
  destruct (group_of f !! pid1) as [fid1|] eqn:E1,
    (group_of f !! pid2) as [fid2|] eqn:E2.
  - destruct (decide (fid1 = fid2)) as [->|Hne].
    { intros [= <-]. split; [done|]. exists fid2. split.
      - intros x [->|[->|[(g & Hx & Hp)|(g & Hx & Hp)]]]; congruence.
      - intros x Hx. split; [done|]. intros Hg. apply Hx.
        right. right. left. by exists fid2. }
    destruct (bool_decide _); intros [= <-].
    + destruct (merge_groups_spec f fid1 fid2 pid2 Hok Hne E2)
        as (Hok' & Hptr & _).
      split; [done|]. exists fid1. split.
      * intros x Hx. rewrite Hptr.
        destruct (decide (group_of f !! x = Some fid2)) as [|Hn]; [done|].
        destruct Hx as [->|[->|[(g & Hx & Hp)|(g & Hx & Hp)]]]; congruence.
      * intros x Hx.
        assert (group_of f !! x ≠ Some fid1) as H1.
        { intros Hg. apply Hx. right. right. left. by exists fid1. }
        assert (group_of f !! x ≠ Some fid2) as H2.
        { intros Hg. apply Hx. right. right. right. by exists fid2. }
        rewrite Hptr. by rewrite decide_False.
    + assert (fid2 ≠ fid1) as Hne' by congruence.
      destruct (merge_groups_spec f fid2 fid1 pid1 Hok Hne' E1)
        as (Hok' & Hptr & _).
      split; [done|]. exists fid2. split.
      * intros x Hx. rewrite Hptr.
        destruct (decide (group_of f !! x = Some fid1)) as [|Hn]; [done|].
        destruct Hx as [->|[->|[(g & Hx & Hp)|(g & Hx & Hp)]]]; congruence.
      * intros x Hx.
        assert (group_of f !! x ≠ Some fid1) as H1.
        { intros Hg. apply Hx. right. right. left. by exists fid1. }
        assert (group_of f !! x ≠ Some fid2) as H2.
        { intros Hg. apply Hx. right. right. right. by exists fid2. }
        rewrite Hptr. by rewrite decide_False.
  - intros [= <-]. split.
    { apply join_group_ok; [done|]. intros g. by rewrite E2. }
    exists fid1. simpl. split.
    + intros x [->|[->|[(g & Hx & Hp)|(g & Hx & Hp)]]].
      * rewrite lookup_insert_ne by congruence. done.
      * apply lookup_insert_eq.
      * rewrite lookup_insert_ne by congruence. congruence.
      * done.
    + intros x Hx.
      assert (x ≠ pid2) as Hne by (intros ->; apply Hx; auto).
      rewrite lookup_insert_ne by done. split; [done|].
      intros Hg. apply Hx. right. right. left. by exists fid1.
  - intros [= <-]. split.
    { apply join_group_ok; [done|]. intros g. by rewrite E1. }
    exists fid2. simpl. split.
    + intros x [->|[->|[(g & Hx & Hp)|(g & Hx & Hp)]]].
      * apply lookup_insert_eq.
      * rewrite lookup_insert_ne by congruence. done.
      * done.
      * rewrite lookup_insert_ne by congruence. congruence.
    + intros x Hx.
      assert (x ≠ pid1) as Hne by (intros ->; apply Hx; auto).
      rewrite lookup_insert_ne by done. split; [done|].
      intros Hg. apply Hx. right. right. right. by exists fid2.
  - destruct (new_fid draws (groups f)) as [gid|] eqn:Hnew; [|done].
    intros [= <-]. apply new_fid_fresh in Hnew.
    assert (∀ x, group_of f !! x ≠ Some gid) as Hfresh.
    { intros x Hx%Hpm. rewrite Hnew in Hx. set_solver. }
    split.
    { pose proof (join_group_ok f gid pid1 Hok) as Hok1.
      apply (join_group_ok _ gid pid2 (Hok1 ltac:(intros g; by rewrite E1))).
      simpl. intros g. destruct (decide (pid2 = pid1)) as [->|Hne].
      - rewrite lookup_insert_eq. congruence.
      - rewrite lookup_insert_ne by done. by rewrite E2. }
    exists gid. simpl. split.
    + intros x [->|[->|[(g & Hx & Hp)|(g & Hx & Hp)]]]; [|by apply lookup_insert_eq|done|done].
      destruct (decide (pid2 = pid1)) as [->|Hne]; [by apply lookup_insert_eq|].
      rewrite lookup_insert_ne by done. apply lookup_insert_eq.
    + intros x Hx.
      assert (x ≠ pid1) as Hne1 by (intros ->; apply Hx; auto).
      assert (x ≠ pid2) as Hne2 by (intros ->; apply Hx; auto).
      rewrite !lookup_insert_ne by done. done.
Qed.

Lemma near_dec f pid1 pid2 x :
  near (same_group f) pid1 pid2 x ∨ ¬ near (same_group f) pid1 pid2 x.
Proof.
  unfold near, same_group.
  destruct (decide (x = pid1)) as [|N1]; [auto|].
  destruct (decide (x = pid2)) as [|N2]; [auto|].
  destruct (group_of f !! x) as [g|] eqn:Ex.
  - destruct (decide (group_of f !! pid1 = Some g)) as [|N3].
    { left. right. right. left. by exists g. }
    destruct (decide (group_of f !! pid2 = Some g)) as [|N4].
    { left. right. right. right. by exists g. }
    right. intros [?|[?|[(g' & Hx & Hp)|(g' & Hx & Hp)]]]; congruence.
  - right. intros [?|[?|[(g' & Hx & Hp)|(g' & Hx & Hp)]]]; congruence.
Qed.

Lemma same_group_link draws f pid1 pid2 f' a b :
  friends_ok f → update_friend_groups draws f pid1 pid2 = (Ok tt, f') →
  same_group f' a b ↔
  same_group f a b ∨
  (near (same_group f) pid1 pid2 a ∧ near (same_group f) pid1 pid2 b).
Proof.
  intros Hok Hstep.
  destruct (update_friend_groups_link _ _ _ _ _ Hok Hstep)
    as (_ & g & Hnear & Hfar).
  assert (∀ x y, same_group f x y → near (same_group f) pid1 pid2 x →
                 near (same_group f) pid1 pid2 y) as Hclosed.
  { intros x y (gx & Hx & Hy) Hn. unfold near, same_group in *.
    destruct Hn as [->|[->|[(g' & Hx' & Hp)|(g' & Hx' & Hp)]]].
    - right. right. left. by exists gx.
    - right. right. right. by exists gx.
    - right. right. left. exists gx. split; [done|congruence].
    - right. right. right. exists gx. split; [done|congruence]. }
  assert (∀ x y, same_group f x y → same_group f y x) as Hsym.
  { intros x y (gx & Hx & Hy). by exists gx. }
  split.
  - intros (g' & Ha & Hb).
    destruct (near_dec f pid1 pid2 a) as [Hna|Hna],
      (near_dec f pid1 pid2 b) as [Hnb|Hnb].
    + by right.
    + rewrite (Hnear _ Hna) in Ha. destruct (Hfar _ Hnb) as [Hb' Hb''].
      congruence.
    + rewrite (Hnear _ Hnb) in Hb. destruct (Hfar _ Hna) as [Ha' Ha''].
      congruence.
    + left. destruct (Hfar _ Hna) as [Ha' _], (Hfar _ Hnb) as [Hb' _].
      exists g'. split; congruence.
  - intros [Hsame|[Hna Hnb]].
    + destruct (near_dec f pid1 pid2 a) as [Hna|Hna].
      * exists g. split; [by apply Hnear|]. apply Hnear. by eapply Hclosed.
      * assert (¬ near (same_group f) pid1 pid2 b) as Hnb.
        { intros Hnb. apply Hna. eapply Hclosed; [|done]. by apply Hsym. }
        destruct Hsame as (g' & Ha & Hb).
        destruct (Hfar _ Hna) as [Ha' _], (Hfar _ Hnb) as [Hb' _].
        exists g'. split; congruence.
    + exists g. split; by apply Hnear.
Qed.

Lemma chain_nil a b : ¬ chain [] a b.
Proof.
  unfold chain.
  induction 1 as [x y [d [H|H]]|]; [by apply elem_of_nil in H..|done].
Qed.

Lemma link_all_chain rest : ∀ f done f',
  friends_ok f → (∀ a b, same_group f a b ↔ chain done a b) →
  link_all f rest = (Ok tt, f') →
  friends_ok f' ∧ ∀ a b, same_group f' a b ↔ chain (done ++ rest) a b.
Proof.
  induction rest as [|[draws [pid1 pid2]] rest IH];
    intros f done f' Hok Hsame; simpl.
  - intros [= <-]. by rewrite app_nil_r.
  - destruct (update_friend_groups draws f pid1 pid2) as [[[]| |] f1] eqn:Hstep;
      [|done..].
    intros Hrest. rewrite cons_middle, app_assoc.
    eapply IH; [| |exact Hrest].
    + by destruct (update_friend_groups_link _ _ _ _ _ Hok Hstep).
    + intros a b.
      rewrite (same_group_link _ _ _ _ _ a b Hok Hstep), chain_snoc.
      unfold near. by setoid_rewrite Hsame.
Qed.

Lemma linked_chain links f :
  link_all no_friends links = (Ok tt, f) →
  friends_ok f ∧ ∀ a b, same_group f a b ↔ chain links a b.
Proof.
  intros Hrun.
  apply (link_all_chain links no_friends [] f); [apply friends_ok_empty| |done].
  intros a b. split.
  - by intros (g & Ha & _).
  - by intros ?%chain_nil.
Qed.

Lemma update_friend_groups_keeps_members draws f pid1 pid2 f' g :
  friends_ok f → update_friend_groups draws f pid1 pid2 = (Ok tt, f') →
  ∃ g', smembers g (groups f) ⊆ smembers g' (groups f').
Proof.
  intros Hok. unfold update_friend_groups.
  destruct (group_of f !! pid1) as [fid1|] eqn:E1,
    (group_of f !! pid2) as [fid2|] eqn:E2.
  - destruct (decide (fid1 = fid2)) as [->|Hne]; [intros [= <-]; by exists g|].
    destruct (bool_decide _); intros [= <-].
    + destruct (merge_groups_spec f fid1 fid2 pid2 Hok Hne E2)
        as (_ & _ & Hbig & _ & Hrest).
      destruct (decide (g = fid2)) as [->|H2]; [exists fid1; set_solver|].
      destruct (decide (g = fid1)) as [->|H1]; [exists fid1; set_solver|].
      exists g. unfold smembers. by rewrite Hrest.
    + assert (fid2 ≠ fid1) as Hne' by congruence.
      destruct (merge_groups_spec f fid2 fid1 pid1 Hok Hne' E1)
        as (_ & _ & Hbig & _ & Hrest).
      destruct (decide (g = fid1)) as [->|H1]; [exists fid2; set_solver|].
      destruct (decide (g = fid2)) as [->|H2]; [exists fid2; set_solver|].
      exists g. unfold smembers. by rewrite Hrest.
  - intros [= <-]. exists g. simpl. rewrite smembers_sadd.
    destruct (decide (g = fid1)); set_solver.
  - intros [= <-]. exists g. simpl. rewrite smembers_sadd.
    destruct (decide (g = fid2)); set_solver.
  - destruct (new_fid draws (groups f)) as [gid|]; [|done].
    intros [= <-]. exists g. simpl. rewrite !smembers_sadd.
    destruct (decide (g = gid)); set_solver.
Qed.

Lemma update_friend_groups_returns draws f pid1 pid2 d :
  d ∈ draws → exists_set d (groups f) = false →
  ∃ f', update_friend_groups draws f pid1 pid2 = (Ok tt, f').
Proof.
  intros Hd Hfree. unfold update_friend_groups.
  destruct (group_of f !! pid1) as [fid1|], (group_of f !! pid2) as [fid2|];
    [|by eexists..|].
  - destruct (decide (fid1 = fid2)); [by eexists|].
    destruct (bool_decide _); by eexists.
  - destruct (new_fid_finds draws (groups f) d Hd Hfree) as [gid ->].
    by eexists.
Qed.

(** C4. For every serial run of links that returns, two players are in the
    same friend group exactly when a chain of recorded games connects them.
    A link between players of two different groups returns, and merges the
    group that is not the larger one into the other: the larger group gets
    both member sets, every migrated member points at it, and the member set
    of the smaller group is deleted.  No link makes a member set shrink other
    than by merging it whole into another one.  A link returns as soon as
    one of its draws is not yet a group key. *)
Theorem friend_groups_invariant :
  (∀ links f, link_all no_friends links = (Ok tt, f) →
     ∀ a b, same_group f a b ↔ chain links a b) ∧
  (∀ f draws pid1 pid2 fid1 fid2, linked f →
     group_of f !! pid1 = Some fid1 → group_of f !! pid2 = Some fid2 →
     fid1 ≠ fid2 →
     let size1 := size (smembers fid1 (groups f)) in
     let size2 := size (smembers fid2 (groups f)) in
     let big := if bool_decide (size2 ≤ size1)%nat then fid1 else fid2 in
     let small := if bool_decide (size2 ≤ size1)%nat then fid2 else fid1 in
     ∃ f', update_friend_groups draws f pid1 pid2 = (Ok tt, f') ∧
       (size (smembers small (groups f)) ≤ size (smembers big (groups f)))%nat ∧
       smembers big (groups f') =
         smembers small (groups f) ∪ smembers big (groups f) ∧
       (∀ m, m ∈ smembers small (groups f) → group_of f' !! m = Some big) ∧
       groups f' !! small = None) ∧
  (∀ f draws pid1 pid2 f' g, linked f →
     update_friend_groups draws f pid1 pid2 = (Ok tt, f') →
     ∃ g', smembers g (groups f) ⊆ smembers g' (groups f')) ∧
  (∀ f draws pid1 pid2 d, d ∈ draws → exists_set d (groups f) = false →
     ∃ f', update_friend_groups draws f pid1 pid2 = (Ok tt, f')).
Proof.
  split_and!.
  - intros links f Hrun. by apply linked_chain.
  - intros f draws pid1 pid2 fid1 fid2 [links Hrun] E1 E2 Hne.
    apply linked_chain in Hrun as [Hok _]. pose proof Hok as [Hpm Hmp].
    unfold update_friend_groups. rewrite E1, E2.
    rewrite decide_False by done. simpl.
    destruct (bool_decide_reflect
                (size (smembers fid2 (groups f))
                   ≤ size (smembers fid1 (groups f)))%nat) as [Hle|Hgt].
    + destruct (merge_groups_spec f fid1 fid2 pid2 Hok Hne E2)
        as (_ & Hptr & Hbig & Hgone & _).
      eexists. split; [done|]. split_and!; [done|done| |done].
      intros m Hm%Hmp. rewrite Hptr. by rewrite decide_True.
    + assert (fid2 ≠ fid1) as Hne' by congruence.
      destruct (merge_groups_spec f fid2 fid1 pid1 Hok Hne' E1)
        as (_ & Hptr & Hbig & Hgone & _).
      eexists. split; [done|]. split_and!; [lia|done| |done].
      intros m Hm%Hmp. rewrite Hptr. by rewrite decide_True.
  - intros f draws pid1 pid2 f' g [links Hrun] Hstep.
    apply linked_chain in Hrun as [Hok _].
    by eapply update_friend_groups_keeps_members.
  - intros f draws pid1 pid2 d Hd Hfree.
    by eapply update_friend_groups_returns.
Qed.

Lemma friend_groups_invariant_witness :
  ∃ f,
    link_all no_friends [([7%N], ("a", "b")); ([8%N], ("b", "c"))] = (Ok tt, f) ∧
    (same_group f "a" "c" ↔
     chain [([7%N], ("a", "b")); ([8%N], ("b", "c"))] "a" "c").
Proof.
  eexists. split; [vm_compute; reflexivity|].
  apply (proj1 friend_groups_invariant). vm_compute. reflexivity.
Defined.

(** ** Calls against the store: what a call leaves alone *)

Section Keeps.
Context {A : Type} (get : Store → A).

Lemma keeps_ret {B} (b : B) : keeps get (ret b).
Proof. by intros s. Qed.

Lemma keeps_raise {B} e : keeps get (raise (A := B) e).
Proof. by intros s. Qed.

Lemma keeps_read {B} (f : Store → B) : keeps get (read f).
Proof. by intros s. Qed.

Lemma keeps_lift_result {B} (r : result B) : keeps get (lift_result r).
Proof. by intros s. Qed.

Lemma keeps_modify f : (∀ s, get (f s) = get s) → keeps get (modify f).
Proof. intros Hf s. apply Hf. Qed.

Lemma keeps_bind {B C} (m : M B) (k : B → M C) :
  keeps get m → (∀ b, keeps get (k b)) → keeps get (bind m k).
Proof.
  intros Hm Hk s. unfold bind. specialize (Hm s).
  destruct (m s) as [[b| |] s1]; simpl in *; [|done..].
  by rewrite Hk.
Qed.

Lemma keeps_for_each {B} (l : list B) body :
  (∀ x, keeps get (body x)) → keeps get (for_each l body).
Proof.
  intros Hbody. induction l as [|x l IH]; simpl; [apply keeps_ret|].
  by apply keeps_bind.
Qed.

Lemma keeps_INCR `{Countable K} (g : Store → gmap K Z) on (k : K) :
  (∀ f s, get (on f s) = get s) → keeps get (INCR g on k).
Proof. intros Hon s. unfold INCR, incr. simpl. apply Hon. Qed.

Lemma keeps_SADD g on v :
  (∀ f s, get (on f s) = get s) → keeps get (SADD g on v).
Proof. intros Hon s. unfold SADD. simpl. apply Hon. Qed.

Lemma keeps_update_top_list_at list_key pid new_score :
  (∀ k top s, get (top_put k top s) = get s) →
  keeps get (update_top_list_at list_key pid new_score).
Proof.
  intros Hput s. unfold update_top_list_at.
  destruct (update_top_list _ _ _) as [r top]. simpl. apply Hput.
Qed.

Lemma keeps_update_friend_groups_at draws pid1 pid2 :
  (∀ f s, get (on_PLAYER_FRIEND_GROUP f s) = get s) →
  (∀ f s, get (on_GLOBAL_FRIEND_GROUP f s) = get s) →
  keeps get (update_friend_groups_at draws pid1 pid2).
Proof.
  intros H1 H2 s. unfold update_friend_groups_at.
  destruct (update_friend_groups _ _ _ _) as [r f]. simpl.
  by rewrite H1, H2.
Qed.
End Keeps.

(** Closes a goal [keeps get m] when no write of [m] reaches [get]. *)
Ltac keeps_step :=
  first
    [ apply keeps_ret | apply keeps_raise | apply keeps_read
    | apply keeps_lift_result
    | apply keeps_bind; [|intros ?]
    | apply keeps_for_each; intros ?
    | apply keeps_modify; intros ?; reflexivity
    | apply keeps_INCR; intros ? ?; reflexivity
    | apply keeps_SADD; intros ? ?; reflexivity
    | apply keeps_update_top_list_at; intros [] ? ?; reflexivity
    | apply keeps_update_friend_groups_at; intros ? ?; reflexivity
    | match goal with |- keeps _ (if ?b then _ else _) => destruct b end
    | match goal with |- keeps _ (match ?l with [] => _ | _ :: _ => _ end) =>
        destruct l end
    | match goal with
      | |- keeps _ (match ?o with Some _ => _ | None => _ end) => destruct o
      end ].
Ltac keeps_tac := repeat keeps_step.


Lemma bind_Ok {B C} (m : M B) (k : B → M C) s c s' :
  bind m k s = (Ok c, s') → ∃ b s1, m s = (Ok b, s1) ∧ k b s1 = (Ok c, s').
Proof.
  unfold bind. destruct (m s) as [[b| |] s1]; [|done..]. intros Hk.
  by exists b, s1.
Qed.

Lemma keeps_run {A B} (get : Store → A) (m : M B) s r s' :
  keeps get m → m s = (r, s') → get s' = get s.
Proof. intros Hm Hrun. specialize (Hm s). by rewrite Hrun in Hm. Qed.

(** *** The identity registry *)

Lemma assert_game_is_new_run gid s :
  assert_game_is_new gid s =
    (if bool_decide (gid ∈ games_ids s)
     then Raise (BoardGameClubNotUniqueError
                   ("game_id " +:+ gid +:+ " is already taken"))
     else Ok tt,
     on_GLOBAL_GAMES_IDS (λ members, {[gid]} ∪ members) s).
Proof.
  unfold assert_game_is_new, bind, SADD, games_ids. simpl.
  by destruct (bool_decide _).
Qed.

Lemma assert_player_is_new_run pid s :
  assert_player_is_new pid s =
    (if bool_decide (pid ∈ players_ids s)
     then Raise (BoardGameClubNotUniqueError
                   ("user_id " +:+ pid +:+ " is already taken"))
     else Ok tt,
     on_GLOBAL_PLAYERS_IDS (λ members, {[pid]} ∪ members) s).
Proof.
  unfold assert_player_is_new, bind, SADD, players_ids. simpl.
  by destruct (bool_decide _).
Qed.

Lemma reserve_again gid s :
  gid ∈ games_ids s → on_GLOBAL_GAMES_IDS (λ members, {[gid]} ∪ members) s = s.
Proof.
  destruct s as [p g [emails pids gids groups sgames scount ocount] a].
  unfold games_ids, on_GLOBAL_GAMES_IDS. simpl. intros Hin.
  do 2 f_equal. set_solver.
Qed.

Lemma record_game_keeps_games_ids draws r moves :
  keeps games_ids (record_game draws r moves).
Proof.
  unfold record_game, update_player_keys, observe_player_opening,
    update_game_keys, update_common_seqs, update_most_common_seqs_at,
    update_least_common_seqs_at, update_shortest_game,
    update_most_freq_opening.
  keeps_tac.
Qed.

Lemma add_game_record_keeps_players_ids draws r :
  keeps players_ids (add_game_record draws r).
Proof.
  unfold add_game_record, assert_game_is_new, record_game, update_player_keys,
    observe_player_opening, update_game_keys, update_common_seqs,
    update_most_common_seqs_at, update_least_common_seqs_at,
    update_shortest_game, update_most_freq_opening.
  keeps_tac.
Qed.

Lemma add_schedule_keeps_players_ids schedule :
  keeps players_ids (add_schedule schedule).
Proof. unfold add_schedule, assert_game_is_new. keeps_tac. Qed.

Lemma add_player_keeps_games_ids p : keeps games_ids (add_player p).
Proof. unfold add_player, assert_player_is_new. keeps_tac. Qed.

Lemma add_game_record_reserves draws r s :
  games_ids (add_game_record draws r s).2 = {[game_id r]} ∪ games_ids s.
Proof.
  unfold add_game_record, bind at 1. rewrite assert_game_is_new_run.
  destruct (bool_decide _); [done|].
  match goal with |- games_ids (?m ?s1).2 = _ =>
    assert (keeps games_ids m) as Hk end.
  { apply keeps_bind; [apply keeps_lift_result|].
    intros moves. apply record_game_keeps_games_ids. }
  by rewrite Hk.
Qed.

Lemma add_schedule_reserves schedule s :
  games_ids (add_schedule schedule s).2 =
    {[schedule_game_id schedule]} ∪ games_ids s.
Proof.
  unfold add_schedule, bind at 1. rewrite assert_game_is_new_run.
  destruct (bool_decide _); [done|].
  match goal with |- games_ids (?m ?s1).2 = _ =>
    assert (keeps games_ids m) as Hk end.
  { keeps_tac. }
  by rewrite Hk.
Qed.

(** A reserved game id stays reserved. *)
Lemma serve_all_keeps_reserved qs : ∀ s gid,
  gid ∈ games_ids s → gid ∈ games_ids (serve_all qs s).
Proof.
  induction qs as [|q qs IH]; intros s gid Hin; simpl; [done|].
  apply IH. destruct q as [p|schedule|draws r]; simpl.
  - by rewrite add_player_keeps_games_ids.
  - rewrite add_schedule_reserves. set_solver.
  - rewrite add_game_record_reserves. set_solver.
Qed.

Lemma add_game_record_duplicate draws r s :
  game_id r ∈ games_ids s →
  add_game_record draws r s =
    (Raise (BoardGameClubNotUniqueError
              ("game_id " +:+ game_id r +:+ " is already taken")), s).
Proof.
  intros Hin. unfold add_game_record, bind at 1.
  rewrite assert_game_is_new_run, bool_decide_true by done.
  by rewrite reserve_again.
Qed.

Lemma add_schedule_duplicate schedule s :
  schedule_game_id schedule ∈ games_ids s →
  add_schedule schedule s =
    (Raise (BoardGameClubNotUniqueError
              ("game_id " +:+ schedule_game_id schedule +:+ " is already taken")),
     s).
Proof.
  intros Hin. unfold add_schedule, bind at 1.
  rewrite assert_game_is_new_run, bool_decide_true by done.
  by rewrite reserve_again.
Qed.

(** C5. A game record whose id is already reserved makes [add_game_record]
    raise [BoardGameClubNotUniqueError], and the store after the call is the
    store before it, key for key. *)
Theorem duplicate_game_id_rejected draws game_record s :
  game_id game_record ∈ games_ids s →
  ∃ msg,
    add_game_record draws game_record s =
      (Raise (BoardGameClubNotUniqueError msg), s).
Proof. intros Hin. eexists. by apply add_game_record_duplicate. Qed.

Lemma duplicate_game_id_rejected_witness :
  ∃ msg,
    add_game_record [9%N] game_g1_again store_A =
      (Raise (BoardGameClubNotUniqueError msg), store_A).
Proof.
  apply (duplicate_game_id_rejected [9%N] game_g1_again store_A).
  vm_compute. reflexivity.
Defined.

Lemma add_player_run p s :
  (add_player p s).1 =
    if bool_decide (user_id p ∈ players_ids s)
    then Raise (BoardGameClubNotUniqueError
                  ("user_id " +:+ user_id p +:+ " is already taken"))
    else Ok tt.
Proof.
  unfold add_player, bind at 1. rewrite assert_player_is_new_run.
  by destruct (bool_decide _).
Qed.

(** C10. Schedules and game records reserve their ids in one registry:
    once [add_schedule] has run with a game id, every later
    [add_game_record] with that id raises [BoardGameClubNotUniqueError], and
    the same the other way round.  Players have a registry of their own:
    [add_player] raises exactly when the user id is in the players' registry,
    and neither [add_schedule] nor [add_game_record] ever writes to that
    registry. *)
Theorem game_ids_shared_player_ids_apart :
  (∀ schedule s qs draws game_record,
     game_id game_record = schedule_game_id schedule →
     ∃ msg,
       (add_game_record draws game_record
          (serve_all qs (add_schedule schedule s).2)).1 =
         Raise (BoardGameClubNotUniqueError msg)) ∧
  (∀ draws game_record s qs schedule,
     schedule_game_id schedule = game_id game_record →
     ∃ msg,
       (add_schedule schedule
          (serve_all qs (add_game_record draws game_record s).2)).1 =
         Raise (BoardGameClubNotUniqueError msg)) ∧
  (∀ p s,
     (add_player p s).1 =
       if bool_decide (user_id p ∈ players_ids s)
       then Raise (BoardGameClubNotUniqueError
                     ("user_id " +:+ user_id p +:+ " is already taken"))
       else Ok tt) ∧
  (∀ schedule s, players_ids (add_schedule schedule s).2 = players_ids s) ∧
  (∀ draws game_record s,
     players_ids (add_game_record draws game_record s).2 = players_ids s).
Proof.
  split_and!.
  - intros schedule s qs draws r Hid. eexists.
    rewrite add_game_record_duplicate; [done|].
    apply serve_all_keeps_reserved. rewrite add_schedule_reserves, Hid.
    set_solver.
  - intros draws r s qs schedule Hid. eexists.
    rewrite add_schedule_duplicate; [done|].
    apply serve_all_keeps_reserved. rewrite add_game_record_reserves, Hid.
    set_solver.
  - apply add_player_run.
  - intros schedule s. apply add_schedule_keeps_players_ids.
  - intros draws r s. apply add_game_record_keeps_players_ids.
Qed.

Lemma game_ids_shared_player_ids_apart_witness :
  (add_schedule pairing_h1 empty_store).1 = Ok tt ∧
  (add_player {| user_id := "h1"; email := "h1@club.org" |}
     (add_schedule pairing_h1 empty_store).2).1 = Ok tt ∧
  ∃ msg,
    (add_game_record [5%N] game_h1
       (serve_all [AddPlayer {| user_id := "h1"; email := "h1@club.org" |}]
          (add_schedule pairing_h1 empty_store).2)).1 =
      Raise (BoardGameClubNotUniqueError msg).
Proof.
  split; [vm_compute; reflexivity|]. split; [vm_compute; reflexivity|].
  apply (proj1 game_ids_shared_player_ids_apart pairing_h1 empty_store
           [AddPlayer {| user_id := "h1"; email := "h1@club.org" |}]
           [5%N] game_h1).
  reflexivity.
Defined.

(** *** Malformed movesets *)


(** Texts the decoder refuses: no JSON value at the start, a comma before
    the closing bracket, an item that starts no JSON value after a comma, a
    missing comma, a missing closing bracket, text after the closing bracket,
    a control character (a line feed) inside a literal, the empty text, an
    item that starts no JSON value after the opening bracket. *)
Lemma json_loads_refuses :
  json_loads (replace_apostrophes "e4 e5 Nf3") = JsonDecodeFails ∧
  json_loads (replace_apostrophes "['a',]") = JsonDecodeFails ∧
  json_loads (replace_apostrophes "['e4', e5]") = JsonDecodeFails ∧
  json_loads (replace_apostrophes "['e4' 'e5']") = JsonDecodeFails ∧
  json_loads (replace_apostrophes "['e4', 'e5'") = JsonDecodeFails ∧
  json_loads (replace_apostrophes "['e4'] e5") = JsonDecodeFails ∧
  json_loads
    (replace_apostrophes
       (String "[" (String "'" (String (ascii_of_N 10) "']")))) =
    JsonDecodeFails ∧
  json_loads (replace_apostrophes "") = JsonDecodeFails ∧
  json_loads (replace_apostrophes "[e4, e5]") = JsonDecodeFails.
Proof. repeat split; vm_compute; reflexivity. Qed.




(** ** The most frequent opening *)

Lemma beats_spec this stored :
  beats this stored = true ↔ stored = None ∨ ∃ c, stored = Some c ∧ c < this.
Proof.
  unfold beats. destruct stored as [c|]; [|split; [by left|done]].
  split.
  - intros H. right. exists c. split; [done|lia].
  - intros [|(c' & [= <-] & H)]; [done|lia].
Qed.

(** *** The keys with two parameters *)

Lemma list_ascii_of_string_app (s t : string) :
  list_ascii_of_string (s +:+ t) =
    list_ascii_of_string s ++ list_ascii_of_string t.
Proof. induction s as [|c s IH]; simpl; [done|]. by rewrite IH. Qed.

Lemma string_app_inv_tail (s1 s2 t : string) : s1 +:+ t = s2 +:+ t → s1 = s2.
Proof.
  intros H. apply (f_equal list_ascii_of_string) in H.
  rewrite !list_ascii_of_string_app in H. apply app_inv_tail in H.
  by rewrite <- (string_of_list_ascii_of_string s1), H,
    string_of_list_ascii_of_string.
Qed.

Lemma PLAYER_MOST_FREQ_OPENING_COUNT_inj pid pid' :
  PLAYER_MOST_FREQ_OPENING_COUNT pid = PLAYER_MOST_FREQ_OPENING_COUNT pid' →
  pid = pid'.
Proof.
  unfold PLAYER_MOST_FREQ_OPENING_COUNT. intros H.
  apply (inj (String.app "player:")) in H.
  by apply string_app_inv_tail in H.
Qed.

Lemma PLAYER_SCHEDULED_GAME_OPPONENT_inj pid pid' gid :
  PLAYER_SCHEDULED_GAME_OPPONENT pid gid =
    PLAYER_SCHEDULED_GAME_OPPONENT pid' gid →
  pid = pid'.
Proof.
  unfold PLAYER_SCHEDULED_GAME_OPPONENT. intros H.
  apply (inj (String.app "player:")) in H.
  by apply string_app_inv_tail in H.
Qed.

(** The counter of an opening of a player is never the count key of the
    leader of that player; it is the count key of the leader of another
    player when the opening is named [most_freq_opening] and the other
    player is named as the first with [:openings] after it. *)
Lemma PLAYER_OPENING_COUNT_apart pid eco :
  PLAYER_OPENING_COUNT pid eco ≠ PLAYER_MOST_FREQ_OPENING_COUNT pid.
Proof.
  unfold PLAYER_OPENING_COUNT, PLAYER_MOST_FREQ_OPENING_COUNT.
  intros H. apply (inj (String.app "player:")) in H.
  apply (inj (String.app pid)) in H. discriminate.
Qed.

Lemma PLAYER_OPENING_COUNT_shared pid :
  PLAYER_OPENING_COUNT pid "most_freq_opening" =
    PLAYER_MOST_FREQ_OPENING_COUNT (pid +:+ ":openings").
Proof.
  unfold PLAYER_OPENING_COUNT, PLAYER_MOST_FREQ_OPENING_COUNT.
  f_equal. induction pid as [|c pid IH]; [done|].
  change (String c pid +:+ ?x) with (String c (pid +:+ x)). by rewrite IH.
Qed.

Lemma observe_player_opening_run pid eco s :
  let new :=
    default 0 (PLAYER_COUNT_KEYS (player s) !! PLAYER_OPENING_COUNT pid eco)
    + 1 in
  let s' := (observe_player_opening pid eco s).2 in
  (observe_player_opening pid eco s).1 = Ok tt ∧
  PLAYER_COUNT_KEYS (player s') !! PLAYER_OPENING_COUNT pid eco = Some new ∧
  player_leader pid s' =
    (if beats new (player_leader pid s).2 then (Some eco, Some new)
     else player_leader pid s) ∧
  (∀ pid', pid' ≠ pid →
     PLAYER_MOST_FREQ_OPENING_COUNT pid' ≠ PLAYER_OPENING_COUNT pid eco →
     player_leader pid' s' = player_leader pid' s) ∧
  (∀ pid',
     PLAYER_MOST_FREQ_OPENING_COUNT pid' = PLAYER_OPENING_COUNT pid eco →
     player_leader pid' s' = ((player_leader pid' s).1, Some new)).
Proof.
  intros new s'. subst s'.
  pose proof (PLAYER_OPENING_COUNT_apart pid eco) as Hapart.
  assert (∀ pid', pid' ≠ pid →
            PLAYER_MOST_FREQ_OPENING_COUNT pid ≠
              PLAYER_MOST_FREQ_OPENING_COUNT pid') as Hinj.
  { intros pid' Hne Heq. by apply PLAYER_MOST_FREQ_OPENING_COUNT_inj in Heq. }
  assert (∀ pid',
            PLAYER_MOST_FREQ_OPENING_COUNT pid' = PLAYER_OPENING_COUNT pid eco →
            pid' ≠ pid) as Hother.
  { intros pid' Heq ->. by apply Hapart. }
  unfold observe_player_opening, bind, INCR, incr, read, modify, ret,
    player_leader. simpl.
  rewrite (lookup_insert_ne _ (PLAYER_OPENING_COUNT pid eco)) by done.
  fold new.
  destruct (beats new _); simpl; split_and!.
  - done.
  - rewrite lookup_insert_ne by done. apply lookup_insert_eq.
  - by rewrite !lookup_insert_eq.
  - intros pid' Hne Hkey.
    rewrite (lookup_insert_ne _ pid) by done.
    rewrite lookup_insert_ne by by apply Hinj.
    by rewrite lookup_insert_ne.
  - intros pid' Hkey. pose proof (Hother _ Hkey) as Hne.
    rewrite (lookup_insert_ne _ pid) by done.
    rewrite lookup_insert_ne by by apply Hinj.
    by rewrite Hkey, lookup_insert_eq.
  - done.
  - apply lookup_insert_eq.
  - by rewrite lookup_insert_ne.
  - intros pid' Hne Hkey. by rewrite lookup_insert_ne.
  - intros pid' Hkey. by rewrite Hkey, lookup_insert_eq.
Qed.

Lemma update_most_freq_opening_run r this s :
  let s' := (update_most_freq_opening r this s).2 in
  (update_most_freq_opening r this s).1 = Ok tt ∧
  global_leader s' =
    (if beats this (global_leader s).2 then (Some (opening_eco r), Some this)
     else global_leader s).
Proof.
  unfold update_most_freq_opening, bind, read, modify, ret, global_leader.
  simpl. by destruct (beats _ _).
Qed.

(** C7. In the scope of a player and in the scope of the club, observing
    an opening with its count just incremented changes the stored leader only
    when no count is stored for the scope or the new count is strictly above
    the stored one, and then the leader becomes the observed opening with the
    new count; when the new count ties with the stored one, or is below it,
    leader and count stay as they were.  The leader of another player is not
    touched, unless the count key of that leader is the counter that was
    incremented: then its opening is as before and its count is the new
    count, one above the count it had. *)
Theorem most_freq_opening_leader_rule :
  (∀ pid eco s,
     let new :=
       default 0 (PLAYER_COUNT_KEYS (player s) !! PLAYER_OPENING_COUNT pid eco)
       + 1 in
     let s' := (observe_player_opening pid eco s).2 in
     (player_leader pid s' ≠ player_leader pid s →
        (player_leader pid s).2 = None ∨
        ∃ c, (player_leader pid s).2 = Some c ∧ c < new) ∧
     (∀ c, (player_leader pid s).2 = Some c → new ≤ c →
        player_leader pid s' = player_leader pid s) ∧
     ((player_leader pid s).2 = None ∨
      (∃ c, (player_leader pid s).2 = Some c ∧ c < new) →
        player_leader pid s' = (Some eco, Some new)) ∧
     (∀ pid', pid' ≠ pid →
        PLAYER_MOST_FREQ_OPENING_COUNT pid' ≠ PLAYER_OPENING_COUNT pid eco →
        player_leader pid' s' = player_leader pid' s) ∧
     (∀ pid',
        PLAYER_MOST_FREQ_OPENING_COUNT pid' = PLAYER_OPENING_COUNT pid eco →
        pid' ≠ pid ∧
        player_leader pid' s' = ((player_leader pid' s).1, Some new) ∧
        ((player_leader pid' s).2 = None ∨
         ∃ c, (player_leader pid' s).2 = Some c ∧ new = c + 1))) ∧
  (∀ game_record this_game_eco_count s,
     let s' := (update_most_freq_opening game_record this_game_eco_count s).2 in
     (global_leader s' ≠ global_leader s →
        (global_leader s).2 = None ∨
        ∃ c, (global_leader s).2 = Some c ∧ c < this_game_eco_count) ∧
     (∀ c, (global_leader s).2 = Some c → this_game_eco_count ≤ c →
        global_leader s' = global_leader s) ∧
     ((global_leader s).2 = None ∨
      (∃ c, (global_leader s).2 = Some c ∧ c < this_game_eco_count) →
        global_leader s' =
          (Some (opening_eco game_record), Some this_game_eco_count))).
Proof.
  split.
  - intros pid eco s new s'.
    destruct (observe_player_opening_run pid eco s)
      as (_ & _ & Hlead & Hother & Hshared).
    fold new s' in Hlead, Hother, Hshared. rewrite Hlead.
    assert (∀ pid',
              PLAYER_MOST_FREQ_OPENING_COUNT pid' = PLAYER_OPENING_COUNT pid eco →
              pid' ≠ pid ∧
              player_leader pid' s' = ((player_leader pid' s).1, Some new) ∧
              ((player_leader pid' s).2 = None ∨
               ∃ c, (player_leader pid' s).2 = Some c ∧ new = c + 1))
      as Hshared'.
    { intros pid' Hkey. split_and!; [|by apply Hshared|].
      - intros ->. by apply (PLAYER_OPENING_COUNT_apart pid eco).
      - unfold player_leader. simpl. rewrite Hkey. subst new.
        destruct (PLAYER_COUNT_KEYS (player s) !! PLAYER_OPENING_COUNT pid eco)
          as [c|]; [right; by exists c|by left]. }
    destruct (beats new (player_leader pid s).2) eqn:Hb.
    + apply beats_spec in Hb. split_and!; [done| |done|done|done].
      intros c Hc Hle. destruct Hb as [Hn|(c' & Hc' & Hlt)]; [congruence|].
      assert (c' = c) by congruence. lia.
    + split_and!; [done|done| |done|done].
      intros Hb'%beats_spec. congruence.
  - intros r this s s'.
    destruct (update_most_freq_opening_run r this s) as (_ & Hlead).
    fold s' in Hlead. rewrite Hlead.
    destruct (beats this (global_leader s).2) eqn:Hb.
    + apply beats_spec in Hb. split_and!; [done| |done].
      intros c Hc Hle. destruct Hb as [Hn|(c' & Hc' & Hlt)]; [congruence|].
      assert (c' = c) by congruence. lia.
    + split_and!; [done|done|].
      intros Hb'%beats_spec. congruence.
Qed.

Lemma most_freq_opening_leader_rule_witness :
  player_leader "p1" store_A = (Some "C1", Some 1) ∧
  player_leader "p1" (observe_player_opening "p1" "B21" store_A).2 =
    player_leader "p1" store_A ∧
  global_leader (update_most_freq_opening game_g1_again 1 store_A).2 =
    global_leader store_A ∧
  player_leader "p2"
    (observe_player_opening "p1" "most_freq_opening" store_A).2 =
    player_leader "p2" store_A ∧
  player_leader "p1:openings"
    (observe_player_opening "p1" "most_freq_opening" store_A).2 =
    (None, Some 1).
Proof.
  split; [vm_compute; reflexivity|]. split; [|split; [|split]].
  - apply (proj1 (proj2 (proj1 most_freq_opening_leader_rule "p1" "B21" store_A))
             1); [vm_compute; reflexivity|vm_compute; discriminate].
  - apply (proj1 (proj2 (proj2 most_freq_opening_leader_rule game_g1_again 1
                           store_A)) 1);
      [vm_compute; reflexivity|lia].
  - apply (proj1 (proj2 (proj2 (proj2
             (proj1 most_freq_opening_leader_rule "p1" "most_freq_opening"
                store_A)))) "p2");
      [discriminate|vm_compute; discriminate].
  - apply (proj1 (proj2 (proj2 (proj2 (proj2 (proj2
             (proj1 most_freq_opening_leader_rule "p1" "most_freq_opening"
                store_A)))) "p1:openings" ltac:(vm_compute; reflexivity)))).
Defined.

(** ** Friends of friends *)

(** C9. The query returns, without repetition, exactly the members of the
    friend group of [pid] that are neither opponents of [pid] nor [pid]
    itself, and the empty list when [pid] has no friend group. *)
Theorem friends_of_friends_spec s pid :
  (PLAYER_FRIEND_GROUP (player s) !! pid = None →
     get_friends_of_friends s pid = []) ∧
  (∀ fid, PLAYER_FRIEND_GROUP (player s) !! pid = Some fid →
     NoDup (get_friends_of_friends s pid) ∧
     ∀ x, x ∈ get_friends_of_friends s pid ↔
          x ∈ smembers fid (GLOBAL_FRIEND_GROUP (global s)) ∧
          (x ∉ smembers pid (PLAYER_OPPONENTS (player s))) ∧
          x ≠ pid).
Proof.
  unfold get_friends_of_friends. split.
  - by intros ->.
  - intros fid ->. split; [apply NoDup_elements|].
    intros x. rewrite elem_of_elements. set_solver.
Qed.

Lemma friends_of_friends_spec_witness :
  get_friends_of_friends store_C "a" = ["c"] ∧
  get_friends_of_friends store_A "zed" = [] ∧
  ("c" ∈ get_friends_of_friends store_C "a" ↔
   "c" ∈ smembers 7%N (GLOBAL_FRIEND_GROUP (global store_C)) ∧
   ("c" ∉ smembers "a" (PLAYER_OPPONENTS (player store_C))) ∧
   "c" ≠ "a").
Proof.
  split; [vm_compute; reflexivity|]. split.
  - apply (proj1 (friends_of_friends_spec store_A "zed")).
    vm_compute. reflexivity.
  - apply (proj2 (friends_of_friends_spec store_C "a") 7%N).
    vm_compute. reflexivity.
Defined.

(** ** Three-move sequences *)






Lemma occurrences_cons w x ws :
  occurrences w (x :: ws) =
    (if decide (x = w) then 1 else 0) + occurrences w ws.
Proof.
  unfold occurrences. destruct (decide (x = w)) as [->|Hne].
  - rewrite filter_cons_True by done. simpl length. lia.
  - rewrite filter_cons_False by done. lia.
Qed.

(** The loop of [__update_common_seqs]: one increment per occurrence. *)
Lemma update_common_seqs_run ws : ∀ s,
  ∃ s', update_common_seqs ws s = (Ok tt, s') ∧
    seq_games s' = seq_games s ∧
    ∀ w, default 0 (seq_count s' !! w) =
           default 0 (seq_count s !! w) + occurrences w ws.
Proof.
  unfold update_common_seqs.
  induction ws as [|x ws IH]; intros s.
  - exists s. split_and!; [done|done|]. intros w.
    unfold occurrences. simpl. lia.
  - cbn [for_each]. unfold bind at 1 2 3, INCR at 1, incr.
    unfold update_most_common_seqs_at at 1, update_least_common_seqs_at at 1,
      modify. simpl.
    match goal with |- ∃ s', for_each ws ?body ?s1 = _ ∧ _ =>
      destruct (IH s1) as (s' & Hrun & Hg & Hc) end.
    exists s'. split_and!; [done|done|].
    intros w. rewrite Hc, occurrences_cons. unfold seq_count at 1. simpl.
    fold (seq_count s). destruct (decide (x = w)) as [->|Hne].
    + rewrite lookup_insert_eq. simpl. lia.
    + rewrite lookup_insert_ne by done. lia.
Qed.

Ltac keeps_unfold :=
  unfold update_player_keys, observe_player_opening, update_game_keys,
    update_shortest_game, update_most_freq_opening, update_common_seqs,
    update_most_common_seqs_at, update_least_common_seqs_at; keeps_tac.

(** Rewrites [get s'] to [get s] from a run [H : m s = (r, s')] of a call
    that keeps [get]. *)
Ltac rewrite_kept get H :=
  match type of H with
  | ?m ?s = (_, _) =>
      let K := fresh "K" in
      assert (keeps get m) as K by keeps_unfold;
      rewrite (keeps_run get m _ _ _ K H); clear K
  end.



(** ** The components inside the store *)

(** The win branch of [__update_player_keys] is one [bump] of the wins
    board, the loss branch one [bump] of the losses board. *)
Lemma win_is_bump pid s :
  let m := (wins <- INCR (PLAYER_WINS ∘ player) on_PLAYER_WINS pid ;;
            update_top_list_at TOP_WINS pid wins) in
  ((m s).1, wins_board (m s).2) = bump (wins_board s) pid.
Proof.
  unfold bind, INCR, update_top_list_at, bump, wins_board, incr. simpl.
  by destruct (update_top_list _ _ _) as [[[]| |] top].
Qed.

Lemma loss_is_bump pid s :
  let m := (losses <- INCR (PLAYER_LOSSES ∘ player) on_PLAYER_LOSSES pid ;;
            update_top_list_at TOP_LOSSES pid losses) in
  ((m s).1, losses_board (m s).2) = bump (losses_board s) pid.
Proof.
  unfold bind, INCR, update_top_list_at, bump, losses_board, incr. simpl.
  by destruct (update_top_list _ _ _) as [[[]| |] top].
Qed.

(** [__update_friend_groups] on the store is [update_friend_groups] on its
    two key families. *)
Lemma update_friend_groups_at_run draws pid1 pid2 s :
  ((update_friend_groups_at draws pid1 pid2 s).1,
   friends_of (update_friend_groups_at draws pid1 pid2 s).2) =
  update_friend_groups draws (friends_of s) pid1 pid2.
Proof.
  unfold update_friend_groups_at.
  by destruct (update_friend_groups _ _ _ _) as [r [ptr g]].
Qed.

(** The loop of [__update_common_seqs] is a run of [observe_least] on the
    counters and the least tracker of the store. *)
Lemma update_common_seqs_least ws : ∀ s,
  least_state (update_common_seqs ws s).2 = foldl observe_least (least_state s) ws.
Proof.
  unfold update_common_seqs.
  induction ws as [|x ws IH]; intros s; [done|].
  cbn [for_each foldl]. unfold bind at 1 2 3, INCR at 1, incr.
  unfold update_most_common_seqs_at at 1, update_least_common_seqs_at at 1,
    modify. simpl.
  match goal with |- least_state (for_each ws ?body ?s1).2 = _ =>
    rewrite (IH s1) end.
  f_equal. unfold least_state, observe_least, least_tracker, seq_count, incr.
  simpl. by destruct (update_least_common_seqs _ _ _ _).
Qed.

Section Preserves.
Context (P : Store → Prop).

Lemma preserves_bind {B C} (m : M B) (k : B → M C) :
  preserves P m → (∀ b, preserves P (k b)) → preserves P (bind m k).
Proof.
  intros Hm Hk s Hs. unfold bind. specialize (Hm s Hs).
  destruct (m s) as [[b| |] s1]; simpl in *; [|done..].
  by apply Hk.
Qed.

Lemma preserves_keeps {A B} (get : Store → A) (m : M B) :
  (∀ s s', get s' = get s → P s → P s') → keeps get m → preserves P m.
Proof. intros Hget Hm s Hs. eapply Hget; [apply Hm|done]. Qed.
End Preserves.

Lemma least_ok_foldl ws : ∀ st,
  least_ok st → least_ok (foldl observe_least st ws).
Proof.
  induction ws as [|w ws IH]; intros st Hst; simpl; [done|].
  by apply IH, observe_least_preserves.
Qed.

(** No write event, returning or raising, leaves the least tracker of the
    store out of step with the counters. *)
Lemma serve_preserves_least_ok q :
  preserves (λ s, least_ok (least_state s)) (serve q).
Proof.
  assert (∀ B (m : M B), keeps least_state m →
            preserves (λ s, least_ok (least_state s)) m) as Hkept.
  { intros B m. apply preserves_keeps. by intros s s' ->. }
  destruct q as [p|schedule|draws r]; simpl.
  - apply Hkept. unfold add_player, assert_player_is_new. keeps_tac.
  - apply Hkept. unfold add_schedule, assert_game_is_new. keeps_tac.
  - unfold add_game_record.
    apply preserves_bind;
      [apply Hkept; unfold assert_game_is_new; keeps_tac|intros _].
    apply preserves_bind; [apply Hkept, keeps_lift_result|intros moves].
    unfold record_game.
    apply preserves_bind; [apply Hkept; keeps_tac|intros _].
    apply preserves_bind; [apply Hkept; keeps_unfold|intros _].
    apply preserves_bind; [apply Hkept; keeps_unfold|intros _].
    apply preserves_bind; [apply Hkept; keeps_unfold|intros _].
    apply preserves_bind.
    { intros s Hs. rewrite update_common_seqs_least. by apply least_ok_foldl. }
    intros _. apply Hkept. keeps_unfold.
Qed.

Lemma serve_all_least_ok qs : ∀ s,
  least_ok (least_state s) → least_ok (least_state (serve_all qs s)).
Proof.
  induction qs as [|q qs IH]; intros s Hs; simpl; [done|].
  by apply IH, serve_preserves_least_ok.
Qed.

(** C2. After every serial run of observations the least set is exactly
    the set of sequences whose counter equals the recorded least count, that
    count is the minimum of all counters and is attained; and when the
    observed sequence was the only member of the set, the tracker becomes
    what the rescan of all counters returns, which is again that minimum and
    its whole cohort.  The same holds of the tracker in the store after any
    series of write events, whether they returned or raised. *)
Theorem least_common_invariant :
  (∀ seqs, least_ok (foldl observe_least (∅, (None, ∅)) seqs)) ∧
  (∀ seqs seq,
     let st := foldl observe_least (∅, (None, ∅)) seqs in
     st.2.2 = {[seq]} →
     (observe_least st seq).2 =
       (let r := find_least_common_seqs
                   (map_to_list (observe_least st seq).1) in
        (r.1, list_to_set r.2)) ∧
     least_ok (observe_least st seq)) ∧
  (∀ qs, least_ok (least_state (serve_all qs empty_store))).
Proof.
  assert (∀ seqs st, least_ok st → least_ok (foldl observe_least st seqs)) as Hall.
  { induction seqs as [|seq seqs IH]; intros st Hst; simpl; [done|].
    by apply IH, observe_least_preserves. }
  split_and!.
  - intros seqs. apply Hall, least_ok_empty.
  - intros seqs seq st Hst.
    assert (least_ok st) as Hok by apply Hall, least_ok_empty.
    split; [by apply observe_least_rescans|by apply observe_least_preserves].
  - intros qs. apply serve_all_least_ok, least_ok_empty.
Qed.

Lemma least_common_invariant_witness :
  let st := foldl observe_least (∅, (None, ∅)) ["X"; "Y"; "X"] in
  st.2.2 = {["Y"]} ∧
  (observe_least st "Y").2 =
    (let r := find_least_common_seqs (map_to_list (observe_least st "Y").1) in
     (r.1, list_to_set r.2)) ∧
  least_ok (observe_least st "Y").
Proof.
  assert ((foldl observe_least (∅, (None, ∅)) ["X"; "Y"; "X"]).2.2 = {["Y"]})
    as Hst by (vm_compute; reflexivity).
  split; [exact Hst|].
  apply (proj1 (proj2 least_common_invariant) ["X"; "Y"; "X"] "Y" Hst).
Defined.

(** C1, where the code departs from it.  A win of a player whose id holds
    a colon puts an item in the list that the scan of a later update cannot
    split: the update of the next winner raises [ValueError] after the
    counter was incremented and the stale item removed, and the list is left
    without the new winner, although it has room. *)
Theorem colon_in_player_id_breaks_top_list :
  bump_all (∅, []) ["a:b"; "c"] =
    (Raise ValueError, (<["c" := 1]> (<["a:b" := 1]> ∅), [("a:b", 1)])) ∧
  (add_game_record [2%N] game_k2 store_k1).1 = Raise ValueError ∧
  wins_board (add_game_record [2%N] game_k2 store_k1).2 =
    (<["c" := 1]> (<["a:b" := 1]> ∅), [("a:b", 1)]) ∧
  ¬ top_list_ok (wins_board (add_game_record [2%N] game_k2 store_k1).2).
Proof.
  assert (wins_board (add_game_record [2%N] game_k2 store_k1).2 =
            (<["c" := 1]> (<["a:b" := 1]> ∅), [("a:b", 1)])) as Hboard
    by (vm_compute; reflexivity).
  split_and!; [vm_compute; reflexivity|vm_compute; reflexivity|exact Hboard|].
  rewrite Hboard. intros [_ _ _ _ Hcomp]. simpl in Hcomp.
  destruct (Hcomp "c" 1) as [Hlen _]; [vm_compute; reflexivity| |done].
  unfold listed. simpl. intros Hin%list_elem_of_singleton. done.
Qed.

(** ** When [add_game_record] returns *)

Lemma bind_run {B C} (m : M B) (k : B → M C) s b s1 :
  m s = (Ok b, s1) → bind m k s = k b s1.
Proof. unfold bind. by intros ->. Qed.

Lemma int_numeric x : numeric x → ∃ n, int_of x = IntValue n ∧ int x = Ok n.
Proof. intros [n Hn]. exists n. unfold int. by rewrite Hn. Qed.

(** [__update_shortest_game], outcome and store. *)
Lemma update_shortest_game_run r s :
  let recorded :=
    on_ANALYTICS_SHORTEST_GAME_TURNS (λ _, Some (number_of_turns r))
      (on_ANALYTICS_SHORTEST_GAME (λ _, Some (game_id r)) s) in
  update_shortest_game r s =
    match ANALYTICS_SHORTEST_GAME_TURNS (analytics s) with
    | None => (Ok tt, recorded)
    | Some current =>
        match int (number_of_turns r) with
        | Ok turns =>
            match int current with
            | Ok least => (Ok tt, if turns <? least then recorded else s)
            | Raise e => (Raise e, s)
            | Beyond b => (Beyond b, s)
            end
        | Raise e => (Raise e, s)
        | Beyond b => (Beyond b, s)
        end
    end.
Proof.
  intros recorded. subst recorded.
  unfold update_shortest_game, bind, read, modify, ret, lift_result. simpl.
  destruct (ANALYTICS_SHORTEST_GAME_TURNS (analytics s)) as [current|]; [|done].
  destruct (int (number_of_turns r)) as [turns|e|b]; [|done..].
  destruct (int current) as [least|e|b]; [|reflexivity..].
  by destruct (turns <? least).
Qed.

Lemma update_shortest_game_state r s :
  shortest_state (update_shortest_game r s).2 = shortest_after r (shortest_state s).
Proof.
  rewrite update_shortest_game_run. unfold shortest_after, shortest_state, int.
  simpl.
  destruct (ANALYTICS_SHORTEST_GAME_TURNS (analytics s)) as [current|] eqn:E;
    [|done].
  destruct (int_of (number_of_turns r)) as [turns| |]; simpl;
    [|by rewrite E..].
  destruct (int_of current) as [least| |]; simpl; [|by rewrite E..].
  destruct (turns <? least); simpl; [done|by rewrite E].
Qed.







(** *** What a call that raises has done to the windows *)










(** * Further properties: invariants of the store, the readers, the loaders *)

(** ** Invariants of every store a run of write events leaves *)

Lemma serve_all_preserves (P : Store → Prop) :
  (∀ q, preserves P (serve q)) → ∀ qs s, P s → P (serve_all qs s).
Proof.
  intros Hstep qs. induction qs as [|q qs IH]; intros s Hs; simpl; [done|].
  by apply IH, Hstep.
Qed.

(** *** The leaderboards stay sorted and capped *)

Lemma insert_sorted (l1 l2 : list entry) (e : entry) :
  StronglySorted desc (l1 ++ l2) → Forall (λ x, e.2 < x.2) l1 →
  (∀ x, head l2 = Some x → x.2 ≤ e.2) →
  StronglySorted desc (l1 ++ e :: l2).
Proof.
  intros (H12 & Hs_l1 & Hs_l2)%StronglySorted_app Hl1 Hl2.
  apply StronglySorted_app. split_and!; [|done|].
  - intros x1 x2 Hx1 [->|Hx2]%elem_of_cons; [|by apply H12].
    rewrite Forall_forall in Hl1. specialize (Hl1 _ Hx1).
    unfold desc. lia.
  - apply StronglySorted_cons. split; [|done].
    destruct l2 as [|e0 l2']; [constructor|].
    specialize (Hl2 e0 eq_refl).
    apply StronglySorted_cons in Hs_l2 as [He0 _].
    constructor; [unfold desc; lia|].
    eapply Forall_impl; [exact He0|]. unfold desc. intros; lia.
Qed.

Lemma update_top_list_shape top pid n :
  top_shape top → top_shape (update_top_list top pid n).2.
Proof.
  intros [Hsorted Hlen].
  assert (top_shape (lrem (pid, n - 1) top)) as Hrem.
  { split; [by eapply StronglySorted_sublist; [apply lrem_sublist|]|].
    pose proof (sublist_length _ _ (lrem_sublist (pid, n - 1) top)). lia. }
  destruct (update_top_list top pid n) as [r top'] eqn:E.
  destruct r as [[]|e|b]; simpl.
  - destruct (update_top_list_Ok _ _ _ _ E)
      as (l1 & l2 & Hsplit & Hl1 & Hl2 & ->).
    destruct Hrem as [Hs' _]. rewrite Hsplit in Hs'.
    split; [|rewrite length_take; lia].
    eapply StronglySorted_sublist; [apply sublist_take|].
    by apply insert_sorted.
  - unfold update_top_list in E.
    destruct (find_insert_before _ _) as [[?|]| |]; by simplify_eq.
  - unfold update_top_list in E.
    destruct (find_insert_before _ _) as [[?|]| |]; by simplify_eq.
Qed.

Lemma update_top_list_at_shape list_key pid n :
  preserves (λ s, top_shape (tops s).1 ∧ top_shape (tops s).2)
    (update_top_list_at list_key pid n).
Proof.
  intros s [Hw Hl]. unfold update_top_list_at.
  destruct list_key; simpl.
  - pose proof (update_top_list_shape _ pid n Hw) as H.
    by destruct (update_top_list _ _ _) as [r top'].
  - pose proof (update_top_list_shape _ pid n Hl) as H.
    by destruct (update_top_list _ _ _) as [r top'].
Qed.

Lemma serve_preserves_top_shape q :
  preserves (λ s, top_shape (tops s).1 ∧ top_shape (tops s).2) (serve q).
Proof.
  assert (∀ B (m : M B), keeps tops m →
            preserves (λ s, top_shape (tops s).1 ∧ top_shape (tops s).2) m)
    as Hkept.
  { intros B m. apply preserves_keeps. by intros s s' ->. }
  assert (∀ r c1 p1 c2 p2,
            preserves (λ s, top_shape (tops s).1 ∧ top_shape (tops s).2)
              (update_player_keys r c1 p1 c2 p2)) as Hplayer.
  { intros r c1 p1 c2 p2. unfold update_player_keys.
    apply preserves_bind; [|intros _; apply Hkept; keeps_unfold].
    destruct (bool_decide _); [|destruct (bool_decide _)].
    - apply preserves_bind; [apply Hkept; keeps_tac|intros wins].
      apply update_top_list_at_shape.
    - apply preserves_bind; [apply Hkept; keeps_tac|intros losses].
      apply update_top_list_at_shape.
    - apply Hkept. keeps_tac. }
  destruct q as [p|schedule|draws r]; simpl.
  - apply Hkept. unfold add_player, assert_player_is_new. keeps_tac.
  - apply Hkept. unfold add_schedule, assert_game_is_new. keeps_tac.
  - unfold add_game_record.
    apply preserves_bind;
      [apply Hkept; unfold assert_game_is_new; keeps_tac|intros _].
    apply preserves_bind; [apply Hkept, keeps_lift_result|intros moves].
    unfold record_game.
    apply preserves_bind; [apply Hkept; keeps_tac|intros _].
    apply preserves_bind; [apply Hplayer|intros _].
    apply preserves_bind; [apply Hplayer|intros _].
    apply Hkept. keeps_unfold.
Qed.

(** X1. After any series of write events from the empty store, whatever
    each call returned or raised, both leaderboards are sorted by
    non-increasing score and hold at most ten items. *)
Theorem top_lists_sorted_and_capped qs :
  top_shape (tops (serve_all qs empty_store)).1 ∧
  top_shape (tops (serve_all qs empty_store)).2.
Proof.
  apply (serve_all_preserves
           (λ s, top_shape (tops s).1 ∧ top_shape (tops s).2)).
  - apply serve_preserves_top_shape.
  - split; (split; [constructor|simpl; lia]).
Qed.

(** *** The most-common tracker *)

Lemma most_ok_empty : most_ok (∅, (None, ∅)).
Proof.
  constructor; simpl; try done; by intros seq cnt ?%lookup_empty_Some.
Qed.

Lemma observe_most_preserves st seq :
  most_ok st → most_ok (observe_most st seq).
Proof.
  destruct st as [counts [mc set]].
  intros [Hpos Hfresh Hmax Hexact Hatt]. simpl in *.
  unfold observe_most, incr. simpl.
  set (new := default 0 (counts !! seq) + 1).
  assert (1 ≤ new) as Hnew.
  { subst new. destruct (counts !! seq) as [c|] eqn:E; simpl; [|lia].
    apply Hpos in E. lia. }
  assert (∀ seq' cnt, seq' ≠ seq →
            <[seq := new]> counts !! seq' = Some cnt ↔ counts !! seq' = Some cnt)
    as Hother.
  { intros seq' cnt Hne. by rewrite lookup_insert_ne. }
  unfold update_most_common_seqs. simpl.
  destruct mc as [m|].
  - assert (new ≤ m + 1) as Hle.
    { subst new. destruct (counts !! seq) as [c|] eqn:E; simpl.
      - destruct (Hmax _ _ E) as (m' & [= <-] & ?). lia.
      - destruct (Hatt m eq_refl) as (seq' & E'). apply Hpos in E'. lia. }
    destruct (new >? m) eqn:Hgt; [|destruct (new =? m) eqn:Heq].
    + apply Z.gtb_lt in Hgt.
      constructor; simpl.
      * intros seq' cnt. destruct (decide (seq' = seq)) as [->|Hne].
        -- rewrite lookup_insert_eq. intros [= <-]. lia.
        -- rewrite Hother by done. apply Hpos.
      * intros E. by apply insert_non_empty in E.
      * intros seq' cnt. destruct (decide (seq' = seq)) as [->|Hne].
        -- rewrite lookup_insert_eq. intros [= <-]. exists new. split; [done|lia].
        -- rewrite Hother by done. intros E.
           destruct (Hmax _ _ E) as (m' & [= <-] & ?).
           exists new. split; [done|lia].
      * intros seq' m' [= <-]. rewrite elem_of_singleton.
        destruct (decide (seq' = seq)) as [->|Hne].
        -- by rewrite lookup_insert_eq.
        -- rewrite Hother by done. split; [done|]. intros E.
           destruct (Hmax _ _ E) as (m' & [= <-] & ?). lia.
      * intros m' [= <-]. exists seq. by rewrite lookup_insert_eq.
    + apply Z.eqb_eq in Heq.
      constructor; simpl.
      * intros seq' cnt. destruct (decide (seq' = seq)) as [->|Hne].
        -- rewrite lookup_insert_eq. intros [= <-]. lia.
        -- rewrite Hother by done. apply Hpos.
      * intros E. by apply insert_non_empty in E.
      * intros seq' cnt. destruct (decide (seq' = seq)) as [->|Hne].
        -- rewrite lookup_insert_eq. intros [= <-]. exists m. split; [done|lia].
        -- rewrite Hother by done. apply Hmax.
      * intros seq' m' [= <-]. rewrite elem_of_union, elem_of_singleton.
        destruct (decide (seq' = seq)) as [->|Hne].
        -- rewrite lookup_insert_eq. split; [intros _; by f_equal|by left].
        -- rewrite Hother by done. rewrite <- (Hexact seq' m eq_refl). tauto.
      * intros m' [= <-]. exists seq. rewrite lookup_insert_eq. by f_equal.
    + rewrite Z.gtb_ltb, Z.ltb_ge in Hgt. apply Z.eqb_neq in Heq.
      assert (counts !! seq ≠ Some m) as Hnot.
      { intros E. subst new. rewrite E in Heq, Hgt. simpl in *. lia. }
      constructor; simpl.
      * intros seq' cnt. destruct (decide (seq' = seq)) as [->|Hne].
        -- rewrite lookup_insert_eq. intros [= <-]. lia.
        -- rewrite Hother by done. apply Hpos.
      * intros E. by apply insert_non_empty in E.
      * intros seq' cnt. destruct (decide (seq' = seq)) as [->|Hne].
        -- rewrite lookup_insert_eq. intros [= <-]. exists m. split; [done|lia].
        -- rewrite Hother by done. apply Hmax.
      * intros seq' m' [= <-].
        destruct (decide (seq' = seq)) as [->|Hne].
        -- rewrite lookup_insert_eq, (Hexact seq m eq_refl).
           split; [done|]. intros [= E]. lia.
        -- rewrite Hother by done. by apply Hexact.
      * intros m' [= <-]. destruct (Hatt m eq_refl) as (seq' & E).
        exists seq'. rewrite lookup_insert_ne; [done|]. by intros <-.
  - assert (counts = ∅) as ->.
    { apply map_empty. intros seq'. destruct (counts !! seq') as [c|] eqn:E; [|done].
      by destruct (Hmax _ _ E) as (m & ? & _). }
    constructor; simpl.
    * intros seq' cnt. destruct (decide (seq' = seq)) as [->|Hne].
      -- rewrite lookup_insert_eq. intros [= <-]. lia.
      -- rewrite lookup_insert_ne by done. by intros ?%lookup_empty_Some.
    * intros E. by apply insert_non_empty in E.
    * intros seq' cnt. destruct (decide (seq' = seq)) as [->|Hne].
      -- rewrite lookup_insert_eq. intros [= <-]. exists new. split; [done|lia].
      -- rewrite lookup_insert_ne by done. by intros ?%lookup_empty_Some.
    * intros seq' m' [= <-]. rewrite elem_of_singleton.
      destruct (decide (seq' = seq)) as [->|Hne].
      -- by rewrite lookup_insert_eq.
      -- rewrite lookup_insert_ne by done. split; [done|].
         by intros ?%lookup_empty_Some.
    * intros m' [= <-]. exists seq. by rewrite lookup_insert_eq.
Qed.

Lemma most_ok_foldl ws : ∀ st,
  most_ok st → most_ok (foldl observe_most st ws).
Proof.
  induction ws as [|w ws IH]; intros st Hst; simpl; [done|].
  by apply IH, observe_most_preserves.
Qed.

(** The loop of [__update_common_seqs] is a run of [observe_most] on the
    counters and the most tracker of the store. *)
Lemma update_common_seqs_most ws : ∀ s,
  most_state (update_common_seqs ws s).2 = foldl observe_most (most_state s) ws.
Proof.
  unfold update_common_seqs.
  induction ws as [|x ws IH]; intros s; [done|].
  cbn [for_each foldl]. unfold bind at 1 2 3, INCR at 1, incr.
  unfold update_most_common_seqs_at at 1, update_least_common_seqs_at at 1,
    modify. simpl.
  match goal with |- most_state (for_each ws ?body ?s1).2 = _ =>
    rewrite (IH s1) end.
  f_equal. unfold most_state, observe_most, most_tracker, seq_count, incr.
  simpl. by destruct (update_most_common_seqs _ _ _).
Qed.

Lemma serve_preserves_most_ok q :
  preserves (λ s, most_ok (most_state s)) (serve q).
Proof.
  assert (∀ B (m : M B), keeps most_state m →
            preserves (λ s, most_ok (most_state s)) m) as Hkept.
  { intros B m. apply preserves_keeps. by intros s s' ->. }
  destruct q as [p|schedule|draws r]; simpl.
  - apply Hkept. unfold add_player, assert_player_is_new. keeps_tac.
  - apply Hkept. unfold add_schedule, assert_game_is_new. keeps_tac.
  - unfold add_game_record.
    apply preserves_bind;
      [apply Hkept; unfold assert_game_is_new; keeps_tac|intros _].
    apply preserves_bind; [apply Hkept, keeps_lift_result|intros moves].
    unfold record_game.
    apply preserves_bind; [apply Hkept; keeps_tac|intros _].
    apply preserves_bind; [apply Hkept; keeps_unfold|intros _].
    apply preserves_bind; [apply Hkept; keeps_unfold|intros _].
    apply preserves_bind; [apply Hkept; keeps_unfold|intros _].
    apply preserves_bind.
    { intros s Hs. rewrite update_common_seqs_most. by apply most_ok_foldl. }
    intros _. apply Hkept. keeps_unfold.
Qed.

(** What a reader of a tracker reports, for either polarity: [le] is the
    order in which the recorded count bounds every counter. *)
Lemma tracker_reported (le : Z → Z → Prop) (counts : gmap string Z)
    (t : tracker) :
  (∀ seq cnt, counts !! seq = Some cnt → 1 ≤ cnt) →
  (counts = ∅ → t = (None, ∅)) →
  (∀ seq cnt, counts !! seq = Some cnt → ∃ m, t.1 = Some m ∧ le m cnt) →
  (∀ seq m, t.1 = Some m → (seq ∈ t.2 ↔ counts !! seq = Some m)) →
  (∀ m, t.1 = Some m → ∃ seq, counts !! seq = Some m) →
  NoDup (elements t.2) ∧
  (∀ w cnt, counts !! w = Some cnt → 1 ≤ cnt ∧ le (default 0 t.1) cnt) ∧
  (∀ w, w ∈ elements t.2 ↔ counts !! w = Some (default 0 t.1)) ∧
  (default 0 t.1 = 0 ↔ counts = ∅) ∧
  (counts ≠ ∅ →
     ∃ w, w ∈ elements t.2 ∧ counts !! w = Some (default 0 t.1)).
Proof.
  intros Hpos Hfresh Hbound Hexact Hatt.
  split; [apply NoDup_elements|].
  split.
  { intros w cnt E. split; [by eapply Hpos|].
    by destruct (Hbound _ _ E) as (m & -> & ?). }
  destruct t as [[m|] set]; simpl in *.
  - destruct (Hatt m eq_refl) as (seq & E). pose proof (Hpos _ _ E).
    split; [intros w; rewrite elem_of_elements; by apply Hexact|].
    split; [split; [lia|]; intros ->; by apply lookup_empty_Some in E|].
    intros _. exists seq. split; [|done].
    rewrite elem_of_elements. by apply (Hexact seq m eq_refl).
  - assert (counts = ∅) as ->.
    { apply map_empty. intros seq.
      destruct (counts !! seq) as [c|] eqn:E; [|done].
      by destruct (Hbound _ _ E) as (m & ? & _). }
    specialize (Hfresh eq_refl). injection Hfresh as ->.
    split; [|done]. intros w. rewrite elements_empty.
    split; [by intros ?%elem_of_nil|by intros ?%lookup_empty_Some].
Qed.

(** X2. In the store after any series of write events,
    [get_most_common_3move_sequence] reports the greatest counter of all
    three-move sequences and exactly the sequences whose counter equals it,
    each once: the reported count bounds every counter and, when a sequence
    was counted, is the counter of a reported sequence.  Every counter is at
    least 1, and the reported count is 0 exactly when no sequence was ever
    counted. *)
Theorem most_common_sequences_reported qs :
  let s := serve_all qs empty_store in
  let reply := get_most_common_3move_sequence s in
  NoDup reply.1 ∧
  (∀ w cnt, seq_count s !! w = Some cnt → 1 ≤ cnt ∧ cnt ≤ reply.2) ∧
  (∀ w, w ∈ reply.1 ↔ seq_count s !! w = Some reply.2) ∧
  (reply.2 = 0 ↔ seq_count s = ∅) ∧
  (seq_count s ≠ ∅ → ∃ w, w ∈ reply.1 ∧ seq_count s !! w = Some reply.2).
Proof.
  intros s reply.
  assert (most_ok (most_state s)) as [Hpos Hfresh Hmax Hexact Hatt].
  { apply (serve_all_preserves (λ s, most_ok (most_state s)));
      [apply serve_preserves_most_ok|apply most_ok_empty]. }
  apply (tracker_reported (λ m cnt, cnt ≤ m) (seq_count s) (most_tracker s));
    done.
Qed.

Lemma most_common_sequences_reported_witness :
  1 ≤ 2 ∧ 2 ≤ (get_most_common_3move_sequence store_C).2 ∧
  "e4,e5,Nf3" ∈ (get_most_common_3move_sequence store_C).1.
Proof.
  destruct (most_common_sequences_reported
              [AddGameRecord [7%N] game_ab; AddGameRecord [8%N] game_bc])
    as (_ & Hbound & Hexact & _ & _).
  destruct (Hbound "e4,e5,Nf3" 2 ltac:(vm_compute; reflexivity)) as [H1 H2].
  split_and!; [done..|].
  apply Hexact. vm_compute. reflexivity.
Defined.

(** X3. In the store after any series of write events,
    [get_least_common_3move_sequence] reports the least counter of all
    three-move sequences and exactly the sequences whose counter equals it,
    each once: every counter is at least the reported count and, when a
    sequence was counted, the reported count is the counter of a reported
    sequence.  Every counter is at least 1, and the reported count is 0
    exactly when no sequence was ever counted. *)
Theorem least_common_sequences_reported qs :
  let s := serve_all qs empty_store in
  let reply := get_least_common_3move_sequence s in
  NoDup reply.1 ∧
  (∀ w cnt, seq_count s !! w = Some cnt → 1 ≤ cnt ∧ reply.2 ≤ cnt) ∧
  (∀ w, w ∈ reply.1 ↔ seq_count s !! w = Some reply.2) ∧
  (reply.2 = 0 ↔ seq_count s = ∅) ∧
  (seq_count s ≠ ∅ → ∃ w, w ∈ reply.1 ∧ seq_count s !! w = Some reply.2).
Proof.
  intros s reply.
  assert (least_ok (least_state s)) as [Hpos Hfresh Hmin Hexact Hatt].
  { apply serve_all_least_ok, least_ok_empty. }
  apply (tracker_reported (λ m cnt, m ≤ cnt) (seq_count s) (least_tracker s));
    done.
Qed.

Lemma least_common_sequences_reported_witness :
  1 ≤ 2 ∧ (get_least_common_3move_sequence store_C).2 ≤ 2 ∧
  "e5,Nf3,d6" ∈ (get_least_common_3move_sequence store_C).1.
Proof.
  destruct (least_common_sequences_reported
              [AddGameRecord [7%N] game_ab; AddGameRecord [8%N] game_bc])
    as (_ & Hbound & Hexact & _ & _).
  destruct (Hbound "e4,e5,Nf3" 2 ltac:(vm_compute; reflexivity)) as [H1 H2].
  split_and!; [done..|].
  apply Hexact. vm_compute. reflexivity.
Defined.

(** *** The most frequent opening of the club *)


Lemma serve_all_preserves_on (ok : request → Prop) (P : Store → Prop) :
  (∀ q, ok q → preserves P (serve q)) →
  ∀ qs, Forall ok qs → ∀ s, P s → P (serve_all qs s).
Proof.
  intros Hq qs Hqs. induction Hqs as [|q qs Hok _ IH]; intros s Hs; [done|].
  simpl. apply IH. by apply Hq.
Qed.






(** *** Friend groups in the store *)

Lemma update_friend_groups_ok draws f pid1 pid2 :
  friends_ok f → friends_ok (update_friend_groups draws f pid1 pid2).2.
Proof.
  intros Hf.
  destruct (update_friend_groups draws f pid1 pid2) as [[[]|e|b] f'] eqn:E;
    simpl.
  - by destruct (update_friend_groups_link _ _ _ _ _ Hf E).
  - unfold update_friend_groups in E.
    repeat case_match; by simplify_eq.
  - unfold update_friend_groups in E.
    repeat case_match; by simplify_eq.
Qed.

Lemma serve_preserves_friends_ok q :
  preserves (λ s, friends_ok (friends_of s)) (serve q).
Proof.
  assert (∀ B (m : M B), keeps friends_of m →
            preserves (λ s, friends_ok (friends_of s)) m) as Hkept.
  { intros B m. apply preserves_keeps. by intros s s' ->. }
  destruct q as [p|schedule|draws r]; simpl.
  - apply Hkept. unfold add_player, assert_player_is_new. keeps_tac.
  - apply Hkept. unfold add_schedule, assert_game_is_new. keeps_tac.
  - unfold add_game_record.
    apply preserves_bind;
      [apply Hkept; unfold assert_game_is_new; keeps_tac|intros _].
    apply preserves_bind; [apply Hkept, keeps_lift_result|intros moves].
    unfold record_game.
    apply preserves_bind; [apply Hkept; keeps_tac|intros _].
    apply preserves_bind; [apply Hkept; keeps_unfold|intros _].
    apply preserves_bind; [apply Hkept; keeps_unfold|intros _].
    apply preserves_bind; [apply Hkept; keeps_unfold|intros _].
    apply preserves_bind; [apply Hkept; keeps_unfold|intros _].
    apply preserves_bind; [apply Hkept; keeps_tac|intros this].
    apply preserves_bind; [apply Hkept; keeps_unfold|intros _].
    apply preserves_bind; [apply Hkept; keeps_unfold|intros _].
    intros s Hs.
    pose proof (update_friend_groups_at_run draws (white_player_id r)
                  (black_player_id r) s) as Hrun.
    apply (f_equal snd) in Hrun. simpl in Hrun. rewrite Hrun.
    by apply update_friend_groups_ok.
Qed.

Lemma serve_all_friends_ok qs :
  friends_ok (friends_of (serve_all qs empty_store)).
Proof.
  apply (serve_all_preserves (λ s, friends_ok (friends_of s)));
    [apply serve_preserves_friends_ok|apply friends_ok_empty].
Qed.

(** X6. In the store after any series of write events a player points
    at a friend group exactly when the member Set of that group holds the
    player, so no player is in two groups; and every player that
    [get_friends_of_friends] returns for [pid] is in the group of [pid], is
    not [pid] and is not one of its opponents. *)
Theorem friend_groups_partition qs :
  let s := serve_all qs empty_store in
  let f := friends_of s in
  (∀ pid g, group_of f !! pid = Some g ↔ pid ∈ smembers g (groups f)) ∧
  (∀ pid g g', pid ∈ smembers g (groups f) → pid ∈ smembers g' (groups f) →
     g = g') ∧
  (∀ pid x, x ∈ get_friends_of_friends s pid →
     same_group f pid x ∧ x ≠ pid ∧ x ∉ opponents pid s).
Proof.
  intros s f. destruct (serve_all_friends_ok qs) as [Hpm Hmp]. fold s f in Hpm, Hmp.
  split_and!.
  - intros pid g. split; [apply Hpm|apply Hmp].
  - intros pid g g' H1%Hmp H2%Hmp. congruence.
  - intros pid x. unfold get_friends_of_friends, same_group, opponents.
    change (PLAYER_FRIEND_GROUP (player s)) with (group_of f).
    change (GLOBAL_FRIEND_GROUP (global s)) with (groups f).
    destruct (group_of f !! pid) as [g|] eqn:E; [|by intros ?%elem_of_nil].
    rewrite elem_of_elements. intros Hx.
    split; [|set_solver]. exists g. split; [done|].
    apply Hmp. set_solver.
Qed.

Lemma friend_groups_partition_witness :
  "c" ∈ smembers 7%N (groups (friends_of store_C)) ∧
  same_group (friends_of store_C) "a" "c".
Proof.
  destruct (friend_groups_partition
              [AddGameRecord [7%N] game_ab; AddGameRecord [8%N] game_bc])
    as (Hiff & _ & Hfof).
  split.
  - apply Hiff. vm_compute. reflexivity.
  - apply (Hfof "a" "c"). vm_compute. repeat constructor.
Defined.

(** *** The games-list and the games-set of a player *)

Lemma update_player_keys_Ok r c1 p1 c2 p2 s s' :
  update_player_keys r c1 p1 c2 p2 s = (Ok tt, s') →
  (∀ pid, games_counted pid s' =
          games_counted pid s + if decide (pid = p1) then 1 else 0) ∧
  (∀ pid, games_list pid s' =
          if decide (pid = p1) then games_list pid s ++ [game_id r]
          else games_list pid s) ∧
  (∀ pid, games_set pid s' =
          if decide (pid = p1) then {[game_id r]} ∪ games_set pid s
          else games_set pid s) ∧
  (∀ pid, opponents pid s' =
          if decide (pid = p1) then {[p2]} ∪ opponents pid s
          else opponents pid s).
Proof.
  unfold update_player_keys, observe_player_opening.
  unfold games_counted, games_list, games_set, opponents.
  destruct (bool_decide (winner r = c1)); [|destruct (bool_decide (winner r = c2))].
  - unfold bind, INCR, incr, update_top_list_at, modify, read, ret. simpl.
    destruct (update_top_list _ _ _) as [[[]|?|?] top']; simpl; [|done..].
    destruct (beats _ _); intros [= <-]; simpl;
      (split_and!; intros pid; rewrite ?smembers_sadd;
       destruct (decide (pid = p1)) as [->|Hne];
       rewrite ?lookup_insert_eq, ?lookup_insert_ne by done; simpl;
       first [done|lia]).
  - unfold bind, INCR, incr, update_top_list_at, modify, read, ret. simpl.
    destruct (update_top_list _ _ _) as [[[]|?|?] top']; simpl; [|done..].
    destruct (beats _ _); intros [= <-]; simpl;
      (split_and!; intros pid; rewrite ?smembers_sadd;
       destruct (decide (pid = p1)) as [->|Hne];
       rewrite ?lookup_insert_eq, ?lookup_insert_ne by done; simpl;
       first [done|lia]).
  - unfold bind, INCR, incr, modify, read, ret. simpl.
    destruct (beats _ _); intros [= <-]; simpl;
      (split_and!; intros pid; rewrite ?smembers_sadd;
       destruct (decide (pid = p1)) as [->|Hne];
       rewrite ?lookup_insert_eq, ?lookup_insert_ne by done; simpl;
       first [done|lia]).
Qed.

(** A call that does not return ended before the games keys. *)
Lemma update_player_keys_stopped r c1 p1 c2 p2 s :
  (update_player_keys r c1 p1 c2 p2 s).1 ≠ Ok tt →
  ∀ pid, games_set pid (update_player_keys r c1 p1 c2 p2 s).2 = games_set pid s ∧
         games_list pid (update_player_keys r c1 p1 c2 p2 s).2 = games_list pid s.
Proof.
  unfold update_player_keys, observe_player_opening.
  destruct (bool_decide (winner r = c1)); [|destruct (bool_decide (winner r = c2))].
  - unfold bind, INCR, incr, update_top_list_at, modify, read, ret. simpl.
    destruct (update_top_list _ _ _) as [[[]|?|?] top']; simpl; [|done..].
    by destruct (beats _ _).
  - unfold bind, INCR, incr, update_top_list_at, modify, read, ret. simpl.
    destruct (update_top_list _ _ _) as [[[]|?|?] top']; simpl; [|done..].
    by destruct (beats _ _).
  - unfold bind, INCR, incr, modify, read, ret. simpl.
    by destruct (beats _ _).
Qed.

Lemma update_player_keys_agree r c1 p1 c2 p2 :
  preserves games_agree (update_player_keys r c1 p1 c2 p2).
Proof.
  intros s Hs.
  destruct (update_player_keys r c1 p1 c2 p2 s) as [[[]|e|b] s'] eqn:E; simpl.
  - destruct (update_player_keys_Ok _ _ _ _ _ _ _ E) as (_ & Hl & Hset & _).
    intros pid. rewrite Hl, Hset, Hs.
    destruct (decide (pid = p1)); [|done].
    rewrite list_to_set_app_L. simpl. set_solver.
  - pose proof (update_player_keys_stopped r c1 p1 c2 p2 s) as Hst.
    rewrite E in Hst. simpl in Hst.
    intros pid. destruct (Hst ltac:(done) pid) as [-> ->]. apply Hs.
  - pose proof (update_player_keys_stopped r c1 p1 c2 p2 s) as Hst.
    rewrite E in Hst. simpl in Hst.
    intros pid. destruct (Hst ltac:(done) pid) as [-> ->]. apply Hs.
Qed.

Lemma serve_preserves_games_agree q : preserves games_agree (serve q).
Proof.
  assert (∀ B (m : M B),
            keeps (λ s, (PLAYER_GAMES_LIST (player s),
                         PLAYER_GAMES_SET (player s))) m →
            preserves games_agree m) as Hkept.
  { intros B m. apply preserves_keeps.
    intros s s' [= Hl Hset] Hs pid. unfold games_set, games_list.
    rewrite Hl, Hset. apply Hs. }
  destruct q as [p|schedule|draws r]; simpl.
  - apply Hkept. unfold add_player, assert_player_is_new. keeps_tac.
  - apply Hkept. unfold add_schedule, assert_game_is_new. keeps_tac.
  - unfold add_game_record.
    apply preserves_bind;
      [apply Hkept; unfold assert_game_is_new; keeps_tac|intros _].
    apply preserves_bind; [apply Hkept, keeps_lift_result|intros moves].
    unfold record_game.
    apply preserves_bind; [apply Hkept; keeps_tac|intros _].
    apply preserves_bind; [apply update_player_keys_agree|intros _].
    apply preserves_bind; [apply update_player_keys_agree|intros _].
    apply Hkept. keeps_unfold.
Qed.

(** X7. In the store after any series of write events the games-set of
    a player holds exactly the game ids of its games-list. *)
Theorem games_list_and_set_agree qs pid gid :
  gid ∈ games_set pid (serve_all qs empty_store) ↔
  gid ∈ games_list pid (serve_all qs empty_store).
Proof.
  assert (games_agree (serve_all qs empty_store)) as H.
  { apply (serve_all_preserves games_agree);
      [apply serve_preserves_games_agree|done]. }
  rewrite (H pid). apply elem_of_list_to_set.
Qed.

Lemma games_list_and_set_agree_witness : "bc" ∈ games_set "b" store_C.
Proof.
  apply (games_list_and_set_agree
           [AddGameRecord [7%N] game_ab; AddGameRecord [8%N] game_bc] "b" "bc").
  vm_compute. repeat constructor.
Defined.

(** *** Pairings *)

Lemma lpush_trim_lookup key value stop (m : gmap string (list string)) pid :
  default [] (lpush_trim key value stop m !! pid) =
    if decide (pid = key) then take (S stop) (value :: default [] (m !! pid))
    else default [] (m !! pid).
Proof.
  unfold lpush_trim, ltrim, lpush.
  destruct (decide (pid = key)) as [->|Hne].
  - by rewrite lookup_insert_eq.
  - by rewrite lookup_insert_ne.
Qed.

Lemma expire_lookup (key : string) (seconds : Z)
    (m : gmap string (string * option Z)) (k : string) :
  expire key seconds m !! k =
    if decide (k = key) then (λ v, (v.1, Some seconds)) <$> m !! k
    else m !! k.
Proof.
  unfold expire. destruct (decide (k = key)) as [->|Hne].
  - destruct (m !! key) as [[v ttl]|] eqn:E; simpl.
    + by rewrite lookup_insert_eq.
    + by rewrite E.
  - destruct (m !! key) as [[v ttl]|] eqn:E; [|done].
    by rewrite lookup_insert_ne.
Qed.

Lemma serve_preserves_scheduled_capped q :
  preserves (λ s, ∀ pid, (length (scheduled_games pid s) ≤ 200)%nat) (serve q).
Proof.
  assert (∀ B (m : M B), keeps (PLAYER_SCHEDULED_GAMES ∘ player) m →
            preserves (λ s, ∀ pid, (length (scheduled_games pid s) ≤ 200)%nat) m)
    as Hkept.
  { intros B m. apply preserves_keeps.
    intros s s' Heq Hs pid. unfold scheduled_games.
    simpl in Heq. rewrite Heq. apply Hs. }
  assert (∀ key value,
            preserves (λ s, ∀ pid, (length (scheduled_games pid s) ≤ 200)%nat)
              (modify (on_PLAYER_SCHEDULED_GAMES (lpush_trim key value 199))))
    as Hpush.
  { intros key value s Hs pid. unfold modify, scheduled_games. simpl.
    rewrite lpush_trim_lookup. destruct (decide (pid = key)); [|apply Hs].
    rewrite length_take. lia. }
  destruct q as [p|schedule|draws r]; simpl.
  - apply Hkept. unfold add_player, assert_player_is_new. keeps_tac.
  - unfold add_schedule.
    apply preserves_bind;
      [apply Hkept; unfold assert_game_is_new; keeps_tac|intros _].
    apply preserves_bind; [apply Hkept; keeps_tac|intros _].
    apply preserves_bind; [apply Hkept; keeps_tac|intros _].
    apply preserves_bind; [apply Hkept; keeps_tac|intros _].
    apply preserves_bind; [apply Hpush|intros _]. apply Hpush.
  - apply Hkept. unfold add_game_record, assert_game_is_new, record_game.
    keeps_unfold.
Qed.

(** X16. After any series of write events the scheduled list of a
    player holds at most 200 games. *)
Theorem scheduled_games_capped qs pid :
  (length (scheduled_games pid (serve_all qs empty_store)) ≤ 200)%nat.
Proof.
  revert pid.
  apply (serve_all_preserves
           (λ s, ∀ pid, (length (scheduled_games pid s) ≤ 200)%nat));
    [apply serve_preserves_scheduled_capped|].
  intros pid. unfold scheduled_games, empty_store. simpl.
  rewrite lookup_empty. simpl. lia.
Qed.

Lemma add_schedule_new schedule s :
  schedule_game_id schedule ∉ games_ids s →
  let gid := schedule_game_id schedule in
  let p1 := player_1 schedule in
  let p2 := player_2 schedule in
  let s' := (add_schedule schedule s).2 in
  (add_schedule schedule s).1 = Ok tt ∧
  games_ids s' = {[gid]} ∪ games_ids s ∧
  head (scheduled_games p1 s') = Some gid ∧
  head (scheduled_games p2 s') = Some gid ∧
  scheduled_opponent p1 gid s' = Some (p2, Some 259200) ∧
  scheduled_opponent p2 gid s' = Some (p1, Some 259200) ∧
  (∀ pid, pid ≠ p1 → pid ≠ p2 →
     scheduled_games pid s' = scheduled_games pid s).
Proof.
  intros Hnew gid p1 p2 s'. subst s'.
  unfold add_schedule, bind, modify. rewrite assert_game_is_new_run.
  rewrite bool_decide_eq_false_2 by done.
  unfold scheduled_games, scheduled_opponent, games_ids. simpl.
  fold gid p1 p2.
  split; [done|]. split; [done|].
  rewrite !lpush_trim_lookup.
  rewrite !expire_lookup.
  split_and!.
  - destruct (decide (p1 = p2)); [done|]. by rewrite decide_True.
  - by rewrite decide_True.
  - destruct (decide (p1 = p2)) as [Heq|Hne].
    + rewrite <- Heq.
      destruct (decide (PLAYER_SCHEDULED_GAME_OPPONENT p1 gid =
                        PLAYER_SCHEDULED_GAME_OPPONENT p1 gid)) as [_|];
        [|done].
      by rewrite lookup_insert_eq.
    + destruct (decide (PLAYER_SCHEDULED_GAME_OPPONENT p1 gid =
                        PLAYER_SCHEDULED_GAME_OPPONENT p2 gid))
        as [Heq'%PLAYER_SCHEDULED_GAME_OPPONENT_inj|Hkey];
        [by destruct Hne|].
      destruct (decide (PLAYER_SCHEDULED_GAME_OPPONENT p1 gid =
                        PLAYER_SCHEDULED_GAME_OPPONENT p1 gid)) as [_|];
        [|done].
      rewrite lookup_insert_ne by done. by rewrite lookup_insert_eq.
  - destruct (decide (PLAYER_SCHEDULED_GAME_OPPONENT p2 gid =
                      PLAYER_SCHEDULED_GAME_OPPONENT p2 gid)) as [_|]; [|done].
    destruct (decide (PLAYER_SCHEDULED_GAME_OPPONENT p2 gid =
                      PLAYER_SCHEDULED_GAME_OPPONENT p1 gid)) as [Heq|Hne];
      by rewrite lookup_insert_eq.
  - intros pid H1 H2.
    rewrite !lpush_trim_lookup.
    destruct (decide (pid = p2)); [done|]. by destruct (decide (pid = p1)).
Qed.

(** X15. [add_schedule] with a taken game id raises
    BoardGameClubNotUniqueError and leaves the store as it was.  With a new
    id it returns, reserves the id, puts the game at the head of the
    scheduled list of both players, records each as the opponent of the other
    with a time to live of 259200 seconds, and leaves the scheduled lists of
    every other player alone. *)
Theorem add_schedule_records schedule s :
  (schedule_game_id schedule ∈ games_ids s →
     ∃ msg,
       add_schedule schedule s = (Raise (BoardGameClubNotUniqueError msg), s)) ∧
  (schedule_game_id schedule ∉ games_ids s →
     let gid := schedule_game_id schedule in
     let p1 := player_1 schedule in
     let p2 := player_2 schedule in
     let s' := (add_schedule schedule s).2 in
     (add_schedule schedule s).1 = Ok tt ∧
     games_ids s' = {[gid]} ∪ games_ids s ∧
     head (scheduled_games p1 s') = Some gid ∧
     head (scheduled_games p2 s') = Some gid ∧
     scheduled_opponent p1 gid s' = Some (p2, Some 259200) ∧
     scheduled_opponent p2 gid s' = Some (p1, Some 259200) ∧
     (∀ pid, pid ≠ p1 → pid ≠ p2 →
        scheduled_games pid s' = scheduled_games pid s)).
Proof.
  split.
  - intros Hin. eexists. by apply add_schedule_duplicate.
  - apply add_schedule_new.
Qed.

Lemma add_schedule_records_witness :
  (∃ msg,
     add_schedule {| schedule_game_id := "g1"; player_1 := "p3";
                     player_2 := "p4" |} store_A
     = (Raise (BoardGameClubNotUniqueError msg), store_A)) ∧
  let s' := (add_schedule pairing_h1 empty_store).2 in
  (add_schedule pairing_h1 empty_store).1 = Ok tt ∧
  games_ids s' = {["h1"]} ∪ games_ids empty_store ∧
  head (scheduled_games "p1" s') = Some "h1" ∧
  head (scheduled_games "p2" s') = Some "h1" ∧
  scheduled_opponent "p1" "h1" s' = Some ("p2", Some 259200) ∧
  scheduled_opponent "p2" "h1" s' = Some ("p1", Some 259200) ∧
  (∀ pid, pid ≠ "p1" → pid ≠ "p2" →
     scheduled_games pid s' = scheduled_games pid empty_store).
Proof.
  split.
  - apply (proj1 (add_schedule_records
                    {| schedule_game_id := "g1"; player_1 := "p3";
                       player_2 := "p4" |} store_A)).
    vm_compute. reflexivity.
  - apply (proj2 (add_schedule_records pairing_h1 empty_store)).
    vm_compute. discriminate.
Defined.

(** *** Ids taken: the sibling calls *)

Lemma add_player_duplicate p s :
  user_id p ∈ players_ids s →
  add_player p s =
    (Raise (BoardGameClubNotUniqueError
              ("user_id " +:+ user_id p +:+ " is already taken")), s).
Proof.
  intros Hin. unfold add_player. unfold bind at 1.
  rewrite assert_player_is_new_run, bool_decide_eq_true_2 by done.
  f_equal. destruct s as [pl g [] an]. unfold on_GLOBAL_PLAYERS_IDS. simpl.
  do 2 f_equal. unfold players_ids in Hin. simpl in Hin. set_solver.
Qed.

Lemma add_player_new p s :
  user_id p ∉ players_ids s →
  let pid := user_id p in
  let s' := (add_player p s).2 in
  (add_player p s).1 = Ok tt ∧
  players_ids s' = {[pid]} ∪ players_ids s ∧
  GLOBAL_PLAYERS_EMAILS (global s') =
    {[email p]} ∪ GLOBAL_PLAYERS_EMAILS (global s) ∧
  player_keys pid s' =
    (Some (email p), Some 0, Some 0, Some 0,
     PLAYER_GAMES_LIST (player s) !! pid, PLAYER_GAMES_SET (player s) !! pid,
     PLAYER_OPPONENTS (player s) !! pid,
     PLAYER_MOST_FREQ_OPENING (player s) !! pid,
     PLAYER_FRIEND_GROUP (player s) !! pid,
     PLAYER_SCHEDULED_GAMES (player s) !! pid) ∧
  PLAYER_COUNT_KEYS (player s') =
    <[PLAYER_MOST_FREQ_OPENING_COUNT pid := 0]> (PLAYER_COUNT_KEYS (player s)) ∧
  (∀ pid', pid' ≠ pid → player_keys pid' s' = player_keys pid' s) ∧
  PLAYER_OPPONENT_KEYS (player s') = PLAYER_OPPONENT_KEYS (player s) ∧
  game s' = game s ∧ analytics s' = analytics s ∧
  games_ids s' = games_ids s ∧
  GLOBAL_FRIEND_GROUP (global s') = GLOBAL_FRIEND_GROUP (global s) ∧
  seq_games s' = seq_games s ∧ seq_count s' = seq_count s ∧
  GLOBAL_OPENING_COUNT (global s') = GLOBAL_OPENING_COUNT (global s).
Proof.
  intros Hnew pid s'. subst s'.
  unfold add_player, bind, modify, SADD, ret. rewrite assert_player_is_new_run.
  rewrite bool_decide_eq_false_2 by done.
  unfold players_ids, player_keys, games_ids, seq_games, seq_count. simpl.
  fold pid. rewrite !lookup_insert_eq.
  split_and!; try done.
  intros pid' Hne. by rewrite !lookup_insert_ne.
Qed.

(** X14. [add_player] with a taken user id raises
    BoardGameClubNotUniqueError and leaves the store as it was.  With a new
    id it returns, registers the id and the email, sets the email, the three
    result counters and the most-frequent-opening count of the player, and
    writes no other key: the keys of every other player under the templates
    with one parameter, the scheduled opponents, the games, the leaderboards
    and the other analytics keys, the game ids, the friend groups and the
    club-wide counters are as they were.  The count key it sets to 0 is also
    the key of an opening counter of another player when the new id is the
    id of that player followed by [:openings]. *)
Theorem add_player_registers p s :
  (user_id p ∈ players_ids s →
     ∃ msg, add_player p s = (Raise (BoardGameClubNotUniqueError msg), s)) ∧
  (user_id p ∉ players_ids s →
     let pid := user_id p in
     let s' := (add_player p s).2 in
     (add_player p s).1 = Ok tt ∧
     players_ids s' = {[pid]} ∪ players_ids s ∧
     GLOBAL_PLAYERS_EMAILS (global s') =
       {[email p]} ∪ GLOBAL_PLAYERS_EMAILS (global s) ∧
     player_keys pid s' =
       (Some (email p), Some 0, Some 0, Some 0,
        PLAYER_GAMES_LIST (player s) !! pid, PLAYER_GAMES_SET (player s) !! pid,
        PLAYER_OPPONENTS (player s) !! pid,
        PLAYER_MOST_FREQ_OPENING (player s) !! pid,
        PLAYER_FRIEND_GROUP (player s) !! pid,
        PLAYER_SCHEDULED_GAMES (player s) !! pid) ∧
     PLAYER_COUNT_KEYS (player s') =
       <[PLAYER_MOST_FREQ_OPENING_COUNT pid := 0]>
         (PLAYER_COUNT_KEYS (player s)) ∧
     (∀ pid', pid' ≠ pid → player_keys pid' s' = player_keys pid' s) ∧
     PLAYER_OPPONENT_KEYS (player s') = PLAYER_OPPONENT_KEYS (player s) ∧
     game s' = game s ∧ analytics s' = analytics s ∧
     games_ids s' = games_ids s ∧
     GLOBAL_FRIEND_GROUP (global s') = GLOBAL_FRIEND_GROUP (global s) ∧
     seq_games s' = seq_games s ∧ seq_count s' = seq_count s ∧
     GLOBAL_OPENING_COUNT (global s') = GLOBAL_OPENING_COUNT (global s)) ∧
  (∀ pid,
     PLAYER_MOST_FREQ_OPENING_COUNT (pid +:+ ":openings") =
       PLAYER_OPENING_COUNT pid "most_freq_opening").
Proof.
  split_and!.
  - intros Hin. eexists. by apply add_player_duplicate.
  - apply add_player_new.
  - intros pid. symmetry. apply PLAYER_OPENING_COUNT_shared.
Qed.

Lemma add_player_registers_witness :
  (∃ msg,
     add_player {| user_id := "ann"; email := "ann@club.org" |}
       (add_player {| user_id := "ann"; email := "a@club.org" |} empty_store).2
     = (Raise (BoardGameClubNotUniqueError msg),
        (add_player {| user_id := "ann"; email := "a@club.org" |}
           empty_store).2)) ∧
  (add_player {| user_id := "ann"; email := "a@club.org" |} store_A).1 = Ok tt ∧
  player_keys "p1"
    (add_player {| user_id := "ann"; email := "a@club.org" |} store_A).2 =
    player_keys "p1" store_A.
Proof.
  split.
  - apply (proj1 (add_player_registers
                    {| user_id := "ann"; email := "ann@club.org" |}
                    (add_player {| user_id := "ann"; email := "a@club.org" |}
                       empty_store).2)).
    vm_compute. reflexivity.
  - destruct (proj1 (proj2 (add_player_registers
                    {| user_id := "ann"; email := "a@club.org" |} store_A)))
      as (HOk & _ & _ & _ & _ & Hothers & _).
    { vm_compute. discriminate. }
    split; [exact HOk|]. apply Hothers. discriminate.
Defined.

(** *** What a returned [add_game_record] has written *)

Ltac kept get H :=
  match type of H with
  | ?m ?s = (_, _) =>
      let K := fresh "K" in
      let E := fresh "E" in
      assert (keeps get m) as K
        by (unfold assert_game_is_new; keeps_unfold);
      pose proof (keeps_run get m _ _ _ K H) as E;
      unfold compose in E; rewrite E; clear K E
  end.

Lemma add_game_record_stages draws r s s' :
  add_game_record draws r s = (Ok tt, s') →
  ∃ moves s0 s1 s2 s3 s8,
    parse_moveset (moveset r) = Ok moves ∧
    assert_game_is_new (game_id r) s = (Ok tt, s0) ∧
    for_each (find_all_three_move_sequences moves)
      (λ seq, modify (on_GLOBAL_SEQ_GAMES (sadd seq (game_id r)))) s0
      = (Ok tt, s1) ∧
    update_player_keys r "white" (white_player_id r) "black"
      (black_player_id r) s1 = (Ok tt, s2) ∧
    update_player_keys r "black" (black_player_id r) "white"
      (white_player_id r) s2 = (Ok tt, s3) ∧
    (update_game_keys r moves ;;;
     update_common_seqs (find_all_three_move_sequences moves) ;;;
     this_game_eco_count <-
       INCR (GLOBAL_OPENING_COUNT ∘ global) on_GLOBAL_OPENING_COUNT
            (opening_eco r) ;;
     update_shortest_game r ;;;
     update_most_freq_opening r this_game_eco_count) s3 = (Ok tt, s8) ∧
    update_friend_groups_at draws (white_player_id r) (black_player_id r) s8
      = (Ok tt, s').
Proof.
  unfold add_game_record. intros Hrun.
  apply bind_Ok in Hrun as ([] & s0 & H0 & Hrun).
  apply bind_Ok in Hrun as (moves & s0' & Hparse & Hrun).
  unfold lift_result in Hparse. injection Hparse as Hparse <-.
  unfold record_game in Hrun.
  apply bind_Ok in Hrun as ([] & s1 & H1 & Hrun).
  apply bind_Ok in Hrun as ([] & s2 & H2 & Hrun).
  apply bind_Ok in Hrun as ([] & s3 & H3 & Hrun).
  apply bind_Ok in Hrun as ([] & s4 & H4 & Hrun).
  apply bind_Ok in Hrun as ([] & s5 & H5 & Hrun).
  apply bind_Ok in Hrun as (this & s6 & H6 & Hrun).
  apply bind_Ok in Hrun as ([] & s7 & H7 & Hrun).
  apply bind_Ok in Hrun as ([] & s8 & H8 & H9).
  exists moves, s0, s1, s2, s3, s8. split_and!; try done.
  unfold bind. rewrite H4, H5, H6, H7. done.
Qed.

Lemma add_game_record_books draws r s s' :
  add_game_record draws r s = (Ok tt, s') →
  let gid := game_id r in
  let white := white_player_id r in
  let black := black_player_id r in
  ∀ pid,
    games_counted pid s' =
      games_counted pid s + (if decide (pid = white) then 1 else 0)
                          + (if decide (pid = black) then 1 else 0) ∧
    games_list pid s' =
      games_list pid s ++ (if decide (pid = white) then [gid] else [])
                       ++ (if decide (pid = black) then [gid] else []) ∧
    opponents pid s' =
      (if decide (pid = white) then {[black]} else ∅) ∪
      (if decide (pid = black) then {[white]} else ∅) ∪ opponents pid s.
Proof.
  intros Hrun gid white black pid.
  destruct (add_game_record_stages _ _ _ _ Hrun)
    as (moves & s0 & s1 & s2 & s3 & s8 & _ & H0 & H1 & H2 & H3 & H8 & H9).
  destruct (update_player_keys_Ok _ _ _ _ _ _ _ H2) as (Hc2 & Hl2 & _ & Ho2).
  destruct (update_player_keys_Ok _ _ _ _ _ _ _ H3) as (Hc3 & Hl3 & _ & Ho3).
  fold white black gid in Hc2, Hl2, Ho2, Hc3, Hl3, Ho3.
  split_and!.
  - kept (games_counted pid) H9. kept (games_counted pid) H8.
    rewrite Hc3, Hc2.
    kept (games_counted pid) H1. kept (games_counted pid) H0. done.
  - kept (games_list pid) H9. kept (games_list pid) H8.
    rewrite Hl3, Hl2.
    kept (games_list pid) H1. kept (games_list pid) H0.
    destruct (decide (pid = white)), (decide (pid = black));
      by rewrite <- ?app_assoc, ?app_nil_r.
  - kept (opponents pid) H9. kept (opponents pid) H8.
    rewrite Ho3, Ho2.
    kept (opponents pid) H1. kept (opponents pid) H0.
    destruct (decide (pid = white)), (decide (pid = black)); set_solver.
Qed.

(** X8. When [add_game_record] returns, the three result counters of a
    player together grow by one for each colour the player had in the game,
    the game id is appended to the games-list once per colour, and the
    opponent joins the opponents Set; every other player keeps its counters,
    its list and its opponents. *)
Theorem returned_game_in_the_books draws game_record s s' :
  add_game_record draws game_record s = (Ok tt, s') →
  let gid := game_id game_record in
  let white := white_player_id game_record in
  let black := black_player_id game_record in
  ∀ pid,
    games_counted pid s' =
      games_counted pid s + (if decide (pid = white) then 1 else 0)
                          + (if decide (pid = black) then 1 else 0) ∧
    games_list pid s' =
      games_list pid s ++ (if decide (pid = white) then [gid] else [])
                       ++ (if decide (pid = black) then [gid] else []) ∧
    opponents pid s' =
      (if decide (pid = white) then {[black]} else ∅) ∪
      (if decide (pid = black) then {[white]} else ∅) ∪ opponents pid s.
Proof. apply add_game_record_books. Qed.

Lemma returned_game_in_the_books_witness :
  games_counted "b" store_C = 2 ∧
  games_list "b" store_C = ["ab"; "bc"] ∧
  opponents "b" store_C = {["a"; "c"]}.
Proof.
  destruct (returned_game_in_the_books [8%N] game_bc
              (add_game_record [7%N] game_ab empty_store).2 store_C
              ltac:(vm_compute; reflexivity) "b") as (Hc & Hl & Ho).
  split_and!.
  - rewrite Hc. vm_compute. reflexivity.
  - rewrite Hl. vm_compute. reflexivity.
  - rewrite Ho. vm_compute. reflexivity.
Defined.

Lemma add_game_record_links draws r s s' :
  friends_ok (friends_of s) →
  add_game_record draws r s = (Ok tt, s') →
  friends_ok (friends_of s') ∧
  same_group (friends_of s') (white_player_id r) (black_player_id r).
Proof.
  intros Hok Hrun.
  destruct (add_game_record_stages _ _ _ _ Hrun)
    as (moves & s0 & s1 & s2 & s3 & s8 & _ & H0 & H1 & H2 & H3 & H8 & H9).
  assert (friends_of s8 = friends_of s) as Hsame.
  { kept friends_of H8. kept friends_of H3. kept friends_of H2.
    kept friends_of H1. by kept friends_of H0. }
  pose proof (update_friend_groups_at_run draws (white_player_id r)
                (black_player_id r) s8) as Hat.
  rewrite H9, Hsame in Hat. simpl in Hat. symmetry in Hat.
  destruct (update_friend_groups_link _ _ _ _ _ Hok Hat) as (Hok' & g & Hg & _).
  split; [done|]. exists g. split; apply Hg; unfold near; tauto.
Qed.

(** X9. When [add_game_record] returns on a store that a series of
    write events left, the two players are in the same friend group, each is
    an opponent of the other, and neither is among the friends of friends of
    the other. *)
Theorem returned_game_links_players qs draws game_record s' :
  add_game_record draws game_record (serve_all qs empty_store) = (Ok tt, s') →
  let white := white_player_id game_record in
  let black := black_player_id game_record in
  same_group (friends_of s') white black ∧
  black ∈ opponents white s' ∧ white ∈ opponents black s' ∧
  (black ∉ get_friends_of_friends s' white) ∧
  (white ∉ get_friends_of_friends s' black).
Proof.
  intros Hrun white black.
  destruct (add_game_record_links _ _ _ _ (serve_all_friends_ok qs) Hrun)
    as [_ Hsame].
  pose proof (add_game_record_books _ _ _ _ Hrun) as Hbooks. simpl in Hbooks.
  fold white black in Hbooks, Hsame.
  assert (black ∈ opponents white s') as Hb.
  { destruct (Hbooks white) as (_ & _ & ->).
    rewrite decide_True by done. set_solver. }
  assert (white ∈ opponents black s') as Hw.
  { destruct (Hbooks black) as (_ & _ & ->).
    rewrite (decide_True (P := black = black)) by done. set_solver. }
  split_and!; try done.
  - unfold get_friends_of_friends.
    destruct (PLAYER_FRIEND_GROUP (player s') !! white); [|by intros ?%elem_of_nil].
    rewrite elem_of_elements. unfold opponents in Hb. set_solver.
  - unfold get_friends_of_friends.
    destruct (PLAYER_FRIEND_GROUP (player s') !! black); [|by intros ?%elem_of_nil].
    rewrite elem_of_elements. unfold opponents in Hw. set_solver.
Qed.

Lemma returned_game_links_players_witness :
  same_group (friends_of store_C) "b" "c" ∧
  "c" ∈ opponents "b" store_C ∧ "b" ∈ opponents "c" store_C ∧
  ("c" ∉ get_friends_of_friends store_C "b") ∧
  ("b" ∉ get_friends_of_friends store_C "c").
Proof.
  apply (returned_game_links_players [AddGameRecord [7%N] game_ab] [8%N]
           game_bc store_C).
  vm_compute. reflexivity.
Defined.

(** *** The shortest game *)

Lemma triple_bind {B C} (P R Q : Store → Prop) (m : M B) (k : B → M C) :
  triple P R m → (∀ s, R s → Q s) → (∀ b, triple R Q (k b)) →
  triple P Q (bind m k).
Proof.
  intros Hm HRQ Hk s Hs. unfold bind. specialize (Hm s Hs).
  destruct (m s) as [[b| |] s1]; simpl in *; [by apply Hk|by apply HRQ..].
Qed.

Lemma triple_keeps {A B} (get : Store → A) (P : Store → Prop) (m : M B) :
  (∀ s s', get s' = get s → P s → P s') → keeps get m → triple P P m.
Proof. intros Hget Hm s Hs. eapply Hget; [apply Hm|done]. Qed.

(** What a call does to a part of the store that its continuation keeps. *)
Lemma bind_state_keeps {A B C} (get : Store → A) (m : M B) (k : B → M C) s :
  (∀ b, keeps get (k b)) → get (bind m k s).2 = get (m s).2.
Proof.
  intros Hk. unfold bind. destruct (m s) as [[b|e|b] s1]; simpl; [|done..].
  apply Hk.
Qed.

Lemma turns_value_Some x n : int_of x = IntValue n → turns_value (Some x) = Some n.
Proof. unfold turns_value. by intros ->. Qed.

Lemma turns_value_numeric x n : turns_value (Some x) = Some n → numeric x.
Proof.
  unfold turns_value, numeric. destruct (int_of x) as [m| |]; [|done..].
  by exists m.
Qed.

Lemma numeric_truthy x : numeric x → truthy x = true.
Proof.
  destruct x as [n|text]; [done|]. intros [n Hn]. simpl in *.
  by destruct text.
Qed.

Lemma record_turns_ok r moves v :
  numeric (number_of_turns r) →
  shortest_ok v → unrecorded (game_id r) v → game_id r ∈ reserved v →
  shortest_ok (record_turns r moves v).
Proof.
  destruct v as [tu mo [sg st] res].
  intros [t Ht] [Hp Hs Hrd Hl Hr] (Htu & Hmo & Hg) Hin. simpl in *.
  set (gid := game_id r) in *. set (x := number_of_turns r) in *.
  pose proof (turns_value_Some _ _ Ht) as Hvx.
  assert (∀ g y, <[gid := x]> tu !! g = Some y → g ∈ res) as Hres.
  { intros g y. destruct (decide (g = gid)) as [->|Hne]; [done|].
    rewrite lookup_insert_ne by done. apply Hr. }
  assert (∀ g, sg = Some g → <[gid := x]> tu !! g = st) as Hkeep.
  { intros g Hsg. rewrite lookup_insert_ne by congruence. by apply Hs. }
  unfold record_turns. fold gid x. simpl.
  destruct moves as [|mv rest].
  { constructor; simpl; [done|done|done| |done].
    intros g ms Hg'. assert (g ≠ gid) by congruence.
    rewrite lookup_insert_ne by done. by eapply Hl. }
  assert (∀ g ms,
            <[gid := default [] (mo !! gid) ++ mv :: rest]> mo !! g = Some ms →
            g = gid ∨ (g ≠ gid ∧ mo !! g = Some ms)) as Hmoves.
  { intros g ms. destruct (decide (g = gid)) as [->|Hne]; [by left|].
    rewrite lookup_insert_ne by done. by right. }
  assert ((∀ g ms, g ≠ gid → mo !! g = Some ms →
             ∃ t', turns_value (tu !! g) = Some t' ∧ t ≤ t') →
          shortest_ok
            {| turns_of := <[gid := x]> tu;
               moves_of := <[gid := default [] (mo !! gid) ++ mv :: rest]> mo;
               shortest := (Some gid, Some x); reserved := res |}) as Hnew.
  { intros Hall. constructor; cbn [shortest turns_of moves_of reserved fst snd];
      [done| | | |done].
    - intros g [= <-]. by rewrite lookup_insert_eq.
    - intros y [= <-]. by exists t.
    - intros g ms [->|[Hne Hg']]%Hmoves.
      + exists t, t. rewrite lookup_insert_eq. split_and!; [done..|lia].
      + destruct (Hall _ _ Hne Hg') as (t' & Ht' & Hle).
        exists t', t. rewrite lookup_insert_ne by done. by split_and!. }
  unfold shortest_after. fold gid x. simpl.
  destruct st as [cur|].
  - destruct (Hrd cur eq_refl) as [c Hc].
    pose proof (turns_value_Some _ _ Hc) as Hvc.
    rewrite Ht, Hc. destruct (t <? c) eqn:Hlt.
    + apply Z.ltb_lt in Hlt. apply Hnew. intros g ms Hne Hg'.
      destruct (Hl _ _ Hg') as (t' & m' & Ht' & Hm' & Hle).
      rewrite Hvc in Hm'. injection Hm' as <-. exists t'. split; [done|lia].
    + apply Z.ltb_ge in Hlt.
      constructor; simpl; [done|done|done| |done].
      intros g ms [->|[Hne Hg']]%Hmoves.
      * exists t, c. rewrite lookup_insert_eq. by split_and!.
      * destruct (Hl _ _ Hg') as (t' & m' & Ht' & Hm' & Hle).
        exists t', m'. rewrite lookup_insert_ne by done. by split_and!.
  - apply Hnew. intros g ms Hne Hg'.
    by destruct (Hl _ _ Hg') as (t' & m' & _ & ? & _).
Qed.

(** Lines 233-242 of [add_game_record] on the shortest-game part of the
    store, whatever they return. *)
Lemma record_tail_view draws r moves s :
  shortest_view
    ((update_game_keys r moves ;;;
      update_common_seqs (find_all_three_move_sequences moves) ;;;
      this_game_eco_count <-
        INCR (GLOBAL_OPENING_COUNT ∘ global) on_GLOBAL_OPENING_COUNT
             (opening_eco r) ;;
      update_shortest_game r ;;;
      update_most_freq_opening r this_game_eco_count ;;;
      update_friend_groups_at draws (white_player_id r) (black_player_id r))
       s).2 =
  record_turns r moves (shortest_view s).
Proof.
  destruct moves as [|mv rest].
  { unfold bind at 1. unfold update_game_keys, bind, modify, raise. simpl.
    reflexivity. }
  set (moves := mv :: rest).
  assert (∃ s4, update_game_keys r moves s = (Ok tt, s4) ∧
            shortest_view s4 = record_turns r []
              {| turns_of := turns_of (shortest_view s);
                 moves_of :=
                   <[game_id r :=
                       default [] (moves_of (shortest_view s) !! game_id r)
                       ++ moves]> (moves_of (shortest_view s));
                 shortest := shortest (shortest_view s);
                 reserved := reserved (shortest_view s) |})
    as (s4 & H4 & Hview4).
  { eexists. split.
    - unfold update_game_keys, bind, modify. simpl. reflexivity.
    - reflexivity. }
  rewrite (bind_run _ _ _ _ _ H4).
  destruct (update_common_seqs_run (find_all_three_move_sequences moves) s4)
    as (s5 & H5 & _).
  rewrite (bind_run _ _ _ _ _ H5).
  assert (shortest_view s5 = shortest_view s4) as Hview5
    by by rewrite_kept shortest_view H5.
  unfold bind at 1. unfold INCR at 1, incr. simpl.
  set (s6 := on_GLOBAL_OPENING_COUNT _ s5).
  set (this := default 0 _ + 1).
  set (k := λ _ : unit,
         update_most_freq_opening r this ;;;
         update_friend_groups_at draws (white_player_id r) (black_player_id r)).
  change (shortest_view (bind (update_shortest_game r) k s6).2 =
            record_turns r moves (shortest_view s)).
  assert (keeps (λ s, (GAME_TURNS (game s), GAME_MOVES (game s), games_ids s))
            (bind (update_shortest_game r) k)) as K
    by (unfold k; keeps_unfold).
  specialize (K s6). injection K as Kt Km Kr.
  assert (shortest_state (bind (update_shortest_game r) k s6).2 =
            shortest_after r (shortest_state s6)) as Ks.
  { rewrite (bind_state_keeps shortest_state).
    - apply update_shortest_game_state.
    - intros []. unfold k. keeps_unfold. }
  unfold shortest_view at 1. rewrite Kt, Km, Kr, Ks.
  change (shortest_view s6) with (shortest_view s5) in *.
  transitivity
    {| turns_of := turns_of (shortest_view s5);
       moves_of := moves_of (shortest_view s5);
       shortest := shortest_after r (shortest (shortest_view s5));
       reserved := reserved (shortest_view s5) |}; [reflexivity|].
  rewrite Hview5, Hview4. reflexivity.
Qed.

Lemma shortest_ok_mono v v' :
  turns_of v' = turns_of v → moves_of v' = moves_of v →
  shortest v' = shortest v → reserved v ⊆ reserved v' →
  shortest_ok v → shortest_ok v'.
Proof.
  intros Ht Hm Hs Hr [Hp Hst Hrd Hl Hres].
  constructor; rewrite ?Ht, ?Hm, ?Hs; try done.
  intros gid t Hg. apply Hr. by eapply Hres.
Qed.

Lemma serve_preserves_shortest_ok q :
  numeric_turns q → preserves (λ s, shortest_ok (shortest_view s)) (serve q).
Proof.
  destruct q as [p|schedule|draws r]; simpl; intros Hnum.
  - apply (preserves_keeps _ shortest_view); [by intros s s' ->|].
    unfold add_player, assert_player_is_new. keeps_tac.
  - intros s Hs.
    assert (keeps (λ s, (GAME_TURNS (game s), GAME_MOVES (game s),
                         shortest_state s)) (add_schedule schedule)) as K.
    { unfold add_schedule, assert_game_is_new. keeps_tac. }
    specialize (K s). injection K as Ht Hm Hg Hst.
    apply (shortest_ok_mono (shortest_view s)); try done.
    { simpl. unfold shortest_state. by rewrite Hg, Hst. }
    change (games_ids s ⊆ games_ids (add_schedule schedule s).2).
    rewrite add_schedule_reserves. set_solver.
  - intros s Hs.
    destruct (decide (game_id r ∈ games_ids s)) as [Hin|Hnew].
    { by rewrite add_game_record_duplicate. }
    set (R := λ s, shortest_ok (shortest_view s) ∧
                   unrecorded (game_id r) (shortest_view s) ∧
                   game_id r ∈ reserved (shortest_view s)).
    assert (∀ B (m : M B), keeps shortest_view m → triple R R m) as Hkept.
    { intros B m. apply triple_keeps. intros s1 s2 Heq. unfold R.
      by rewrite Heq. }
    unfold add_game_record. unfold bind at 1.
    rewrite assert_game_is_new_run, bool_decide_eq_false_2 by done.
    set (s0 := on_GLOBAL_GAMES_IDS _ s).
    assert (R s0) as HR.
    { destruct Hs as [Hp Hst Hrd Hl Hres]. simpl in *.
      assert (GAME_TURNS (game s) !! game_id r = None) as Hnone.
      { destruct (GAME_TURNS (game s) !! game_id r) as [t|] eqn:E; [|done].
        by apply Hres in E. }
      split_and!.
      - apply (shortest_ok_mono (shortest_view s));
          [done|done|done| |by constructor].
        subst s0. unfold shortest_view, games_ids. simpl. set_solver.
      - split_and!; simpl; [done| |].
        + destruct (GAME_MOVES (game s) !! game_id r) as [ms|] eqn:E; [|done].
          destruct (Hl _ _ E) as (t & m & Ht & _). by rewrite Hnone in Ht.
        + intros Hg. specialize (Hst _ Hg). rewrite Hnone in Hst.
          symmetry in Hst. apply Hp in Hst. congruence.
      - subst s0. unfold shortest_view, games_ids. simpl. set_solver. }
    clearbody s0. revert s0 HR.
    change (triple R (λ s, shortest_ok (shortest_view s))
              (moves <- lift_result (parse_moveset (moveset r)) ;;
               record_game draws r moves)).
    apply (triple_bind R R); [apply Hkept, keeps_lift_result|by intros ? []|].
    intros moves. unfold record_game.
    apply (triple_bind R R); [apply Hkept; keeps_tac|by intros ? []|intros _].
    apply (triple_bind R R); [apply Hkept; keeps_unfold|by intros ? []|intros _].
    apply (triple_bind R R); [apply Hkept; keeps_unfold|by intros ? []|intros _].
    intros s3 (Hok & Hun & Hin).
    rewrite record_tail_view. by apply record_turns_ok.
Qed.

Lemma shortest_ok_empty : shortest_ok (shortest_view empty_store).
Proof. constructor; simpl; try done; by intros ? ? ?%lookup_empty_Some. Qed.

(** X5. In the store after a series of write events whose game records
    come with a number of turns that reads as an integer,
    [get_shortest_game] returns; it reports a game id exactly when it reports
    a number of turns; the reported game is a stored game whose number of
    turns reads as the reported number; and no game whose moves are stored
    took fewer turns. *)
Theorem shortest_game_reported qs :
  Forall numeric_turns qs →
  let s := serve_all qs empty_store in
  ∃ reply, get_shortest_game s = Ok reply ∧
    (reply.1 = None ↔ reply.2 = None) ∧
    (∀ g, reply.1 = Some g →
       turns_value (GAME_TURNS (game s) !! g) = reply.2) ∧
    (∀ gid moves, GAME_MOVES (game s) !! gid = Some moves →
       ∃ t m, turns_value (GAME_TURNS (game s) !! gid) = Some t ∧
              reply.2 = Some m ∧ m ≤ t).
Proof.
  intros Hqs s.
  assert (shortest_ok (shortest_view s)) as [Hp Hst Hrd Hl _].
  { apply (serve_all_preserves_on numeric_turns
             (λ s, shortest_ok (shortest_view s)));
      [apply serve_preserves_shortest_ok|done|apply shortest_ok_empty]. }
  simpl in *. unfold shortest_state in *. simpl in *.
  unfold get_shortest_game.
  destruct (ANALYTICS_SHORTEST_GAME_TURNS (analytics s)) as [cur|] eqn:E.
  - destruct (int_numeric cur (Hrd cur eq_refl)) as (c & Hc & Hint).
    rewrite (numeric_truthy cur (Hrd cur eq_refl)), Hint.
    eexists. split; [done|]. simpl.
    pose proof (turns_value_Some _ _ Hc) as Hvc.
    split_and!.
    + split; [|done]. intros Hn. by apply Hp in Hn.
    + intros g Hg. by rewrite (Hst g Hg).
    + intros gid moves Hg. destruct (Hl _ _ Hg) as (t & m & Ht & Hm & Hle).
      rewrite Hvc in Hm. injection Hm as <-. by exists t, c.
  - eexists. split; [done|]. simpl. split_and!.
    + split; [done|]. intros _. by apply Hp.
    + intros g Hg. by rewrite (Hst g Hg).
    + intros gid moves Hg. by destruct (Hl _ _ Hg) as (t & m & _ & ? & _).
Qed.

Lemma shortest_game_reported_witness :
  ∃ reply, get_shortest_game store_C = Ok reply ∧
    turns_value (GAME_TURNS (game store_C) !! "ab") = reply.2 ∧
    ∃ t m, turns_value (GAME_TURNS (game store_C) !! "bc") = Some t ∧
           reply.2 = Some m ∧ m ≤ t.
Proof.
  destruct (shortest_game_reported
              [AddGameRecord [7%N] game_ab; AddGameRecord [8%N] game_bc])
    as (reply & Hreply & _ & Hstored & Hleast).
  { repeat constructor; eexists; reflexivity. }
  exists reply. split; [exact Hreply|]. split.
  - apply Hstored.
    assert (Ok reply = Ok (Some "ab", Some 20)) as [= ->]
      by (rewrite <- Hreply; vm_compute; reflexivity).
    reflexivity.
  - apply (Hleast "bc" ["e4"; "e5"; "Nf3"; "d6"]). vm_compute. reflexivity.
Defined.

(** X25. [__update_shortest_game] converts nothing while no shortest game
    is stored, and stores the number of turns as the game record has it; once
    a shortest game is stored, a game record whose number of turns [int]
    refuses makes the call raise [ValueError] with the record left alone, and
    so does a game record whose number of turns reads as an integer when it
    is the stored number of turns that [int] refuses.  [get_shortest_game] reports no number of turns for a
    stored empty text, and raises [ValueError] on a stored text that is not
    empty and that [int] refuses. *)
Theorem refused_turns_stop_the_record :
  (∀ r s, ANALYTICS_SHORTEST_GAME_TURNS (analytics s) = None →
     (update_shortest_game r s).1 = Ok tt ∧
     shortest_state (update_shortest_game r s).2 =
       (Some (game_id r), Some (number_of_turns r))) ∧
  (∀ r s current,
     ANALYTICS_SHORTEST_GAME_TURNS (analytics s) = Some current →
     int_of (number_of_turns r) = IntFails →
     update_shortest_game r s = (Raise ValueError, s)) ∧
  (∀ r s current n,
     ANALYTICS_SHORTEST_GAME_TURNS (analytics s) = Some current →
     int_of (number_of_turns r) = IntValue n → int_of current = IntFails →
     update_shortest_game r s = (Raise ValueError, s)) ∧
  (∀ s,
     ANALYTICS_SHORTEST_GAME_TURNS (analytics s) = Some (TurnsStr "") →
     get_shortest_game s = Ok (ANALYTICS_SHORTEST_GAME (analytics s), None)) ∧
  (∀ s current,
     ANALYTICS_SHORTEST_GAME_TURNS (analytics s) = Some current →
     truthy current = true → int_of current = IntFails →
     get_shortest_game s = Raise ValueError).
Proof.
  split_and!.
  - intros r s E. rewrite update_shortest_game_run, E. done.
  - intros r s current E Hr. rewrite update_shortest_game_run, E.
    unfold int. by rewrite Hr.
  - intros r s current n E Hr Hc. rewrite update_shortest_game_run, E.
    unfold int. by rewrite Hr, Hc.
  - intros s E. unfold get_shortest_game. by rewrite E.
  - intros s current E Ht Hc. unfold get_shortest_game, int.
    by rewrite E, Ht, Hc.
Qed.

Lemma refused_turns_stop_the_record_witness :
  (add_game_record [3%N] game_blank_turns empty_store).1 = Ok tt ∧
  get_shortest_game store_N = Ok (Some "n1", None) ∧
  update_shortest_game game_ab store_N = (Raise ValueError, store_N) ∧
  (add_game_record [7%N] game_ab store_N).1 = Raise ValueError ∧
  GLOBAL_OPENING_COUNT (global (add_game_record [7%N] game_ab store_N).2)
    !! "C44" = Some 1 ∧
  get_most_frequent_opening (add_game_record [7%N] game_ab store_N).2 =
    (Some "C1", 1).
Proof.
  split; [vm_compute; reflexivity|]. split.
  { apply (proj1 (proj2 (proj2 (proj2 refused_turns_stop_the_record))) store_N).
    vm_compute. reflexivity. }
  split.
  { apply (proj1 (proj2 (proj2 refused_turns_stop_the_record)) game_ab store_N
             (TurnsStr "") 20); vm_compute; reflexivity. }
  split_and!; vm_compute; reflexivity.
Defined.

(** ** Checks *)

Lemma find_number_of_checks_fold moves : ∀ acc,
  foldl (λ number_of_checks move,
           if str_contains "+"%char move then number_of_checks + 1
           else number_of_checks) acc moves =
  acc + Z.of_nat (length (filter (λ move, str_contains "+"%char move = true)
                            moves)).
Proof.
  induction moves as [|move moves IH]; intros acc; simpl; [lia|].
  rewrite IH, filter_cons.
  destruct (str_contains "+"%char move) eqn:E.
  - rewrite decide_True by done. simpl. lia.
  - rewrite decide_False by done. lia.
Qed.

(** X11. [__find_number_of_checks] is the number of moves that hold a
    plus sign, a move with several of them counting once; it lies between 0
    and the number of moves and is additive over concatenation. *)
Theorem number_of_checks_counts_moves moves more :
  find_number_of_checks moves =
    Z.of_nat (length (filter (λ move, str_contains "+"%char move = true)
                        moves)) ∧
  0 ≤ find_number_of_checks moves ≤ Z.of_nat (length moves) ∧
  find_number_of_checks (moves ++ more) =
    find_number_of_checks moves + find_number_of_checks more.
Proof.
  unfold find_number_of_checks. rewrite !find_number_of_checks_fold.
  split_and!; [lia|lia| |].
  - pose proof (length_filter (λ move, str_contains "+"%char move = true) moves).
    lia.
  - rewrite filter_app, length_app. lia.
Qed.

Lemma before_colon_id gid : has_colon gid = false → before_colon gid = gid.
Proof.
  unfold has_colon. induction gid as [|c gid IH]; simpl; [done|].
  intros [Hc Hrest]%orb_false_iff. rewrite Hc. f_equal. by apply IH.
Qed.

Lemma foldl_insert_list_to_map (l : list (string * Z)) :
  ∀ acc : gmap string Z,
  NoDup l.*1 →
  foldl (λ counts key, <[key.1 := key.2]> counts) acc l = list_to_map l ∪ acc.
Proof.
  induction l as [|[k v] l IH]; intros acc Hnd.
  { simpl. by rewrite (left_id_L ∅ (∪)). }
  rewrite fmap_cons in Hnd. apply NoDup_cons in Hnd as [Hk Hnd].
  cbn [foldl]. rewrite IH by done. rewrite list_to_map_cons. cbn [fst snd].
  rewrite <- insert_union_l. symmetry.
  apply insert_union_r. by apply not_elem_of_list_to_map_1.
Qed.

Lemma get_check_counts_colon_free s :
  (∀ gid n, GAME_CHECKS (game s) !! gid = Some n → has_colon gid = false) →
  get_check_counts s = GAME_CHECKS (game s).
Proof.
  intros Hfree. unfold get_check_counts.
  set (m := GAME_CHECKS (game s)) in *.
  assert (Forall (λ key : string * Z, has_colon key.1 = false) (map_to_list m))
    as Hall.
  { apply Forall_forall. intros [gid n] Hin%elem_of_map_to_list. by eapply Hfree. }
  assert (∀ l (acc : gmap string Z),
            Forall (λ key : string * Z, has_colon key.1 = false) l →
            foldl (λ counts (key : string * Z),
                     <[before_colon key.1 := key.2]> counts) acc l =
            foldl (λ counts (key : string * Z), <[key.1 := key.2]> counts) acc l)
    as Hsame.
  { induction l as [|key l IH]; intros acc Hl; simpl; [done|].
    apply Forall_cons in Hl as [Hkey Hl].
    rewrite before_colon_id by done. by apply IH. }
  rewrite Hsame by done.
  rewrite foldl_insert_list_to_map by apply NoDup_fst_map_to_list.
  by rewrite (right_id_L ∅ (∪)), list_to_map_to_list.
Qed.

Lemma update_game_keys_Ok r moves s s4 :
  update_game_keys r moves s = (Ok tt, s4) →
  GAME_CHECKS (game s4) =
    <[game_id r := find_number_of_checks moves]> (GAME_CHECKS (game s)).
Proof.
  unfold update_game_keys, bind, modify, raise. simpl.
  destruct moves; [done|]. by intros [= <-].
Qed.

Lemma add_game_record_checks draws r s s' :
  add_game_record draws r s = (Ok tt, s') →
  ∃ moves, parse_moveset (moveset r) = Ok moves ∧
    GAME_CHECKS (game s') =
      <[game_id r := find_number_of_checks moves]> (GAME_CHECKS (game s)).
Proof.
  intros Hrun.
  destruct (add_game_record_stages _ _ _ _ Hrun)
    as (moves & s0 & s1 & s2 & s3 & s8 & Hparse & H0 & H1 & H2 & H3 & H8 & H9).
  exists moves. split; [done|].
  apply bind_Ok in H8 as ([] & s4 & H4 & H8).
  kept (GAME_CHECKS ∘ game) H9. kept (GAME_CHECKS ∘ game) H8.
  rewrite (update_game_keys_Ok _ _ _ _ H4).
  kept (GAME_CHECKS ∘ game) H3. kept (GAME_CHECKS ∘ game) H2.
  kept (GAME_CHECKS ∘ game) H1. by kept (GAME_CHECKS ∘ game) H0.
Qed.

(** X12. When [add_game_record] returns and no game id with a checks
    key holds a colon, [get_check_counts] maps the game to the number of
    checks of its parsed moves, and every other id to what was stored for it
    before the call. *)
Theorem check_counts_round_trip draws game_record s s' :
  add_game_record draws game_record s = (Ok tt, s') →
  (∀ gid n, GAME_CHECKS (game s') !! gid = Some n → has_colon gid = false) →
  ∃ moves, parse_moveset (moveset game_record) = Ok moves ∧
    get_check_counts s' !! game_id game_record =
      Some (find_number_of_checks moves) ∧
    ∀ gid, gid ≠ game_id game_record →
      get_check_counts s' !! gid = GAME_CHECKS (game s) !! gid.
Proof.
  intros Hrun Hfree.
  destruct (add_game_record_checks _ _ _ _ Hrun) as (moves & Hparse & Hchecks).
  exists moves. split; [done|].
  rewrite get_check_counts_colon_free, Hchecks by done.
  split; [by rewrite lookup_insert_eq|].
  intros gid Hne. by rewrite lookup_insert_ne.
Qed.

Lemma check_counts_round_trip_witness :
  ∃ moves, parse_moveset (moveset game_g1) = Ok moves ∧
    get_check_counts store_A !! "g1" = Some (find_number_of_checks moves) ∧
    ∀ gid, gid ≠ "g1" →
      get_check_counts store_A !! gid = GAME_CHECKS (game empty_store) !! gid.
Proof.
  apply (check_counts_round_trip [5%N] game_g1 empty_store store_A).
  - vm_compute. reflexivity.
  - intros gid n.
    destruct (decide (gid = "g1")) as [->|Hne]; [reflexivity|].
    change (GAME_CHECKS (game store_A)) with (<["g1" := 0]> (∅ : gmap string Z)).
    rewrite lookup_insert_ne by done. by intros ?%lookup_empty_Some.
Defined.

(** ** Fresh group ids *)

(** X17. [__new_fid] returns the first drawn id that names no existing
    group, every draw before it naming one; the draws give no id only when
    each of them names an existing group. *)
Theorem new_fid_first_unused draws (g : gmap fid (gset string)) :
  match new_fid draws g with
  | Some d =>
      ∃ pre post, draws = pre ++ d :: post ∧
        Forall (λ x, exists_set x g = true) pre ∧ exists_set d g = false
  | None => Forall (λ x, exists_set x g = true) draws
  end.
Proof.
  induction draws as [|x draws IH]; simpl; [constructor|].
  destruct (exists_set x g) eqn:E; simpl.
  - destruct (new_fid draws g) as [d|].
    + destruct IH as (pre & post & -> & Hpre & Hd).
      exists (x :: pre), post. split_and!; [done| |done]. by constructor.
    + by constructor.
  - exists [], draws. split_and!; [done|constructor|done].
Qed.

(** ** Friends of friends with more wins *)

Lemma filter_zip_fmap {A} (f : A → Z) (c : Z) (l : list A) :
  (filter (λ x : A * Z, c < x.2) (zip l (f <$> l))).*1 =
  filter (λ q, c < f q) l.
Proof.
  induction l as [|q l IH]; [done|].
  rewrite fmap_cons. cbn [zip_with]. rewrite !filter_cons. cbn [snd].
  destruct (decide (c < f q)); [|apply IH].
  rewrite fmap_cons. cbn [fst]. by rewrite IH.
Qed.

(** X18. [get_filtered_friends_of_friends] returns, in the order of
    [get_friends_of_friends], exactly the friends of friends whose win
    counter is greater than that of the player, a missing counter counting as
    0; it returns nothing for a player without a friend group. *)
Theorem filtered_friends_of_friends_spec s pid :
  let wins q := default 0 (PLAYER_WINS (player s) !! q) in
  get_filtered_friends_of_friends s pid =
    filter (λ q, wins pid < wins q) (get_friends_of_friends s pid) ∧
  (∀ x, x ∈ get_filtered_friends_of_friends s pid ↔
        x ∈ get_friends_of_friends s pid ∧ wins pid < wins x) ∧
  (PLAYER_FRIEND_GROUP (player s) !! pid = None →
     get_filtered_friends_of_friends s pid = []).
Proof.
  intros wins.
  assert (get_filtered_friends_of_friends s pid =
            filter (λ q, wins pid < wins q) (get_friends_of_friends s pid))
    as Heq.
  { unfold get_filtered_friends_of_friends.
    destruct (get_friends_of_friends s pid) as [|q l] eqn:E; [done|].
    exact (filter_zip_fmap wins (wins pid) (q :: l)). }
  split_and!; [done| |].
  - intros x. rewrite Heq, list_elem_of_filter. tauto.
  - intros Hnone. rewrite Heq. unfold get_friends_of_friends.
    by rewrite Hnone.
Qed.

Lemma filtered_friends_of_friends_spec_witness :
  get_filtered_friends_of_friends store_C "c" = ["a"] ∧
  ("a" ∈ get_filtered_friends_of_friends store_C "c" ↔
   "a" ∈ get_friends_of_friends store_C "c" ∧
   default 0 (PLAYER_WINS (player store_C) !! "c")
   < default 0 (PLAYER_WINS (player store_C) !! "a")) ∧
  get_filtered_friends_of_friends store_A "zed" = [].
Proof.
  split_and!.
  - rewrite (proj1 (filtered_friends_of_friends_spec store_C "c")).
    vm_compute. reflexivity.
  - apply (proj1 (proj2 (filtered_friends_of_friends_spec store_C "c"))).
  - apply (proj2 (proj2 (filtered_friends_of_friends_spec store_A "zed"))).
    vm_compute. reflexivity.
Defined.

(** ** What the write path raises *)

Section RaisesOnly.
Context (allowed : exn → bool).

Lemma raises_only_ret {B} (b : B) : raises_only allowed (ret b).
Proof. by intros s e. Qed.

Lemma raises_only_raise {B} e :
  allowed e = true → raises_only allowed (raise (A := B) e).
Proof. intros He s e' [= <-]. done. Qed.

Lemma raises_only_read {B} (f : Store → B) : raises_only allowed (read f).
Proof. by intros s e. Qed.

Lemma raises_only_modify f : raises_only allowed (modify f).
Proof. by intros s e. Qed.

Lemma raises_only_bind {B C} (m : M B) (k : B → M C) :
  raises_only allowed m → (∀ b, raises_only allowed (k b)) →
  raises_only allowed (bind m k).
Proof.
  intros Hm Hk s e. unfold bind. specialize (Hm s).
  destruct (m s) as [[b|e'|b'] s1]; simpl in *; [apply Hk| |done].
  intros [= <-]. by apply Hm.
Qed.

Lemma raises_only_for_each {B} (l : list B) body :
  (∀ x, raises_only allowed (body x)) → raises_only allowed (for_each l body).
Proof.
  intros Hbody. induction l as [|x l IH]; simpl.
  - apply raises_only_ret.
  - by apply raises_only_bind.
Qed.

Lemma raises_only_INCR `{Countable K} (g : Store → gmap K Z) on (k : K) :
  raises_only allowed (INCR g on k).
Proof. by intros s e. Qed.

Lemma raises_only_SADD g on v : raises_only allowed (SADD g on v).
Proof. by intros s e. Qed.

Lemma raises_only_update_friend_groups_at draws pid1 pid2 :
  raises_only allowed (update_friend_groups_at draws pid1 pid2).
Proof.
  intros s e. unfold update_friend_groups_at.
  destruct (update_friend_groups _ _ _ _) as [r f] eqn:E. simpl. intros ->.
  unfold update_friend_groups in E. repeat case_match; by simplify_eq.
Qed.
End RaisesOnly.

Lemma find_insert_before_raises n (l : list entry) e :
  find_insert_before n l = Raise e → e = ValueError.
Proof.
  induction l as [|item l IH]; simpl; [done|].
  destruct (split_score item); [|by intros [= <-]].
  by destruct (n >=? _).
Qed.

Lemma raises_only_update_top_list_at allowed list_key pid n :
  allowed ValueError = true →
  raises_only allowed (update_top_list_at list_key pid n).
Proof.
  intros Hv s e. unfold update_top_list_at, update_top_list.
  destruct (find_insert_before _ _) as [[?|]|e'|b] eqn:E; simpl; try done.
  intros [= <-]. by rewrite (find_insert_before_raises _ _ _ E).
Qed.

Lemma raises_only_int allowed x :
  allowed ValueError = true → raises_only allowed (lift_result (int x)).
Proof.
  intros Hv s e. unfold lift_result, int. simpl.
  destruct (int_of x); try done. by intros [= <-].
Qed.

Ltac raises_step :=
  first
    [ apply raises_only_ret
    | apply raises_only_read
    | apply raises_only_modify
    | apply raises_only_INCR
    | apply raises_only_SADD
    | apply raises_only_update_friend_groups_at
    | apply raises_only_update_top_list_at; reflexivity
    | apply raises_only_int; reflexivity
    | apply raises_only_raise; reflexivity
    | apply raises_only_bind; [|intros ?]
    | apply raises_only_for_each; intros ?
    | match goal with |- raises_only _ (if ?b then _ else _) => destruct b end
    | match goal with
      | |- raises_only _ (match ?l with [] => _ | _ :: _ => _ end) =>
          destruct l
      end
    | match goal with
      | |- raises_only _ (match ?o with Some _ => _ | None => _ end) =>
          destruct o
      end ].

Lemma add_player_raises p : raises_only is_BoardGameClubNotUniqueError (add_player p).
Proof. unfold add_player, assert_player_is_new. repeat raises_step. Qed.

Lemma add_schedule_raises schedule :
  raises_only is_BoardGameClubNotUniqueError (add_schedule schedule).
Proof. unfold add_schedule, assert_game_is_new. repeat raises_step. Qed.

Lemma parse_moveset_raises moveset e :
  parse_moveset moveset = Raise e → e = JSONDecodeError.
Proof.
  destruct moveset as [moves|text]; simpl; [done|].
  destruct (json_loads _); by intros [= <-].
Qed.

Lemma add_game_record_raises draws r :
  raises_only write_path_error (add_game_record draws r).
Proof.
  unfold add_game_record, assert_game_is_new, record_game, update_player_keys,
    observe_player_opening, update_game_keys, update_common_seqs,
    update_most_common_seqs_at, update_least_common_seqs_at,
    update_shortest_game, update_most_freq_opening.
  apply raises_only_bind; [repeat raises_step|intros _].
  apply raises_only_bind.
  { intros s e. unfold lift_result. simpl.
    by intros ->%parse_moveset_raises. }
  intros moves. repeat raises_step.
Qed.

(** Past the registry nothing raises the error of a taken id. *)
Lemma record_game_raises draws r :
  raises_only (λ e, negb (is_BoardGameClubNotUniqueError e))
    (moves <- lift_result (parse_moveset (moveset r)) ;;
     record_game draws r moves).
Proof.
  unfold record_game, update_player_keys,
    observe_player_opening, update_game_keys, update_common_seqs,
    update_most_common_seqs_at, update_least_common_seqs_at,
    update_shortest_game, update_most_freq_opening.
  apply raises_only_bind.
  { intros s e. unfold lift_result. simpl.
    by intros ->%parse_moveset_raises. }
  intros moves. repeat raises_step.
Qed.

Lemma add_game_record_new_raises draws r s e :
  game_id r ∉ games_ids s → (add_game_record draws r s).1 = Raise e →
  is_BoardGameClubNotUniqueError e = false.
Proof.
  intros Hnew. unfold add_game_record. unfold bind at 1.
  rewrite assert_game_is_new_run, bool_decide_eq_false_2 by done.
  intros H%record_game_raises. by apply negb_true_iff.
Qed.

Lemma add_schedule_outcome schedule s :
  (add_schedule schedule s).1 =
    if bool_decide (schedule_game_id schedule ∈ games_ids s)
    then Raise (BoardGameClubNotUniqueError
                  ("game_id " +:+ schedule_game_id schedule
                   +:+ " is already taken"))
    else Ok tt.
Proof.
  case_bool_decide as Hin.
  - by rewrite add_schedule_duplicate.
  - by destruct (add_schedule_new schedule s Hin) as [-> _].
Qed.

(** X19. [add_player] and [add_schedule] raise nothing but
    BoardGameClubNotUniqueError, and only for a taken id; their outcome is
    never [Beyond].  [add_game_record] raises only that error,
    JSONDecodeError, ValueError or ResponseError, never the error class of the
    loader, and it raises BoardGameClubNotUniqueError exactly when the game
    id is taken. *)
Theorem write_path_raises :
  (∀ p s e, (add_player p s).1 = Raise e →
     ∃ msg, e = BoardGameClubNotUniqueError msg ∧ user_id p ∈ players_ids s) ∧
  (∀ schedule s e, (add_schedule schedule s).1 = Raise e →
     ∃ msg, e = BoardGameClubNotUniqueError msg ∧
            schedule_game_id schedule ∈ games_ids s) ∧
  (∀ draws game_record s e,
     (add_game_record draws game_record s).1 = Raise e →
     write_path_error e = true ∧
     (is_BoardGameClubNotUniqueError e = true ↔
      game_id game_record ∈ games_ids s)) ∧
  (∀ p s b, (add_player p s).1 ≠ Beyond b) ∧
  (∀ schedule s b, (add_schedule schedule s).1 ≠ Beyond b).
Proof.
  split_and!.
  - intros p s e. rewrite add_player_run. case_bool_decide; [|done].
    intros [= <-]. by eexists.
  - intros schedule s e. rewrite add_schedule_outcome.
    case_bool_decide; [|done]. intros [= <-]. by eexists.
  - intros draws r s e Hraise. split; [by eapply add_game_record_raises|].
    split.
    + intros He. destruct (decide (game_id r ∈ games_ids s)) as [|Hnew]; [done|].
      rewrite (add_game_record_new_raises _ _ _ _ Hnew Hraise) in He. done.
    + intros Hin. rewrite add_game_record_duplicate in Hraise by done.
      simpl in Hraise. by injection Hraise as <-.
  - intros p s b. rewrite add_player_run. by case_bool_decide.
  - intros schedule s b. rewrite add_schedule_outcome. by case_bool_decide.
Qed.

Lemma write_path_raises_witness :
  (∃ msg, BoardGameClubNotUniqueError "game_id g1 is already taken" =
            BoardGameClubNotUniqueError msg ∧ "g1" ∈ games_ids store_A) ∧
  write_path_error JSONDecodeError = true ∧
  (is_BoardGameClubNotUniqueError JSONDecodeError = true ↔
   "g2" ∈ games_ids store_A).
Proof.
  split.
  - apply (proj1 (proj2 write_path_raises)
             {| schedule_game_id := "g1"; player_1 := "p3"; player_2 := "p4" |}
             store_A).
    vm_compute. reflexivity.
  - apply (proj1 (proj2 (proj2 write_path_raises)) [5%N] game_unparsable
             store_A JSONDecodeError).
    vm_compute. reflexivity.
Defined.

(** ** The loaders *)

Lemma try_except_idle caught m :
  raises_only (λ e, negb (caught e)) m → ∀ s, try_except caught m s = m s.
Proof.
  intros Hm s. unfold try_except. specialize (Hm s).
  destruct (m s) as [[[]|e|b] s1]; simpl in *; [done| |done].
  specialize (Hm e eq_refl). apply negb_true_iff in Hm. by rewrite Hm.
Qed.

Lemma for_each_ext {A} (l : list A) (f g : A → M unit) :
  (∀ x s, f x s = g x s) → ∀ s, for_each l f s = for_each l g s.
Proof.
  intros Hfg. induction l as [|x l IH]; intros s; simpl; [done|].
  unfold bind. rewrite Hfg. by destruct (g x s) as [[[]|e|b] s1].
Qed.

Lemma for_each_app {A} (pre l : list A) (f : A → M unit) s s1 :
  for_each pre f s = (Ok tt, s1) → for_each (pre ++ l) f s = for_each l f s1.
Proof.
  revert s. induction pre as [|x pre IH]; intros s; simpl.
  - by intros [= <-].
  - intros Hrun. apply bind_Ok in Hrun as ([] & s0 & Hx & Hrun).
    rewrite (bind_run _ _ _ _ _ Hx). by apply IH.
Qed.

Lemma raises_only_weaken {B} (allowed allowed' : exn → bool) (m : M B) :
  (∀ e, allowed e = true → allowed' e = true) →
  raises_only allowed m → raises_only allowed' m.
Proof. intros Himp Hm s e He. by apply Himp, (Hm s). Qed.

(** X23. In the loader at the root of the sources the handler for
    BoardGameClubLoadTransformError never fires, the write path never raising
    that class: the three loops are plain loops over the rows, and a row of
    game records with a taken id ends the load with
    BoardGameClubNotUniqueError, the rows after it left out. *)
Theorem root_loader_handler_is_idle :
  (∀ rows s,
     RootLoader.process_csv_file rows add_player s = for_each rows add_player s) ∧
  (∀ rows s,
     RootLoader.process_csv_file rows add_schedule s =
       for_each rows add_schedule s) ∧
  (∀ rows s,
     RootLoader.process_game_records_csv rows s =
       for_each rows (λ record, add_game_record record.1 record.2) s) ∧
  (∀ pre record post s s1,
     for_each pre (λ record, add_game_record record.1 record.2) s
       = (Ok tt, s1) →
     game_id record.2 ∈ games_ids s1 →
     ∃ msg,
       RootLoader.process_game_records_csv (pre ++ record :: post) s =
         (Raise (BoardGameClubNotUniqueError msg), s1)).
Proof.
  assert (∀ rows s,
            RootLoader.process_game_records_csv rows s =
              for_each rows (λ record, add_game_record record.1 record.2) s)
    as Hgames.
  { intros rows s. apply for_each_ext. intros record s'.
    apply try_except_idle.
    eapply raises_only_weaken; [|apply add_game_record_raises].
    by intros []. }
  split_and!; [| |done|].
  - intros rows s. apply for_each_ext. intros p s'. apply try_except_idle.
    eapply raises_only_weaken; [|apply add_player_raises]. by intros [].
  - intros rows s. apply for_each_ext. intros p s'. apply try_except_idle.
    eapply raises_only_weaken; [|apply add_schedule_raises]. by intros [].
  - intros pre record post s s1 Hpre Hin.
    rewrite Hgames, (for_each_app _ _ _ _ _ Hpre). simpl.
    unfold bind. rewrite add_game_record_duplicate by done. by eexists.
Qed.

Lemma root_loader_handler_is_idle_witness :
  ∃ msg,
    RootLoader.process_game_records_csv
      ([([7%N], game_ab)] ++ ([9%N], game_ab) :: [([8%N], game_bc)])
      empty_store =
    (Raise (BoardGameClubNotUniqueError msg),
     (add_game_record [7%N] game_ab empty_store).2).
Proof.
  apply (proj2 (proj2 (proj2 root_loader_handler_is_idle))
           [([7%N], game_ab)] ([9%N], game_ab) [([8%N], game_bc)]
           empty_store (add_game_record [7%N] game_ab empty_store).2).
  - vm_compute. reflexivity.
  - vm_compute. reflexivity.
Defined.

Lemma process_game_records_csv_state row s :
  games_ids (process_game_records_csv row s).2 =
    {[game_id row.2]} ∪ games_ids s.
Proof.
  unfold process_game_records_csv, try_except.
  pose proof (add_game_record_reserves row.1 row.2 s) as H.
  destruct (add_game_record row.1 row.2 s) as [[[]|e|b] s1]; simpl in *;
    [done| |done].
  by destruct (is_BoardGameClubNotUniqueError e).
Qed.

Lemma process_game_records_csv_taken row s :
  game_id row.2 ∈ games_ids s → process_game_records_csv row s = (Ok tt, s).
Proof.
  intros Hin. unfold process_game_records_csv, try_except.
  by rewrite add_game_record_duplicate.
Qed.

Lemma process_csv_file_reserves rows : ∀ s s',
  process_csv_file rows process_game_records_csv s = (Ok tt, s') →
  games_ids s ⊆ games_ids s' ∧
  ∀ row, row ∈ rows → game_id row.2 ∈ games_ids s'.
Proof.
  unfold process_csv_file.
  induction rows as [|row rows IH]; intros s s'; simpl.
  { intros [= <-]. split; [done|]. by intros row ?%elem_of_nil. }
  intros Hrun. apply bind_Ok in Hrun as ([] & s1 & Hrow & Hrun).
  destruct (IH _ _ Hrun) as [Hsub Hall].
  pose proof (process_game_records_csv_state row s) as Hids.
  rewrite Hrow in Hids. simpl in Hids.
  split; [set_solver|].
  intros row' [->|Hin]%elem_of_cons; [set_solver|by apply Hall].
Qed.

Lemma process_csv_file_taken rows s :
  Forall (λ row, game_id row.2 ∈ games_ids s) rows →
  process_csv_file rows process_game_records_csv s = (Ok tt, s).
Proof.
  unfold process_csv_file. induction 1 as [|row rows Hrow Hrows IH]; [done|].
  simpl. by rewrite (bind_run _ _ _ _ _ (process_game_records_csv_taken _ _ Hrow)).
Qed.

(** X22. The loader of the deliverables skips a row of game records
    whose id is taken and leaves the store as it was; so after a load that
    returned, loading rows with ids of that load again returns and changes
    nothing. *)
Theorem loader_skips_taken_ids :
  (∀ row s, game_id row.2 ∈ games_ids s →
     process_game_records_csv row s = (Ok tt, s)) ∧
  (∀ rows s s',
     process_csv_file rows process_game_records_csv s = (Ok tt, s') →
     ∀ rows', Forall (λ row, game_id row.2 ∈ row_ids rows) rows' →
       process_csv_file rows' process_game_records_csv s' = (Ok tt, s')).
Proof.
  split; [apply process_game_records_csv_taken|].
  intros rows s s' Hrun rows' Hids.
  destruct (process_csv_file_reserves _ _ _ Hrun) as [_ Hall].
  apply process_csv_file_taken.
  eapply Forall_impl; [exact Hids|]. simpl.
  intros row' (row & Heq & Hin)%list_elem_of_fmap. rewrite Heq. by apply Hall.
Qed.

Lemma loader_skips_taken_ids_witness :
  process_csv_file [([9%N], game_bc); ([9%N], game_ab)]
    process_game_records_csv store_C = (Ok tt, store_C).
Proof.
  apply (proj2 loader_skips_taken_ids
           [([7%N], game_ab); ([8%N], game_bc)] empty_store store_C).
  - vm_compute. reflexivity.
  - repeat constructor; vm_compute; reflexivity.
Defined.

(** ** What is stored of a game *)

Lemma update_game_keys_attributes r moves s s4 :
  update_game_keys r moves s = (Ok tt, s4) →
  moves ≠ [] ∧
  game_attributes (game_id r) s4 =
    (Some (winner r), Some (victory_status r), Some (number_of_turns r),
     Some (find_number_of_checks moves), Some (white_player_id r),
     Some (black_player_id r), Some (opening_eco r),
     Some (default [] (GAME_MOVES (game s) !! game_id r) ++ moves)) ∧
  ∀ gid, gid ≠ game_id r → game_attributes gid s4 = game_attributes gid s.
Proof.
  unfold update_game_keys, bind, modify, raise. simpl.
  destruct moves as [|mv rest]; [done|]. intros [= <-].
  split; [done|]. unfold game_attributes. simpl. split.
  - by rewrite !lookup_insert_eq.
  - intros gid Hne. by rewrite !lookup_insert_ne.
Qed.

(** Moves are stored under reserved ids only. *)
Lemma serve_preserves_moves_reserved q : preserves moves_reserved (serve q).
Proof.
  assert (∀ gid B (m : M B),
            keeps (λ s, (GAME_MOVES (game s), games_ids s)) m →
            preserves (λ s, moves_reserved s ∧ gid ∈ games_ids s) m) as Hkept.
  { intros gid B m K s [Hs Hin]. specialize (K s). injection K as Km Kg.
    unfold moves_reserved. by rewrite Km, Kg. }
  destruct q as [p|schedule|draws r]; simpl.
  - intros s Hs.
    assert (keeps (λ s, (GAME_MOVES (game s), games_ids s)) (add_player p)) as K.
    { unfold add_player, assert_player_is_new. keeps_tac. }
    specialize (K s). injection K as Km Kg.
    unfold moves_reserved. by rewrite Km, Kg.
  - intros s Hs gid moves.
    assert (keeps (GAME_MOVES ∘ game) (add_schedule schedule)) as K.
    { unfold add_schedule, assert_game_is_new. keeps_tac. }
    specialize (K s). unfold compose in K. rewrite K, add_schedule_reserves.
    intros Hg%Hs. set_solver.
  - intros s Hs.
    destruct (decide (game_id r ∈ games_ids s)) as [Hin|Hnew].
    { by rewrite add_game_record_duplicate. }
    unfold add_game_record. unfold bind at 1.
    rewrite assert_game_is_new_run, bool_decide_eq_false_2 by done.
    set (s0 := on_GLOBAL_GAMES_IDS _ s).
    assert (moves_reserved s0 ∧ game_id r ∈ games_ids s0) as HR.
    { split.
      - intros gid moves Hg. apply Hs in Hg. subst s0.
        unfold games_ids in *. simpl. set_solver.
      - subst s0. unfold games_ids. simpl. set_solver. }
    clearbody s0. revert s0 HR.
    cut (preserves (λ s, moves_reserved s ∧ game_id r ∈ games_ids s)
           (moves <- lift_result (parse_moveset (moveset r)) ;;
            record_game draws r moves)).
    { intros Hp s0 HR. by destruct (Hp s0 HR). }
    apply preserves_bind; [apply Hkept, keeps_lift_result|intros moves].
    unfold record_game.
    apply preserves_bind; [apply Hkept; keeps_tac|intros _].
    apply preserves_bind; [apply Hkept; keeps_unfold|intros _].
    apply preserves_bind; [apply Hkept; keeps_unfold|intros _].
    apply preserves_bind; [|intros _; apply Hkept; keeps_unfold].
    intros s3 [Hs3 Hin3].
    assert (keeps games_ids (update_game_keys r moves)) as Kg by keeps_unfold.
    rewrite Kg. split; [|done].
    intros gid ms. unfold update_game_keys, bind, modify, raise. simpl.
    destruct moves as [|mv rest]; simpl.
    + apply Hs3.
    + destruct (decide (gid = game_id r)) as [->|Hne]; [done|].
      rewrite lookup_insert_ne by done. apply Hs3.
Qed.

Lemma serve_all_moves_reserved qs : moves_reserved (serve_all qs empty_store).
Proof.
  apply (serve_all_preserves moves_reserved);
    [apply serve_preserves_moves_reserved|].
  intros gid moves. unfold empty_store. simpl.
  by intros ?%lookup_empty_Some.
Qed.

(** X10. When [add_game_record], given a moveset that is a list of moves
    or a text that parses to one, returns on a store that a series of write
    events left, the list of moves is not empty, and the keys of the game hold
    the winner, the victory status, the number of turns as the record has it,
    the number of checks, the two players, the opening and exactly the moves;
    the keys of every other game are as they were. *)
Theorem returned_game_is_stored qs draws game_record moves s' :
  parse_moveset (moveset game_record) = Ok moves →
  add_game_record draws game_record (serve_all qs empty_store) = (Ok tt, s') →
  moves ≠ [] ∧
  game_attributes (game_id game_record) s' =
    (Some (winner game_record), Some (victory_status game_record),
     Some (number_of_turns game_record), Some (find_number_of_checks moves),
     Some (white_player_id game_record), Some (black_player_id game_record),
     Some (opening_eco game_record), Some moves) ∧
  ∀ gid, gid ≠ game_id game_record →
    game_attributes gid s' = game_attributes gid (serve_all qs empty_store).
Proof.
  set (s := serve_all qs empty_store). intros Hmoves Hrun.
  assert (game_id game_record ∉ games_ids s) as Hnew.
  { intros Hin. by rewrite add_game_record_duplicate in Hrun. }
  assert (GAME_MOVES (game s) !! game_id game_record = None) as Hnone.
  { destruct (GAME_MOVES (game s) !! game_id game_record) as [ms|] eqn:E;
      [|done].
    by apply (serve_all_moves_reserved qs) in E. }
  destruct (add_game_record_stages _ _ _ _ Hrun)
    as (moves' & s0 & s1 & s2 & s3 & s8 & Hparse & H0 & H1 & H2 & H3 & H8 & H9).
  assert (moves' = moves) as -> by congruence.
  apply bind_Ok in H8 as ([] & s4 & H4 & H8).
  destruct (update_game_keys_attributes _ _ _ _ H4) as (Hne & Hown & Hothers).
  assert (∀ gid, game_attributes gid s3 = game_attributes gid s) as Hbefore.
  { intros gid. kept (game_attributes gid) H3. kept (game_attributes gid) H2.
    kept (game_attributes gid) H1. by kept (game_attributes gid) H0. }
  assert (∀ gid, game_attributes gid s' = game_attributes gid s4) as Hafter.
  { intros gid. kept (game_attributes gid) H9.
    by kept (game_attributes gid) H8. }
  split_and!; [done| |].
  - rewrite Hafter, Hown.
    replace (GAME_MOVES (game s3) !! game_id game_record) with (@None (list string));
      [done|].
    pose proof (Hbefore (game_id game_record)) as Hb.
    unfold game_attributes in Hb. injection Hb as _ _ _ _ _ _ _ ->. done.
  - intros gid Hgid. by rewrite Hafter, Hothers, Hbefore.
Qed.

Lemma returned_game_is_stored_witness :
  ["e4"; "e5"; "Nf3"; "d6"] ≠ [] ∧
  game_attributes "bc" store_C =
    (Some "draw", Some "draw", Some (TurnsInt 40),
     Some (find_number_of_checks ["e4"; "e5"; "Nf3"; "d6"]),
     Some "b", Some "c", Some "C41", Some ["e4"; "e5"; "Nf3"; "d6"]) ∧
  ∀ gid, gid ≠ "bc" →
    game_attributes gid store_C =
      game_attributes gid (serve_all [AddGameRecord [7%N] game_ab] empty_store).
Proof.
  apply (returned_game_is_stored [AddGameRecord [7%N] game_ab] [8%N] game_bc
           ["e4"; "e5"; "Nf3"; "d6"] store_C).
  - reflexivity.
  - vm_compute. reflexivity.
Defined.

(** ** Movesets given as text *)

Lemma replace_apostrophes_list s :
  list_ascii_of_string (replace_apostrophes s) =
    (λ c, if code c =? 39 then ascii_of_N 34 else c) <$> list_ascii_of_string s.
Proof. induction s as [|c s IH]; simpl; [done|]. by rewrite IH. Qed.

Lemma plain_char_codes c :
  plain_char c = true →
  (code c =? 34) = false ∧ (code c =? 39) = false ∧ (code c =? 92) = false ∧
  (code c <? 32) = false.
Proof.
  unfold plain_char. rewrite !andb_true_iff, !negb_true_iff.
  intros [[[[H32 _] ?] ?] ?]. split_and!; try done.
  apply Z.leb_le in H32. by apply Z.ltb_ge.
Qed.

Lemma replace_apostrophes_plain cs :
  Forall (λ c, plain_char c = true) cs →
  (λ c, if code c =? 39 then ascii_of_N 34 else c) <$> cs = cs.
Proof.
  induction 1 as [|c cs Hc Hcs IH]; [done|].
  rewrite fmap_cons, IH. by destruct (plain_char_codes c Hc) as (_ & -> & _).
Qed.

(** The decoder inside a literal: plain characters up to the closing quote. *)
Lemma json_array_literal cs : ∀ acc items rest,
  Forall (λ c, plain_char c = true) cs →
  json_array (InLiteral acc) items (cs ++ ascii_of_N 34 :: rest) =
    json_array AfterItem (string_of_list_ascii (rev acc ++ cs) :: items) rest.
Proof.
  induction cs as [|c cs IH]; intros acc items rest Hcs.
  { simpl. by rewrite app_nil_r. }
  apply Forall_cons in Hcs as [Hc Hcs].
  destruct (plain_char_codes c Hc) as (H34 & _ & H92 & H32).
  cbn [app json_array]. rewrite H34, H92, H32.
  rewrite IH by done. cbn [rev]. by rewrite <- app_assoc.
Qed.

Lemma fmap_quoted move :
  plain move →
  (λ c, if code c =? 39 then ascii_of_N 34 else c) <$> quoted move =
    ascii_of_N 34 :: list_ascii_of_string move ++ [ascii_of_N 34].
Proof.
  intros Hmove. unfold quoted.
  rewrite fmap_cons, fmap_app, replace_apostrophes_plain by done.
  reflexivity.
Qed.

(** The decoder on the items of a printed list, from the opening bracket or
    from a comma on. *)
Lemma json_array_items rest move items st :
  st = AfterOpen ∨ st = AfterComma →
  Forall plain (move :: rest) →
  json_array st items
    (((λ c, if code c =? 39 then ascii_of_N 34 else c) <$>
        python_items (move :: rest)) ++ ["]"%char]) =
    JsonList (rev items ++ move :: rest).
Proof.
  intros Hst Hplain.
  assert (∀ l, json_array st items (ascii_of_N 34 :: l) =
               json_array (InLiteral []) items l) as Hopen.
  { intros l. by destruct Hst as [-> | ->]. }
  revert Hopen. clear Hst.
  induction rest as [|move' rest IH] in move, items, st, Hplain |- *;
    intros Hopen.
  - apply Forall_cons in Hplain as [Hmove _].
    cbn [python_items]. rewrite fmap_quoted by done.
    cbn [app]. rewrite <- app_assoc. cbn [app].
    rewrite Hopen, json_array_literal by done. cbn [rev app].
    rewrite string_of_list_ascii_of_string. reflexivity.
  - apply Forall_cons in Hplain as [Hmove Hrest].
    change (python_items (move :: move' :: rest))
      with (quoted move ++ ","%char :: " "%char :: python_items (move' :: rest)).
    rewrite fmap_app, fmap_quoted, !fmap_cons by done.
    cbn [app]. rewrite <- !app_assoc. cbn [app].
    rewrite Hopen, json_array_literal by done. cbn [rev app].
    rewrite string_of_list_ascii_of_string.
    transitivity
      (json_array AfterComma (move :: items)
         (((λ c, if code c =? 39 then ascii_of_N 34 else c) <$>
             python_items (move' :: rest)) ++ ["]"%char])); [reflexivity|].
    rewrite (IH move' (move :: items) AfterComma) by done.
    cbn [rev]. by rewrite <- app_assoc.
Qed.

Lemma json_loads_python_list moves :
  Forall plain moves →
  json_loads (replace_apostrophes (python_list moves)) = JsonList moves.
Proof.
  intros Hplain. unfold json_loads, python_list.
  rewrite replace_apostrophes_list, list_ascii_of_string_of_list_ascii.
  rewrite fmap_cons, fmap_app.
  destruct moves as [|move rest]; [reflexivity|].
  transitivity
    (json_array AfterOpen []
       (((λ c, if code c =? 39 then ascii_of_N 34 else c) <$>
           python_items (move :: rest)) ++ ["]"%char])); [reflexivity|].
  by rewrite (json_array_items rest move [] AfterOpen) by (done || by left).
Qed.

(** X13. The text Python prints for a list of moves made of printable
    ASCII characters other than the two quotes and the backslash parses,
    through the replacement of apostrophes and [json.loads], to that list:
    the text form and the list form of a moveset give the same moves. *)
Theorem printed_moveset_parses moves :
  Forall plain moves →
  parse_moveset (MovesetStr (python_list moves)) = Ok moves ∧
  parse_moveset (MovesetStr (python_list moves)) =
    parse_moveset (MovesetList moves).
Proof.
  intros Hplain. unfold parse_moveset.
  by rewrite json_loads_python_list.
Qed.

Lemma printed_moveset_parses_witness :
  parse_moveset (MovesetStr "['e4', 'e5', 'Qh5+']") = Ok ["e4"; "e5"; "Qh5+"] ∧
  parse_moveset (MovesetStr "['e4', 'e5', 'Qh5+']") =
    parse_moveset (MovesetList ["e4"; "e5"; "Qh5+"]).
Proof.
  apply (printed_moveset_parses ["e4"; "e5"; "Qh5+"]).
  repeat constructor.
Defined.

(** ** Ids once taken *)

Lemma serve_preserves_player_id pid q :
  preserves (λ s, pid ∈ players_ids s) (serve q).
Proof.
  destruct q as [p|schedule|draws r]; simpl.
  - intros s Hs. destruct (decide (user_id p ∈ players_ids s)) as [Hin|Hnew].
    + by rewrite add_player_duplicate.
    + destruct (add_player_new p s Hnew) as (_ & -> & _). set_solver.
  - apply (preserves_keeps _ players_ids); [by intros s s' ->|].
    apply add_schedule_keeps_players_ids.
  - apply (preserves_keeps _ players_ids); [by intros s s' ->|].
    apply add_game_record_keeps_players_ids.
Qed.

(** X21. A series of write events never releases an id: a game id and
    a user id that are taken stay taken. *)
Theorem ids_never_released qs s :
  (∀ gid, gid ∈ games_ids s → gid ∈ games_ids (serve_all qs s)) ∧
  (∀ pid, pid ∈ players_ids s → pid ∈ players_ids (serve_all qs s)).
Proof.
  split.
  - intros gid. apply serve_all_keeps_reserved.
  - intros pid.
    apply (serve_all_preserves (λ s, pid ∈ players_ids s)).
    intros q. apply serve_preserves_player_id.
Qed.

Lemma ids_never_released_witness :
  "g1" ∈ games_ids (serve_all [AddGameRecord [9%N] game_bc] store_A).
Proof.
  apply (proj1 (ids_never_released [AddGameRecord [9%N] game_bc] store_A)).
  vm_compute. reflexivity.
Defined.

(** X20. Whatever a call of [add_game_record] returned or raised, a
    later call with the same game id raises BoardGameClubNotUniqueError and
    changes nothing: a record whose first load failed is not loaded by a
    second try. *)
Theorem failed_record_cannot_be_retried draws game_record s draws' retry :
  game_id retry = game_id game_record →
  ∃ msg,
    add_game_record draws' retry (add_game_record draws game_record s).2 =
      (Raise (BoardGameClubNotUniqueError msg),
       (add_game_record draws game_record s).2).
Proof.
  intros Heq. eexists. apply add_game_record_duplicate.
  rewrite Heq, add_game_record_reserves. set_solver.
Qed.

Lemma failed_record_cannot_be_retried_witness :
  (add_game_record [5%N] game_unparsable empty_store).1 = Raise JSONDecodeError ∧
  ∃ msg,
    add_game_record [5%N]
      {| game_id := "g2"; moveset := MovesetStr "['e4', 'e5', 'Nf3']";
         winner := "white"; victory_status := "mate"; number_of_turns := 3;
         white_player_id := "p1"; black_player_id := "p2";
         opening_eco := "C1" |}
      (add_game_record [5%N] game_unparsable empty_store).2 =
      (Raise (BoardGameClubNotUniqueError msg),
       (add_game_record [5%N] game_unparsable empty_store).2).
Proof.
  split; [vm_compute; reflexivity|].
  apply (failed_record_cannot_be_retried [5%N] game_unparsable empty_store).
  reflexivity.
Defined.

(** ** The leaderboards against the counters *)

Lemma bump_colon_free b pid :
  top_list_ok b → colon_free b.2 → has_colon pid = false →
  ∃ b', bump b pid = (Ok tt, b') ∧ top_list_ok b' ∧ colon_free b'.2.
Proof.
  intros Hok Hfree Hpid.
  destruct (update_top_list_colon_free b.2 pid (default 0 (b.1 !! pid) + 1)
              Hfree Hpid) as (top' & Hup & Hfree').
  assert (bump b pid = (Ok tt, (<[pid := default 0 (b.1 !! pid) + 1]> b.1, top')))
    as Hbump.
  { unfold bump, incr. simpl. by rewrite Hup. }
  eexists. split; [exact Hbump|]. split; [|done].
  by eapply bump_preserves.
Qed.

Lemma update_player_keys_boards r c1 p1 c2 p2 :
  has_colon p1 = false →
  preserves boards_ok (update_player_keys r c1 p1 c2 p2).
Proof.
  intros Hp1.
  assert (∀ B (m : M B), keeps (λ s, (wins_board s, losses_board s)) m →
            preserves boards_ok m) as Hkept.
  { intros B m. apply preserves_keeps.
    intros s s' [= Hwc Hwt Hlc Hlt] (Hw & Hl & Hfw & Hfl).
    unfold boards_ok, wins_board, losses_board, tops in *. simpl in *.
    by rewrite Hwc, Hwt, Hlc, Hlt. }
  unfold update_player_keys.
  apply preserves_bind; [|intros _; apply Hkept; keeps_unfold].
  destruct (bool_decide (winner r = c1)); [|destruct (bool_decide (winner r = c2))].
  - intros s (Hw & Hl & Hfw & Hfl).
    destruct (bump_colon_free (wins_board s) p1 Hw Hfw Hp1)
      as (b' & Hbump & Hok' & Hfree').
    pose proof (win_is_bump p1 s) as Hrun. simpl in Hrun.
    rewrite Hbump in Hrun. injection Hrun as _ Hboard.
    assert (losses_board
              ((wins <- INCR (PLAYER_WINS ∘ player) on_PLAYER_WINS p1 ;;
                update_top_list_at TOP_WINS p1 wins) s).2 = losses_board s)
      as Hother.
    { unfold bind, INCR, incr, update_top_list_at. simpl.
      by destruct (update_top_list _ _ _) as [[[]|?|?] top']. }
    unfold boards_ok. rewrite Hother.
    unfold tops in *. unfold wins_board in Hboard.
    rewrite <- Hboard in Hfree', Hok'. simpl in Hfree'.
    split_and!; try done.
    assert (ANALYTICS_TOP_LOSSES
              (analytics
                 ((wins <- INCR (PLAYER_WINS ∘ player) on_PLAYER_WINS p1 ;;
                   update_top_list_at TOP_WINS p1 wins) s).2) =
            ANALYTICS_TOP_LOSSES (analytics s)) as ->; [|done].
    by injection Hother.
  - intros s (Hw & Hl & Hfw & Hfl).
    destruct (bump_colon_free (losses_board s) p1 Hl Hfl Hp1)
      as (b' & Hbump & Hok' & Hfree').
    pose proof (loss_is_bump p1 s) as Hrun. simpl in Hrun.
    rewrite Hbump in Hrun. injection Hrun as _ Hboard.
    assert (wins_board
              ((losses <- INCR (PLAYER_LOSSES ∘ player) on_PLAYER_LOSSES p1 ;;
                update_top_list_at TOP_LOSSES p1 losses) s).2 = wins_board s)
      as Hother.
    { unfold bind, INCR, incr, update_top_list_at. simpl.
      by destruct (update_top_list _ _ _) as [[[]|?|?] top']. }
    unfold boards_ok. rewrite Hother.
    unfold tops in *. unfold losses_board in Hboard.
    rewrite <- Hboard in Hfree', Hok'. simpl in Hfree'.
    split_and!; try done.
    assert (ANALYTICS_TOP_WINS
              (analytics
                 ((losses <- INCR (PLAYER_LOSSES ∘ player) on_PLAYER_LOSSES p1 ;;
                   update_top_list_at TOP_LOSSES p1 losses) s).2) =
            ANALYTICS_TOP_WINS (analytics s)) as ->; [|done].
    by injection Hother.
  - apply Hkept. keeps_tac.
Qed.

Lemma serve_preserves_boards_ok q :
  tracked_event q → preserves boards_ok (serve q).
Proof.
  assert (∀ B (m : M B), keeps (λ s, (wins_board s, losses_board s)) m →
            preserves boards_ok m) as Hkept.
  { intros B m. apply preserves_keeps.
    intros s s' [= Hwc Hwt Hlc Hlt] (Hw & Hl & Hfw & Hfl).
    unfold boards_ok, wins_board, losses_board, tops in *. simpl in *.
    by rewrite Hwc, Hwt, Hlc, Hlt. }
  destruct q as [p|schedule|draws r]; simpl; [done| |].
  - intros _. apply Hkept. unfold add_schedule, assert_game_is_new. keeps_tac.
  - intros [Hwhite Hblack]. unfold add_game_record.
    apply preserves_bind;
      [apply Hkept; unfold assert_game_is_new; keeps_tac|intros _].
    apply preserves_bind; [apply Hkept, keeps_lift_result|intros moves].
    unfold record_game.
    apply preserves_bind; [apply Hkept; keeps_tac|intros _].
    apply preserves_bind; [by apply update_player_keys_boards|intros _].
    apply preserves_bind; [by apply update_player_keys_boards|intros _].
    apply Hkept. keeps_unfold.
Qed.

Lemma serve_all_boards_ok qs : ∀ s,
  Forall tracked_event qs → boards_ok s → boards_ok (serve_all qs s).
Proof.
  induction qs as [|q qs IH]; intros s Hqs Hs; simpl; [done|].
  apply Forall_cons in Hqs as [Hq Hqs].
  apply IH; [done|]. by apply serve_preserves_boards_ok.
Qed.

(** X24. After a series of pairings and of games between players whose
    ids hold no colon, with no [add_player] among the events, each
    leaderboard is in order against its counters: sorted, capped at ten, one
    item per player, every item showing the current counter of its player,
    and a full list wherever a player with a counter is left out, none of
    its items below that counter.  So a player in the true top ten is listed
    with its current score. *)
Theorem leaderboards_follow_counters qs :
  Forall tracked_event qs →
  let s := serve_all qs empty_store in
  top_list_ok (wins_board s) ∧ top_list_ok (losses_board s) ∧
  (∀ pid score, in_true_top (PLAYER_WINS (player s)) pid score →
     (pid, score) ∈ ANALYTICS_TOP_WINS (analytics s)) ∧
  (∀ pid score, in_true_top (PLAYER_LOSSES (player s)) pid score →
     (pid, score) ∈ ANALYTICS_TOP_LOSSES (analytics s)).
Proof.
  intros Hqs s.
  assert (boards_ok s) as (Hw & Hl & _ & _).
  { apply serve_all_boards_ok; [done|].
    split_and!; [apply top_list_ok_empty..|constructor|constructor]. }
  split_and!; [done..| |].
  - intros pid score. by apply (top_list_ok_lists_true_top (wins_board s)).
  - intros pid score. by apply (top_list_ok_lists_true_top (losses_board s)).
Qed.

Lemma leaderboards_follow_counters_witness :
  top_list_ok (wins_board store_C) ∧ top_list_ok (losses_board store_C).
Proof.
  destruct (leaderboards_follow_counters
              [AddGameRecord [7%N] game_ab; AddGameRecord [8%N] game_bc])
    as (Hw & Hl & _).
  { repeat constructor. }
  by split.
Defined.
